(** * Discord-LLM-Selfbot: the AICore cog ([src/cogs/ai_core.py])

    A shallow embedding of the memory store, the response parser, the
    engagement classifier, the per-channel guard of [on_message] and the
    boredom loop, with the properties the specification states about them.

    Conventions.
    - A Python [str] is a [string]; every [ascii] stands for one code point
      below 256, so [strip] and [lower] follow Python on Latin-1 text.
    - A Python [int] is a [Z].
    - Calls that leave the process (the completion service, sending a
      message, reading a channel history) are inputs of the functions that
      make them: the caller of a function says what each call returned or
      whether it raised. *)

From Stdlib Require Import ZArith Ascii String Bool Lia.
From stdpp Require Import gmap strings list fin_maps pretty.

Open Scope Z_scope.

(** ** Python strings *)

Module PyStr.

(** The line feed, ["\n"]. *)
Definition LF : ascii := ascii_of_nat 10.
Definition nl : string := String LF "".

(** [str.isspace] on one code point below 256: TAB..CR, FS..US, SPACE,
    NEL (0x85) and NBSP (0xA0). *)
Definition is_space (c : ascii) : bool :=
  let n := N_of_ascii c in
  ((9 <=? n) && (n <=? 13) || (28 <=? n) && (n <=? 32)
   || (n =? 133) || (n =? 160))%N.

(** [str.lower] on one code point below 256: A..Z and the accented capitals
    0xC0..0xDE (but not the multiplication sign 0xD7) move up by 32. *)
Definition lower_char (c : ascii) : ascii :=
  let n := N_of_ascii c in
  if ((65 <=? n) && (n <=? 90)
      || (192 <=? n) && (n <=? 222) && negb (n =? 215))%N
  then ascii_of_N (n + 32) else c.

Fixpoint lower (s : string) : string :=
  match s with
  | EmptyString => EmptyString
  | String c s' => String (lower_char c) (lower s')
  end.

Fixpoint lstrip (s : string) : string :=
  match s with
  | EmptyString => EmptyString
  | String c s' => if is_space c then lstrip s' else s
  end.

Fixpoint rstrip (s : string) : string :=
  match s with
  | EmptyString => EmptyString
  | String c s' =>
      match rstrip s' with
      | EmptyString => if is_space c then EmptyString else String c EmptyString
      | r => String c r
      end
  end.

(** [s.strip()] *)
Definition strip (s : string) : string := rstrip (lstrip s).

(** [s.startswith(p)] *)
Fixpoint startswith (s p : string) {struct p} : bool :=
  match p with
  | EmptyString => true
  | String a p' =>
      match s with
      | EmptyString => false
      | String b s' => if Ascii.eqb a b then startswith s' p' else false
      end
  end.

Fixpoint drop (n : nat) (s : string) : string :=
  match n with
  | O => s
  | S n' => match s with EmptyString => EmptyString | String _ s' => drop n' s' end
  end.

(** The leftmost occurrence of [sep] in [s]: the text before it and the
    text after it. This is the search both [sep in s] and [s.split(sep)]
    are built on. *)
Fixpoint cut (sep s : string) : option (string * string) :=
  if startswith s sep then Some (EmptyString, drop (String.length sep) s)
  else match s with
       | EmptyString => None
       | String c s' =>
           match cut sep s' with
           | Some (a, b) => Some (String c a, b)
           | None => None
           end
       end.

(** [sep in s] *)
Definition contains (sep s : string) : bool :=
  match cut sep s with Some _ => true | None => false end.

(** [s.split(sep)] for a non-empty [sep] (Python raises [ValueError] on an
    empty one; every separator in this program is a non-empty constant).
    Each round removes at least one character, so [length s] rounds are
    enough. *)
Fixpoint split_rounds (n : nat) (sep s : string) : list string :=
  match n with
  | O => [s]
  | S n' =>
      match cut sep s with
      | None => [s]
      | Some (a, b) => a :: split_rounds n' sep b
      end
  end.

Definition split (sep s : string) : list string :=
  split_rounds (String.length s) sep s.

(** Truthiness of a string: [if s:] *)
Definition truthy (s : string) : bool :=
  match s with EmptyString => false | _ => true end.

End PyStr.

Import PyStr.

(** ** Exceptions and fallible results *)

Inductive exn :=
  | IndexError                          (* [parts[1]] on a one-element list *)
  | AttributeError                      (* an attribute of [None] or of a deleted message *)
  | OperationalError (msg : string)     (* sqlite3: no such table, no such column, ... *)
  | IntegrityError (msg : string)       (* sqlite3: a constraint failed *)
  | ExternalError.                      (* raised by the chat platform or the service *)

Inductive result (A : Type) :=
  | Ok (a : A)
  | Raise (e : exn).
Arguments Ok {A} a.
Arguments Raise {A} e.

Definition bind {A B} (r : result A) (k : A -> result B) : result B :=
  match r with Ok a => k a | Raise e => Raise e end.

Notation "'let*' x ':=' r 'in' k" := (bind r (fun x => k))
  (at level 10, x pattern, r at level 100, k at level 200).

(** [l[i]]: Python raises [IndexError] out of range. *)
Definition item {A} (l : list A) (i : nat) : result A :=
  match l !! i with Some a => Ok a | None => Raise IndexError end.

(** What the completion service did on one call to [generate_content]:
    it raised, or it returned a response whose [text] may be [None]. *)
Inductive completion :=
  | ServiceError
  | Response (text : option string).

(** ** The memory store (steady state) *)

Module Store.

(** The sentinel notes of a fresh profile. *)
Definition placeholder : string := "No memories yet.".

(** One row of [memories]; [(user_id, guild_id)] is the primary key,
    [user_name] is the only nullable column. *)
Record memory_row := MemoryRow {
  user_id : Z;
  guild_id : Z;
  user_name : option string;
  notes : string;
  relationship_status : string
}.

(** [WHERE user_id = ? AND guild_id = ?] *)
Definition has_key (uid gid : Z) (r : memory_row) : bool :=
  (user_id r =? uid) && (guild_id r =? gid).

(** [INSERT OR IGNORE INTO memories ... VALUES ...] *)
Definition insert_or_ignore (r : memory_row) (rows : list memory_row)
  : list memory_row :=
  if existsb (has_key (user_id r) (guild_id r)) rows then rows else rows ++ [r].

(** [SELECT notes, relationship_status FROM memories WHERE ...] and
    [fetchone()] *)
Definition select_profile (uid gid : Z) (rows : list memory_row)
  : option (string * string) :=
  match List.find (has_key uid gid) rows with
  | Some r => Some (notes r, relationship_status r)
  | None => None
  end.

(** [UPDATE memories SET ... WHERE ...] *)
Definition update_where (p : memory_row -> bool) (f : memory_row -> memory_row)
    (rows : list memory_row) : list memory_row :=
  List.map (fun r => if p r then f r else r) rows.

Definition with_notes (s : string) (r : memory_row) : memory_row :=
  MemoryRow (user_id r) (guild_id r) (user_name r) s (relationship_status r).

Definition with_relationship (s : string) (r : memory_row) : memory_row :=
  MemoryRow (user_id r) (guild_id r) (user_name r) (notes r) s.

(** [AICore.get_user_profile] *)
Definition get_user_profile (rows : list memory_row)
    (uid : Z) (name : string) (gid : Z)
  : list memory_row * (string * string) :=
  let rows1 := insert_or_ignore (MemoryRow uid gid (Some name) placeholder "neutral") rows in
  let result := select_profile uid gid rows1 in
  (rows1, match result with Some r => r | None => (placeholder, "neutral") end).

(** [AICore.set_user_notes] *)
Definition set_user_notes (rows : list memory_row)
    (uid : Z) (new_notes : string) (gid : Z) : list memory_row :=
  update_where (has_key uid gid) (with_notes new_notes) rows.

(** [AICore.append_user_memory] *)
Definition append_user_memory (rows : list memory_row)
    (uid : Z) (memory_summary : string) (gid : Z) : list memory_row :=
  let '(rows1, (notes, _)) := get_user_profile rows uid "Unknown" gid in
  let new_notes :=
    if contains placeholder notes then "- " +:+ memory_summary
    else notes +:+ nl +:+ "- " +:+ memory_summary in
  set_user_notes rows1 uid new_notes gid.

(** [AICore.set_user_relationship] *)
Definition set_user_relationship (rows : list memory_row)
    (uid : Z) (status : string) (gid : Z) : list memory_row :=
  update_where (has_key uid gid) (with_relationship status) rows.

(** The [memory clear] command: [memory_clear] resets the notes of
    [user] in the scope of the invoking guild ([0] outside a guild). *)
Definition memory_clear (rows : list memory_row)
    (ctx_guild : option Z) (user : Z) : list memory_row :=
  let gid := match ctx_guild with Some g => g | None => 0 end in
  set_user_notes rows user placeholder gid.

(** *** The reaction log *)

(** One row of [reacted_messages]: the message id (primary key) and the
    time of the insert. *)
Definition reacted_row : Type := Z * Z.

(** [SELECT 1 FROM reacted_messages WHERE message_id = ?] and
    [fetchone()] *)
Definition has_reacted (log : list reacted_row) (message_id : Z) : bool :=
  existsb (fun r => fst r =? message_id) log.

(** [INSERT INTO reacted_messages (message_id) VALUES (?)]: a plain
    insert, which the primary key rejects for an id already there. *)
Definition record_reaction (log : list reacted_row) (message_id now : Z)
  : result (list reacted_row) :=
  if has_reacted log message_id
  then Raise (IntegrityError "UNIQUE constraint failed: reacted_messages.message_id")
  else Ok (log ++ [(message_id, now)]).

End Store.

(** ** The agent: configuration, messages and state *)

Module Agent.

(** One entry of [config["server_settings"]]; a key the JSON object does
    not have reads as [None]. *)
Record guild_settings := GuildSettings {
  is_active_in_all_channels : option bool;
  active_channels : option (list Z)
}.

(** [self.bot]: the account's own id and the parts of [bot.config] the
    reactive path and the boredom loop read. *)
Record bot := Bot {
  bot_user : Z;
  ignored_users : list Z;
  server_settings : gmap string guild_settings;
  trigger_words : list string;
  boredom_threshold : option Z
}.

(** [message.reference.resolved] *)
Inductive resolved :=
  | NotResolved                   (* [None] *)
  | DeletedReferencedMessage      (* an object without [author] *)
  | ResolvedMessage (author : Z).

Record message := Message {
  author_id : Z;
  author_bot : bool;
  author_display_name : string;
  guild : option Z;
  channel_id : Z;
  mentions : list Z;
  reference : option resolved;
  content : string
}.

(** The fields of [AICore] that change while it runs; [client] tells
    whether [self.client] is not [None], and the two tables stand for
    [self.db]. *)
Record AICore := Core {
  client : bool;
  memories : list Store.memory_row;
  reacted_messages : list Store.reacted_row;
  boredom_level : Z;
  is_thinking_in_channel : gmap Z bool;
  stealth_mode : bool
}.

Definition set_memories (rows : list Store.memory_row) (self : AICore) : AICore :=
  Core (client self) rows (reacted_messages self) (boredom_level self)
       (is_thinking_in_channel self) (stealth_mode self).

Definition set_reacted (log : list Store.reacted_row) (self : AICore) : AICore :=
  Core (client self) (memories self) log (boredom_level self)
       (is_thinking_in_channel self) (stealth_mode self).

Definition set_boredom (n : Z) (self : AICore) : AICore :=
  Core (client self) (memories self) (reacted_messages self) n
       (is_thinking_in_channel self) (stealth_mode self).

Definition set_thinking (m : gmap Z bool) (self : AICore) : AICore :=
  Core (client self) (memories self) (reacted_messages self) (boredom_level self)
       m (stealth_mode self).

(** [AICore._get_server_settings] *)
Definition _get_server_settings (b : bot) (guild_id : Z) : guild_settings :=
  let guild_id_str : string := pretty guild_id in
  default (default (GuildSettings (Some false) (Some [])) (server_settings b !! "default"))
          (server_settings b !! guild_id_str).

(** *** The engagement classifier *)

(** [AICore._should_respond_to_message]; [r] is what the service did when
    asked (it is not asked without a client). *)
Definition _should_respond_to_message (self : AICore) (r : completion) : bool :=
  if negb (client self) then false
  else match r with
       | Response (Some text) =>
           let decision := lower (strip text) in
           contains "yes" decision
       | Response None => false      (* [None.strip()] raises, caught *)
       | ServiceError => false       (* caught *)
       end.

(** *** The response parser *)

Definition MEMORIZE : string := "[MEMORIZE]".
Definition RELATIONSHIP : string := "[RELATIONSHIP]".

(** Lines 301-306 of [get_contextual_response] without the store write:
    the new [reply_text], and [memory_summary] when the block ran. *)
Definition memorize_block (full_response reply_text : string)
  : result (string * option string) :=
  if contains MEMORIZE full_response then
    let parts := split MEMORIZE reply_text in
    let* p0 := item parts 0 in
    let* p1 := item parts 1 in
    let* q0 := item (split RELATIONSHIP p1) 0 in
    Ok (strip p0, Some (strip q0))
  else Ok (reply_text, None).

(** Lines 308-313, likewise: the new [reply_text], and [new_relationship]
    when the block ran. *)
Definition relationship_block (full_response reply_text : string)
  : result (string * option string) :=
  if contains RELATIONSHIP full_response then
    let parts := split RELATIONSHIP reply_text in
    let* p0 := item parts 0 in
    let* p1 := item parts 1 in
    let* q0 := item (split MEMORIZE p1) 0 in
    Ok (strip p0, Some (strip q0))
  else Ok (reply_text, None).

(** What the two blocks extract from one completion. A directive field is
    [None] when its block did not run. *)
Record directives := Directives {
  reply_text : string;
  memory_summary : option string;
  new_relationship : option string
}.

(** The parser as a whole: [response.text.strip()], then the two blocks in
    the order of the source. *)
Definition parse_response (text : string) : result directives :=
  let full_response := strip text in
  let* b1 := memorize_block full_response full_response in
  let* b2 := relationship_block full_response (fst b1) in
  Ok (Directives (fst b2) (snd b1) (snd b2)).

(** [AICore.get_contextual_response]. [r] is what the service did and
    [delivered] tells whether the typing scope, the delay and
    [message.reply] all went through. Returns the new state and the reply
    that was sent, if one was. Every exception is caught and logged; the
    writes made before it stay. *)
Definition get_contextual_response (self : AICore) (m : message)
    (r : completion) (delivered : bool) : AICore * option string :=
  if negb (client self) then (self, None) else
  let context_guild_id := match guild m with Some g => g | None => 0 end in
  let '(rows1, _) :=
    Store.get_user_profile (memories self) (author_id m) (author_display_name m)
      context_guild_id in
  let self1 := set_memories rows1 self in
  match r with
  | ServiceError | Response None => (self1, None)
  | Response (Some text) =>
      let full_response := strip text in
      match memorize_block full_response full_response with
      | Raise _ => (self1, None)
      | Ok (reply1, mem) =>
          let self2 :=
            match mem with
            | Some memory_summary =>
                if truthy memory_summary
                then set_memories
                       (Store.append_user_memory (memories self1) (author_id m)
                          memory_summary context_guild_id) self1
                else self1
            | None => self1
            end in
          match relationship_block full_response reply1 with
          | Raise _ => (self2, None)
          | Ok (reply2, rel) =>
              let self3 :=
                match rel with
                | Some new_relationship =>
                    if truthy new_relationship
                    then set_memories
                           (Store.set_user_relationship (memories self2) (author_id m)
                              new_relationship context_guild_id) self2
                    else self2
                | None => self2
                end in
              if truthy reply2 then
                if delivered then (set_boredom 0 self3, Some reply2)
                else (self3, None)
              else (self3, None)
          end
      end
  end.

(** *** The reactive path: [on_message] *)

(** How the synchronous head of [on_message] ends: it returns without
    doing anything, it raises, or it marks the channel busy and goes on
    to the [try] block. *)
Inductive entry :=
  | Returned
  | Raised (e : exn)
  | Entered (self' : AICore).

(** What the calls awaited inside the [try] block of one cycle did. *)
Record cycle_io := CycleIO {
  history_read : bool;          (* [channel.history] did not raise *)
  decision : completion;        (* the classifier's call *)
  generation : completion;      (* the reply's call *)
  reply_delivered : bool
}.

Section Reactive.

(** [re.search(r'\b' + re.escape(word) + r'\b', content, re.IGNORECASE)]
    as a truth value, for [word] and [content]: the whole-word search is
    the regular-expression library's. *)
Variable re_search_word : string -> string -> bool.

Definition is_mentioned (b : bot) (m : message) : bool :=
  bool_decide (bot_user b ∈ mentions m).

(** [message.reference and message.reference.resolved and
    message.reference.resolved.author.id == self.bot.user.id] *)
Definition is_reply (b : bot) (m : message) : result bool :=
  match reference m with
  | None => Ok false
  | Some NotResolved => Ok false
  | Some DeletedReferencedMessage => Raise AttributeError
  | Some (ResolvedMessage author) => Ok (author =? bot_user b)
  end.

Definition triggered (b : bot) (m : message) : bool :=
  existsb (fun word => re_search_word word (content m)) (trigger_words b).

(** The activation check of a guild message: [true] when the message is
    to be ignored. *)
Definition outside_active_channels (b : bot) (guild_id : Z) (m : message) : bool :=
  let server_settings := _get_server_settings b guild_id in
  negb (default false (is_active_in_all_channels server_settings))
  && negb (bool_decide (channel_id m ∈ default [] (active_channels server_settings))).

(** [on_message] up to and including
    [self.is_thinking_in_channel[message.channel.id] = True]. Nothing is
    awaited before that line, so no other task runs in between. *)
Definition on_message_enter (b : bot) (self : AICore) (m : message) : entry :=
  if (author_id m =? bot_user b) || author_bot m then Returned else
  if bool_decide (author_id m ∈ ignored_users b) then Returned else
  if match guild m with
     | Some guild_id => outside_active_channels b guild_id m
     | None => false
     end then Returned else
  if default false (is_thinking_in_channel self !! channel_id m) then Returned else
  match is_reply b m with
  | Raise e => Raised e
  | Ok replied =>
      if negb (is_mentioned b m || replied || triggered b m) then Returned
      else Entered (set_thinking (<[channel_id m := true]> (is_thinking_in_channel self)) self)
  end.

(** The body of the [try] block: the state it leaves and the exception
    that escapes it, if any. *)
Definition on_message_body (self : AICore) (m : message) (io : cycle_io)
  : AICore * option exn :=
  if negb (history_read io) then (self, Some ExternalError) else
  if _should_respond_to_message self (decision io)
  then (fst (get_contextual_response self m (generation io) (reply_delivered io)), None)
  else (self, None).

(** The [finally] clause: [self.is_thinking_in_channel.pop(channel.id, None)] *)
Definition on_message_exit (self : AICore) (channel : Z) : AICore :=
  set_thinking (delete channel (is_thinking_in_channel self)) self.

(** One whole run of [on_message], were nothing else to run meanwhile. *)
Definition on_message (b : bot) (self : AICore) (m : message) (io : cycle_io)
  : AICore * option exn :=
  match on_message_enter b self m with
  | Returned => (self, None)
  | Raised e => (self, Some e)
  | Entered self1 =>
      let '(self2, e) := on_message_body self1 m io in
      (on_message_exit self2 (channel_id m), e)
  end.

End Reactive.

(** *** The boredom loop *)

(** What the calls made by one tick of the boredom loop did. *)
Record outreach_io := OutreachIO {
  eligible : list Z;            (* [_get_eligible_channels('send_messages')] *)
  pick : nat;                   (* the draw of [random.choice] *)
  recent_read : bool;           (* [channel.history] did not raise *)
  outreach : completion;
  message_sent : bool           (* typing, delay and [channel.send] went through *)
}.

(** [random.choice(target_channels)] on a non-empty list. *)
Definition random_choice (target_channels : list Z) (pick : nat) : Z :=
  nth (pick mod length target_channels) target_channels 0.

(** [AICore.autonomous_message_loop], one tick: the new state, the
    message sent (channel and text) if any, and the exception that escapes
    the tick, if any. *)
Definition autonomous_message_loop (b : bot) (self : AICore) (io : outreach_io)
  : AICore * option (Z * string) * option exn :=
  if stealth_mode self || negb (client self) then (self, None, None) else
  let self1 := set_boredom (boredom_level self + 1) self in
  let threshold := default 120 (boredom_threshold b) in
  if boredom_level self1 <? threshold then (self1, None, None) else
  match eligible io with
  | [] => (self1, None, None)
  | target_channels =>
      let channel := random_choice target_channels (pick io) in
      if negb (recent_read io) then (self1, None, Some ExternalError) else
      match outreach io with
      | ServiceError => (self1, None, None)
      | Response None => (self1, None, None)
      | Response (Some text) =>
          if truthy text then
            let message_text := strip text in
            if message_sent io
            then (set_boredom 0 self1, Some (channel, message_text), None)
            else (self1, None, None)
          else (self1, None, None)
      end
  end.

(** *** The reaction loop *)

(** One message of the scanned history, with what the calls made for it
    did, should the scan reach it. *)
Record scanned := Scanned {
  message_id : Z;
  emoji : completion;
  reaction_added : bool
}.

(** The [async for] of [autonomous_reaction_loop] over the history,
    newest first: the log it leaves, the reaction made, and the exception
    that ends the scan, if any. *)
Fixpoint scan_history (log : list Store.reacted_row) (now : Z) (history : list scanned)
  : list Store.reacted_row * option (Z * string) * option exn :=
  match history with
  | [] => (log, None, None)
  | m :: rest =>
      if Store.has_reacted log (message_id m) then scan_history log now rest else
      match emoji m with
      | ServiceError => (log, None, Some ExternalError)
      | Response None => (log, None, Some AttributeError)
      | Response (Some text) =>
          let reaction_emoji := strip text in
          if truthy reaction_emoji then
            if reaction_added m then
              match Store.record_reaction log (message_id m) now with
              | Ok log' => (log', Some (message_id m, reaction_emoji), None)
              | Raise e => (log, Some (message_id m, reaction_emoji), Some e)
              end
            else (log, None, Some ExternalError)
          else scan_history log now rest
      end
  end.

(** [AICore.autonomous_reaction_loop], one tick; [history] is [None] when
    [channel.history] raises. Exceptions are caught and logged. *)
Definition autonomous_reaction_loop (self : AICore) (target_channels : list Z)
    (now : Z) (history : option (list scanned)) : AICore * option (Z * string) :=
  if stealth_mode self || negb (client self) then (self, None) else
  match target_channels with
  | [] => (self, None)
  | _ =>
      match history with
      | None => (self, None)
      | Some msgs =>
          let '(log, reaction, _) := scan_history (reacted_messages self) now msgs in
          (set_reacted log self, reaction)
      end
  end.

(** *** The tasks side by side *)

Section Scheduling.

Variable re_search_word : string -> string -> bool.

(** The agent together with the reactive cycles that have entered their
    [try] block and not yet left it. *)
Record system := System {
  core : AICore;
  in_flight : list message
}.

(** Cooperative scheduling: the code between two awaits runs as one step.
    An event either starts a cycle or is dropped; a cycle in flight writes
    the store and the counter when its reply call returns; a cycle in flight
    leaves through [finally]; and the two periodic loops tick in between. *)
Inductive step (b : bot) : system -> system -> Prop :=
  | step_start self fl m self' :
      on_message_enter re_search_word b self m = Entered self' ->
      step b (System self fl) (System self' (m :: fl))
  | step_drop self fl m :
      on_message_enter re_search_word b self m = Returned ->
      step b (System self fl) (System self fl)
  | step_raise self fl m e :
      on_message_enter re_search_word b self m = Raised e ->
      step b (System self fl) (System self fl)
  | step_respond self fl m r d :
      m ∈ fl ->
      step b (System self fl)
             (System (fst (get_contextual_response self m r d)) fl)
  | step_finish self fl1 m fl2 :
      step b (System self (fl1 ++ m :: fl2))
             (System (on_message_exit self (channel_id m)) (fl1 ++ fl2))
  | step_outreach self fl io :
      step b (System self fl)
             (System (fst (fst (autonomous_message_loop b self io))) fl)
  | step_reaction self fl target_channels now history :
      step b (System self fl)
             (System (fst (autonomous_reaction_loop self target_channels now history)) fl).

Inductive reachable (b : bot) : system -> Prop :=
  | reachable_init self :
      is_thinking_in_channel self = ∅ ->
      reachable b (System self [])
  | reachable_step s s' :
      reachable b s -> step b s s' -> reachable b s'.

End Scheduling.

End Agent.

(** ** Startup: the connection and the schema migration *)

Module Migration.

(** One row of a [memories] table of the schema before guild scoping: the
    four columns the copy statement reads, each possibly [NULL]. *)
Record legacy_row := LegacyRow {
  old_user_id : option Z;
  old_user_name : option string;
  old_notes : option string;
  old_relationship_status : option string
}.

Inductive table :=
  | LegacyMemories (rows : list legacy_row)           (* no [guild_id] column *)
  | Memories (rows : list Store.memory_row)           (* schema of [create_memory_table] *)
  | ReactedMessages (rows : list Store.reacted_row).

(** [self.db]: the tables as last committed, the tables as this connection
    sees them, and whether a transaction is open. *)
Record connection := Connection {
  committed : gmap string table;
  working : gmap string table;
  in_transaction : bool
}.

(** A run and the exception it ended with, if any. *)
Definition run : Type := connection * option exn.

Definition and_then (r : run) (k : connection -> run) : run :=
  match r with
  | (c, None) => k c
  | (c, Some e) => (c, Some e)
  end.

(** [cursor.execute] of one statement. The sqlite3 module opens a
    transaction before a data-changing statement ([implicit_begin]); a
    statement outside a transaction is committed at once; a statement that
    fails changes no table. *)
Definition execute (implicit_begin : bool)
    (statement : gmap string table -> result (gmap string table))
    (c : connection) : run :=
  let open := in_transaction c || implicit_begin in
  match statement (working c) with
  | Raise e => (Connection (committed c) (working c) open, Some e)
  | Ok w =>
      if open then (Connection (committed c) w true, None)
      else (Connection w w false, None)
  end.

(** [self.db.commit()] *)
Definition commit (c : connection) : connection :=
  Connection (working c) (working c) false.

(** [self.db.rollback()] *)
Definition rollback (c : connection) : connection :=
  Connection (committed c) (committed c) false.

(** [BEGIN TRANSACTION] *)
Definition begin_transaction (c : connection) : run :=
  if in_transaction c
  then (c, Some (OperationalError "cannot start a transaction within a transaction"))
  else (Connection (committed c) (working c) true, None).

(** The statements of the migration that an outside failure (a full disk,
    an I/O error) can hit. *)
Inductive statement_id := Rename | Create | Copy | Drop.

Definition failing (fault : bool) (k : result (gmap string table))
  : result (gmap string table) :=
  if fault then Raise (OperationalError "disk I/O error") else k.

(** [SELECT guild_id FROM memories LIMIT 1] *)
Definition select_guild_id (w : gmap string table) : result unit :=
  match w !! "memories" with
  | None => Raise (OperationalError "no such table: memories")
  | Some (Memories _) => Ok tt
  | Some _ => Raise (OperationalError "no such column: guild_id")
  end.

(** [ALTER TABLE memories RENAME TO memories_old] *)
Definition alter_rename (w : gmap string table) : result (gmap string table) :=
  match w !! "memories", w !! "memories_old" with
  | None, _ => Raise (OperationalError "no such table: memories")
  | Some _, Some _ =>
      Raise (OperationalError "there is already another table or index with this name: memories_old")
  | Some t, None => Ok (<["memories_old" := t]> (delete "memories" w))
  end.

(** [CREATE TABLE IF NOT EXISTS memories (...)] *)
Definition create_if_not_exists (name : string) (empty : table)
    (w : gmap string table) : result (gmap string table) :=
  match w !! name with
  | Some _ => Ok w
  | None => Ok (<[name := empty]> w)
  end.

(** One row of [SELECT user_id, 0, user_name, notes, relationship_status
    FROM memories_old] inserted into [memories]: the [NOT NULL] columns and
    the primary key are checked. *)
Definition insert_copied (dest : list Store.memory_row) (r : legacy_row)
  : result (list Store.memory_row) :=
  match old_user_id r, old_notes r, old_relationship_status r with
  | None, _, _ => Raise (IntegrityError "NOT NULL constraint failed: memories.user_id")
  | Some _, None, _ => Raise (IntegrityError "NOT NULL constraint failed: memories.notes")
  | Some _, Some _, None =>
      Raise (IntegrityError "NOT NULL constraint failed: memories.relationship_status")
  | Some uid, Some n, Some rel =>
      if existsb (Store.has_key uid 0) dest
      then Raise (IntegrityError "UNIQUE constraint failed: memories.user_id, memories.guild_id")
      else Ok (dest ++ [Store.MemoryRow uid 0 (old_user_name r) n rel])
  end.

Fixpoint copy_rows (dest : list Store.memory_row) (src : list legacy_row)
  : result (list Store.memory_row) :=
  match src with
  | [] => Ok dest
  | r :: src' => let* dest' := insert_copied dest r in copy_rows dest' src'
  end.

(** [INSERT INTO memories (...) SELECT ... FROM memories_old] *)
Definition insert_select (w : gmap string table) : result (gmap string table) :=
  match w !! "memories", w !! "memories_old" with
  | None, _ => Raise (OperationalError "no such table: memories")
  | Some _, None => Raise (OperationalError "no such table: memories_old")
  | Some (Memories dest), Some (LegacyMemories src) =>
      let* dest' := copy_rows dest src in
      Ok (<["memories" := Memories dest']> w)
  | Some (Memories _), Some _ => Raise (OperationalError "no such column: user_name")
  | Some _, Some _ => Raise (OperationalError "table memories has no column named guild_id")
  end.

(** [DROP TABLE memories_old] *)
Definition drop_table (name : string) (w : gmap string table)
  : result (gmap string table) :=
  match w !! name with
  | None => Raise (OperationalError "no such table: memories_old")
  | Some _ => Ok (delete name w)
  end.

(** [AICore.create_memory_table]: the statement, then [self.db.commit()]. *)
Definition create_memory_table (fault : bool) (c : connection) : run :=
  and_then
    (execute false
       (fun w => failing fault (create_if_not_exists "memories" (Memories []) w)) c)
    (fun c1 => (commit c1, None)).

(** [AICore.create_reaction_log_table] *)
Definition create_reaction_log_table (c : connection) : run :=
  and_then
    (execute false (create_if_not_exists "reacted_messages" (ReactedMessages [])) c)
    (fun c1 => (commit c1, None)).

(** The [try] block of [_migrate_database], lines 148-167. *)
Definition migration_steps (fault : statement_id -> bool) (c : connection) : run :=
  and_then (begin_transaction c) (fun c1 =>
  and_then (execute false (fun w => failing (fault Rename) (alter_rename w)) c1) (fun c2 =>
  and_then (create_memory_table (fault Create) c2) (fun c3 =>
  and_then (execute true (fun w => failing (fault Copy) (insert_select w)) c3) (fun c4 =>
  and_then (execute false (fun w => failing (fault Drop) (drop_table "memories_old" w)) c4) (fun c5 =>
  (commit c5, None)))))).

(** [AICore._migrate_database]; [fault] says which statements of the
    migration an outside failure hits. The exception returned is the one
    the method raises. *)
Definition _migrate_database (fault : statement_id -> bool) (c : connection) : run :=
  match select_guild_id (working c) with
  | Ok _ => (c, None)
  | Raise (OperationalError msg) =>
      if contains "no such column: guild_id" msg then
        match migration_steps fault c with
        | (c', None) => (c', None)
        | (c', Some migration_error) => (rollback c', Some migration_error)
        end
      else (c, Some (OperationalError msg))
  | Raise e => (c, Some e)
  end.

(** The database part of [AICore.__init__]. *)
Definition startup (fault : statement_id -> bool) (c : connection) : run :=
  and_then (_migrate_database fault c) (fun c1 =>
  and_then (create_memory_table false c1) (fun c2 =>
  create_reaction_log_table c2)).

(** A connection just opened on a database file holding [tables]. *)
Definition connect (tables : gmap string table) : connection :=
  Connection tables tables false.

End Migration.

(** ** Notions the statements use *)

(** [c] occurs in [s]. *)
Fixpoint occurs (c : ascii) (s : string) : bool :=
  match s with
  | EmptyString => false
  | String d s' => Ascii.eqb c d || occurs c s'
  end.

(** [s] is [l] followed by [sep] followed by [r], for some [l] and [r]. *)
Definition has_substring (sep s : string) : Prop :=
  exists l r, s = l +:+ sep +:+ r.

(** [s] holds the word yes in some mix of upper and lower case. *)
Definition says_yes (s : string) : Prop :=
  exists l a b c r,
    s = l +:+ String a (String b (String c r))
    /\ (a = "y"%char \/ a = "Y"%char)
    /\ (b = "e"%char \/ b = "E"%char)
    /\ (c = "s"%char \/ c = "S"%char).

(** Neither directive marker occurs in [s]. *)
Definition marker_free (s : string) : Prop :=
  contains Agent.MEMORIZE s = false /\ contains Agent.RELATIONSHIP s = false.

(** The common shape of [Agent.memorize_block] and
    [Agent.relationship_block]: the block of [marker], whose payload stops at
    [other]. *)
Definition directive_block (marker other full_response reply_text : string)
  : result (string * option string) :=
  if contains marker full_response then
    let parts := split marker reply_text in
    let* p0 := item parts 0 in
    let* p1 := item parts 1 in
    let* q0 := item (split other p1) 0 in
    Ok (strip p0, Some (strip q0))
  else Ok (reply_text, None).

(** The lines of a text: [s.split("\n")]. *)
Definition lines (s : string) : list string := split nl s.

(** The two texts of the parsing example: the reply, then a line for each
    directive, in either order. *)
Definition memorize_first : string :=
  "Hello there" +:+ nl +:+ "[MEMORIZE]likes cats" +:+ nl +:+ "[RELATIONSHIP]friendly".

Definition relationship_first : string :=
  "Hello there" +:+ nl +:+ "[RELATIONSHIP]friendly" +:+ nl +:+ "[MEMORIZE]likes cats".

(** The message [m] as it would be in the guild [g]. *)
Definition in_guild (g : Z) (m : Agent.message) : Agent.message :=
  Agent.Message (Agent.author_id m) (Agent.author_bot m) (Agent.author_display_name m)
    (Some g) (Agent.channel_id m) (Agent.mentions m) (Agent.reference m) (Agent.content m).

(** Whether a cycle holds the busy bit of [channel]. *)
Definition busy (self : Agent.AICore) (channel : Z) : bool :=
  default false (Agent.is_thinking_in_channel self !! channel).

(** The cycles in flight on [channel]. *)
Definition cycles_on (channel : Z) (fl : list Agent.message) : list Agent.message :=
  List.filter (fun m => Agent.channel_id m =? channel) fl.

(** ** The platform's cache: guilds and channels *)

Module Discord.

(** A channel as the cog reads it: [can] is
    [getattr(channel.permissions_for(guild.me), name, False)]. *)
Record Channel := mkChannel {
  channel_ident : Z;
  channel_name : string;
  is_text : bool;
  can : string -> bool
}.

Record Guild := mkGuild {
  guild_ident : Z;
  guild_name : string;
  channels : list Channel
}.

(** [guild.text_channels] *)
Definition text_channels (g : Guild) : list Channel :=
  List.filter is_text (channels g).

(** [guild.get_channel(channel_id)] *)
Definition guild_get_channel (g : Guild) (channel_id : Z) : option Channel :=
  List.find (fun c => channel_ident c =? channel_id) (channels g).

(** [bot.get_channel(channel_id)]: the channel, with the guild that holds it
    ([channel.guild]). *)
Fixpoint get_channel (guilds : list Guild) (channel_id : Z) : option (Guild * Channel) :=
  match guilds with
  | [] => None
  | g :: rest =>
      match guild_get_channel g channel_id with
      | Some c => Some (g, c)
      | None => get_channel rest channel_id
      end
  end.

(** [bot.get_guild(guild_id)] *)
Definition get_guild (guilds : list Guild) (guild_id : Z) : option Guild :=
  List.find (fun g => guild_ident g =? guild_id) guilds.

(** [discord.utils.get(guilds, name=identifier)] *)
Definition get_guild_named (guilds : list Guild) (identifier : string) : option Guild :=
  List.find (fun g => String.eqb (guild_name g) identifier) guilds.

(** [discord.utils.get(guild.text_channels, name=identifier)] *)
Definition get_text_channel_named (g : Guild) (identifier : string) : option Channel :=
  List.find (fun c => String.eqb (channel_name c) identifier) (text_channels g).

End Discord.

(** ** The rest of the cog: channels, commands and the summarization loop *)

Module Cog.
Import Discord.

(** [AICore._get_eligible_channels] *)
Definition _get_eligible_channels (b : Agent.bot) (guilds : list Guild)
    (permission_check : string) : list Channel :=
  flat_map
    (fun guild =>
       let settings := Agent._get_server_settings b (guild_ident guild) in
       if default false (Agent.is_active_in_all_channels settings) then
         List.filter (fun channel => can channel permission_check) (text_channels guild)
       else
         flat_map
           (fun channel_id =>
              match get_channel guilds channel_id with
              | Some (owner, channel) =>
                  if (guild_ident owner =? guild_ident guild) && can channel permission_check
                  then [channel] else []
              | None => []
              end)
           (default [] (Agent.active_channels settings)))
    guilds.

Definition set_stealth (on : bool) (self : Agent.AICore) : Agent.AICore :=
  Agent.Core (Agent.client self) (Agent.memories self) (Agent.reacted_messages self)
    (Agent.boredom_level self) (Agent.is_thinking_in_channel self) on.

(** [AICore.stealth_command]: the new state and the text the message is
    edited to. *)
Definition stealth_command (self : Agent.AICore) (mode : string)
  : Agent.AICore * string :=
  let mode := lower mode in
  if String.eqb mode "on" then
    (set_stealth true self, "**Stealth Mode:** Activated.")
  else if String.eqb mode "off" then
    (set_stealth false self, "**Stealth Mode:** Deactivated.")
  else (self, "**Error:** Invalid mode. Use `!stealth on` or `!stealth off`.").

(** [AICore.memory_add] *)
Definition memory_add (rows : list Store.memory_row)
    (ctx_guild : option Z) (user : Z) (text : string) : list Store.memory_row :=
  let guild_id := match ctx_guild with Some g => g | None => 0 end in
  Store.append_user_memory rows user text guild_id.

(** *** Resolving the arguments of the channel commands *)

(** [s.endswith(p)] *)
Definition endswith (s p : string) : bool :=
  (String.length p <=? String.length s)%nat
  && String.eqb (drop (String.length s - String.length p) s) p.

(** [s[:-1]] *)
Fixpoint but_last (s : string) : string :=
  match s with
  | EmptyString => EmptyString
  | String c EmptyString => EmptyString
  | String c s' => String c (but_last s')
  end.

Section Resolution.

(** [int(s)] for a string: [None] when it raises [ValueError]. *)
Variable python_int : string -> option Z.

(** [AICore._resolve_guild] *)
Definition _resolve_guild (guilds : list Guild) (identifier : string) : option Guild :=
  match
    match python_int identifier with
    | Some guild_id => get_guild guilds guild_id
    | None => None
    end
  with
  | Some guild => Some guild
  | None => get_guild_named guilds identifier
  end.

(** [AICore._parse_guild_and_channels]; [(None, [])] is returned after the
    error reply. *)
Definition _parse_guild_and_channels (guilds : list Guild) (ctx_guild : option Guild)
    (args : list string) : option Guild * list string :=
  match ctx_guild with
  | None =>
      match args with
      | [] => (None, [])
      | first :: rest =>
          match _resolve_guild guilds first with
          | None => (None, [])
          | Some guild => (Some guild, rest)
          end
      end
  | Some here =>
      match args with
      | first :: rest =>
          match _resolve_guild guilds first with
          | Some potential_guild => (Some potential_guild, rest)
          | None => (Some here, args)
          end
      | [] => (Some here, args)
      end
  end.

(** The body of the loop of [_resolve_channel_ids] for one identifier: the
    id of the channel found, or [None] when the identifier fails (no such
    channel, or [ValueError]). *)
Definition resolve_identifier (guild : Guild) (identifier : string) : option Z :=
  if startswith identifier "<#" && endswith identifier ">" then
    match python_int (drop 2 (but_last identifier)) with
    | Some channel_id => option_map channel_ident (guild_get_channel guild channel_id)
    | None => None
    end
  else
    match get_text_channel_named guild identifier with
    | Some channel => Some (channel_ident channel)
    | None =>
        match python_int identifier with
        | Some channel_id => option_map channel_ident (guild_get_channel guild channel_id)
        | None => None
        end
    end.

(** [AICore._resolve_channel_ids] *)
Fixpoint _resolve_channel_ids (guild : Guild) (identifiers : list string)
  : list Z * list string :=
  match identifiers with
  | [] => ([], [])
  | identifier :: rest =>
      let '(channel_ids, failed) := _resolve_channel_ids guild rest in
      match resolve_identifier guild identifier with
      | Some channel_id => (channel_id :: channel_ids, failed)
      | None => (channel_ids, identifier :: failed)
      end
  end.

(** *** The channel commands *)

(** [self.bot.config['server_settings'][str(guild_id)] = settings] *)
Definition with_guild_settings (b : Agent.bot) (guild_id : Z)
    (settings : Agent.guild_settings) : Agent.bot :=
  Agent.Bot (Agent.bot_user b) (Agent.ignored_users b)
    (<[pretty guild_id := settings]> (Agent.server_settings b))
    (Agent.trigger_words b) (Agent.boredom_threshold b).

(** What a channel command reports when it went through: the count and the
    total of its reply, and the identifiers it could not resolve. *)
Record report := Report {
  counted : nat;
  total : nat;
  could_not_resolve : list string
}.

(** [AICore.activechannels_set]; no report when the command stopped on an
    error reply. *)
Definition activechannels_set (b : Agent.bot) (guilds : list Guild)
    (ctx_guild : option Guild) (args : list string) : Agent.bot * option report :=
  let '(target_guild, channel_identifiers) := _parse_guild_and_channels guilds ctx_guild args in
  match target_guild with
  | None => (b, None)
  | Some guild =>
      match channel_identifiers with
      | [] => (b, None)
      | _ =>
          let '(channel_ids, failed) := _resolve_channel_ids guild channel_identifiers in
          match channel_ids with
          | [] => (b, None)
          | _ =>
              (with_guild_settings b (guild_ident guild)
                 (Agent.GuildSettings (Some false) (Some channel_ids)),
               Some (Report (length channel_ids) (length channel_ids) failed))
          end
      end
  end.

(** [AICore.activechannels_add]. [list(current_ids)] holds the members of
    the set in the order the set gives them. *)
Definition activechannels_add (b : Agent.bot) (guilds : list Guild)
    (ctx_guild : option Guild) (args : list string) : Agent.bot * option report :=
  let '(target_guild, channel_identifiers) := _parse_guild_and_channels guilds ctx_guild args in
  match target_guild with
  | None => (b, None)
  | Some guild =>
      match channel_identifiers with
      | [] => (b, None)
      | _ =>
          let '(channel_ids, failed) := _resolve_channel_ids guild channel_identifiers in
          match channel_ids with
          | [] => (b, None)
          | _ =>
              let settings := Agent._get_server_settings b (guild_ident guild) in
              let current_ids : gset Z :=
                list_to_set (default [] (Agent.active_channels settings)) in
              let added_count := size (list_to_set channel_ids ∖ current_ids : gset Z) in
              let current_ids' := current_ids ∪ list_to_set channel_ids in
              (with_guild_settings b (guild_ident guild)
                 (Agent.GuildSettings (Some false) (Some (elements current_ids'))),
               Some (Report added_count (size current_ids') failed))
          end
      end
  end.

(** [AICore.activechannels_remove] *)
Definition activechannels_remove (b : Agent.bot) (guilds : list Guild)
    (ctx_guild : option Guild) (args : list string) : Agent.bot * option report :=
  let '(target_guild, channel_identifiers) := _parse_guild_and_channels guilds ctx_guild args in
  match target_guild with
  | None => (b, None)
  | Some guild =>
      match channel_identifiers with
      | [] => (b, None)
      | _ =>
          let '(channel_ids, failed) := _resolve_channel_ids guild channel_identifiers in
          match channel_ids with
          | [] => (b, None)
          | _ =>
              let settings := Agent._get_server_settings b (guild_ident guild) in
              let current_ids : gset Z :=
                list_to_set (default [] (Agent.active_channels settings)) in
              let removed_count := size (current_ids ∩ list_to_set channel_ids) in
              let current_ids' := current_ids ∖ list_to_set channel_ids in
              (with_guild_settings b (guild_ident guild)
                 (Agent.GuildSettings (Some false) (Some (elements current_ids'))),
               Some (Report removed_count (size current_ids') failed))
          end
      end
  end.

(** The guild the commands [all] and [clear] act on: the one named, when a
    non-empty name is given, else the one of the invocation. *)
Definition target_of (guilds : list Guild) (ctx_guild : option Guild)
    (guild_identifier : option string) : option Guild :=
  match guild_identifier with
  | Some identifier =>
      if truthy identifier then _resolve_guild guilds identifier else ctx_guild
  | None => ctx_guild
  end.

(** [AICore.activechannels_all] *)
Definition activechannels_all (b : Agent.bot) (guilds : list Guild)
    (ctx_guild : option Guild) (guild_identifier : option string) : Agent.bot :=
  match target_of guilds ctx_guild guild_identifier with
  | None => b
  | Some guild =>
      with_guild_settings b (guild_ident guild) (Agent.GuildSettings (Some true) (Some []))
  end.

(** [AICore.activechannels_clear] *)
Definition activechannels_clear (b : Agent.bot) (guilds : list Guild)
    (ctx_guild : option Guild) (guild_identifier : option string) : Agent.bot :=
  match target_of guilds ctx_guild guild_identifier with
  | None => b
  | Some guild =>
      with_guild_settings b (guild_ident guild) (Agent.GuildSettings (Some false) (Some []))
  end.

End Resolution.

(** *** The summarization loop *)

(** The [for] loop of [summarize_memories_loop] over the rows read at its
    start; [service] is what the completion service does when asked to
    summarize a row. *)
Fixpoint summarize_rows (threshold : Z) (service : Store.memory_row -> completion)
    (fetched : list Store.memory_row) (rows : list Store.memory_row)
  : list Store.memory_row :=
  match fetched with
  | [] => rows
  | r :: rest =>
      let rows' :=
        if Z.of_nat (String.length (Store.notes r)) >? threshold then
          match service r with
          | Response (Some text) =>
              if truthy text
              then Store.set_user_notes rows (Store.user_id r) (strip text) (Store.guild_id r)
              else rows
          | Response None => rows
          | ServiceError => rows
          end
        else rows in
      summarize_rows threshold service rest rows'
  end.

(** [AICore.summarize_memories_loop], one tick with no other task running
    meanwhile; [configured] is
    [ai_settings.get("memory_summarization_threshold")]. *)
Definition summarize_memories_loop (configured : option Z)
    (service : Store.memory_row -> completion) (self : Agent.AICore) : Agent.AICore :=
  if negb (Agent.client self) then self else
  let threshold := default 1500 configured in
  Agent.set_memories
    (summarize_rows threshold service (Agent.memories self) (Agent.memories self)) self.

End Cog.

(** ** The profile manager ([src/cogs/profile_manager.py]) *)

Module ProfileManager.

(** The activity handed to [change_presence]. *)
Inductive activity :=
  | Game (name : string)
  | Watching (name : string)
  | Listening (name : string)
  | CustomActivity (name : string).

(** [ProfileManager.set_status]: the activity set, or [None] when the type
    is not one of the four and only an error is logged. *)
Definition set_status (status_type name : string) : option activity :=
  let status_type := lower status_type in
  if String.eqb status_type "playing" then Some (Game name)
  else if String.eqb status_type "watching" then Some (Watching name)
  else if String.eqb status_type "listening" then Some (Listening name)
  else if String.eqb status_type "custom" then Some (CustomActivity name)
  else None.

(** How [setstatus_command] ends: with the error reply, or with the reply
    that the status was updated, after [set_status] set [presence]. *)
Inductive setstatus_reply :=
  | InvalidType
  | StatusUpdated (presence : option activity).

(** [ProfileManager.setstatus_command] *)
Definition setstatus_command (status_type name : string) : setstatus_reply :=
  let valid_types := ["playing"; "watching"; "listening"; "custom"] in
  if negb (existsb (String.eqb (lower status_type)) valid_types) then InvalidType
  else StatusUpdated (set_status status_type name).

(** The first line of [join_command]: [invite_code.split('/')[-1]]. *)
Definition invite_code_of (invite_code : string) : string :=
  List.last (split "/" invite_code) "".

End ProfileManager.

(** ** More notions the statements use *)

(** The primary keys of the rows of [memories], in the order of the rows. *)
Definition keys (rows : list Store.memory_row) : list (Z * Z) :=
  List.map (fun r => (Store.user_id r, Store.guild_id r)) rows.

(** [append_user_memory] for each summary in turn, on one key. *)
Definition append_all (rows : list Store.memory_row) (uid gid : Z)
    (summaries : list string) : list Store.memory_row :=
  fold_left (fun rows summary => Store.append_user_memory rows uid summary gid)
    summaries rows.

(** A legacy row as the copy statement inserts it, when it has the three
    values [memories] requires. *)
Definition carried (r : Migration.legacy_row) : option Store.memory_row :=
  match Migration.old_user_id r, Migration.old_notes r,
        Migration.old_relationship_status r with
  | Some uid, Some n, Some rel =>
      Some (Store.MemoryRow uid 0 (Migration.old_user_name r) n rel)
  | _, _, _ => None
  end.

(** The rows of a legacy table as the copy statement inserts them, when
    every one of them can be. *)
Fixpoint carried_all (legacy : list Migration.legacy_row) : option (list Store.memory_row) :=
  match legacy with
  | [] => Some []
  | r :: rest =>
      match carried r, carried_all rest with
      | Some row, Some rows => Some (row :: rows)
      | _, _ => None
      end
  end.

(** What the summarization loop makes of one row: its notes replaced by the
    trimmed summary when they are longer than the threshold and the service
    returned a non-empty text, and the row as it is otherwise. *)
Definition summarized (threshold : Z) (service : Store.memory_row -> completion)
    (r : Store.memory_row) : Store.memory_row :=
  if Z.of_nat (String.length (Store.notes r)) >? threshold then
    match service r with
    | Response (Some text) => if truthy text then Store.with_notes (strip text) r else r
    | Response None => r
    | ServiceError => r
    end
  else r.

(** An entry of [on_message] carried over a change of the stealth flag. *)
Definition entry_with_stealth (on : bool) (e : Agent.entry) : Agent.entry :=
  match e with
  | Agent.Entered self' => Agent.Entered (Cog.set_stealth on self')
  | Agent.Returned => Agent.Returned
  | Agent.Raised x => Agent.Raised x
  end.

(** [s] holds only characters that [strip] removes. *)
Fixpoint blank (s : string) : bool :=
  match s with
  | EmptyString => true
  | String c s' => is_space c && blank s'
  end.

(** Where a payload ends: at the end of the text or where the next marker,
    of either kind, starts. *)
Definition ends_payload (rest : string) : Prop :=
  rest = "" \/ startswith rest Agent.MEMORIZE = true
  \/ startswith rest Agent.RELATIONSHIP = true.

(** [payload] is the trimmed text of [full] between the first occurrence of
    [marker] and the next occurrence of a marker, or the end. *)
Definition first_payload (marker full payload : string) : Prop :=
  exists before seg rest,
    full = before +:+ marker +:+ seg +:+ rest
    /\ contains marker before = false
    /\ marker_free seg
    /\ ends_payload rest
    /\ payload = strip seg.

(** The record of a reaction as [autonomous_reaction_loop] makes it: the
    guard of lines 646-647 ([continue] when the id is in the log) and
    behind it the insert of line 656. *)
Definition record (log : list Store.reacted_row) (message_id now : Z)
  : result (list Store.reacted_row) :=
  if Store.has_reacted log message_id then Ok log
  else Store.record_reaction log message_id now.

(** * Properties *)

(** ** Python strings *)

Section StringFacts.

Implicit Types (s p sep l r : string) (c : ascii).

Lemma append_nil_r s : s +:+ "" = s.
Proof. induction s as [|c s IH]; [reflexivity|]. change (String c (s +:+ "") = String c s). now rewrite IH. Qed.

Lemma append_cons c s r : String c s +:+ r = String c (s +:+ r).
Proof. reflexivity. Qed.

Lemma append_assoc l s r : (l +:+ s) +:+ r = l +:+ s +:+ r.
Proof.
  induction l as [|c l IH]; [reflexivity|].
  rewrite !append_cons. now rewrite IH.
Qed.

Lemma length_append l r : String.length (l +:+ r) = (String.length l + String.length r)%nat.
Proof. induction l as [|c l IH]; [reflexivity|]. rewrite append_cons. simpl. now rewrite IH. Qed.

Lemma startswith_append p r : startswith (p +:+ r) p = true.
Proof.
  induction p as [|c p IH]; [reflexivity|].
  rewrite append_cons. simpl. now rewrite Ascii.eqb_refl.
Qed.

Lemma startswith_inv s p : startswith s p = true -> s = p +:+ drop (String.length p) s.
Proof.
  revert s. induction p as [|c p IH]; intros s H; [reflexivity|].
  destruct s as [|d s]; [discriminate|]. simpl in H.
  destruct (Ascii.eqb_spec c d) as [->|]; [|discriminate].
  rewrite append_cons. simpl. f_equal. now apply IH.
Qed.

Lemma drop_append p r : drop (String.length p) (p +:+ r) = r.
Proof. induction p as [|c p IH]; [reflexivity|]. now rewrite append_cons. Qed.

Lemma startswith_longer s p r : startswith s p = true -> startswith (s +:+ r) p = true.
Proof.
  intros H. rewrite (startswith_inv _ _ H), append_assoc. apply startswith_append.
Qed.

Lemma startswith_nil_l sep : sep <> "" -> startswith "" sep = false.
Proof. now destruct sep. Qed.

(** [cut] splits at an occurrence, and no occurrence lies before it. *)
Lemma cut_Some sep s l r :
  sep <> "" -> cut sep s = Some (l, r) -> s = l +:+ sep +:+ r /\ cut sep l = None.
Proof.
  intros Hsep. revert l r. induction s as [|c s IH]; intros l r H.
  - simpl in H. now rewrite startswith_nil_l in H.
  - simpl in H. destruct (startswith (String c s) sep) eqn:E.
    + inversion H; subst. split.
      * now apply startswith_inv.
      * simpl. now rewrite startswith_nil_l.
    + destruct (cut sep s) as [[l' r']|] eqn:E'; [|discriminate].
      inversion H; subst. destruct (IH _ _ eq_refl) as [-> Hl]. split; [reflexivity|].
      simpl. rewrite Hl.
      destruct (startswith (String c l') sep) eqn:E2; [|reflexivity].
      apply (startswith_longer _ _ (sep +:+ r)) in E2.
      rewrite append_cons in E2. congruence.
Qed.

Lemma cut_unfold sep s :
  cut sep s =
    if startswith s sep then Some ("", drop (String.length sep) s)
    else match s with
         | "" => None
         | String c s' =>
             match cut sep s' with Some (a, b) => Some (String c a, b) | None => None end
         end.
Proof. now destruct s. Qed.

Lemma cut_append sep l r : exists l' r', cut sep (l +:+ sep +:+ r) = Some (l', r').
Proof.
  induction l as [|c l IH].
  - change ("" +:+ sep +:+ r) with (sep +:+ r).
    rewrite cut_unfold, startswith_append. eauto.
  - rewrite append_cons. simpl. destruct (startswith _ sep); [eauto|].
    destruct IH as (l' & r' & ->). eauto.
Qed.

(** [sep in s] says that [s] has [sep] as a substring. *)
Lemma contains_spec sep s : sep <> "" -> contains sep s = true <-> has_substring sep s.
Proof.
  intros Hsep. unfold contains, has_substring. split.
  - destruct (cut sep s) as [[l r]|] eqn:E; [|discriminate].
    intros _. exists l, r. now apply cut_Some in E as [? _].
  - intros (l & r & ->). now destruct (cut_append sep l r) as (? & ? & ->).
Qed.

Lemma contains_false sep s :
  sep <> "" -> contains sep s = false <-> ~ has_substring sep s.
Proof.
  intros Hsep. rewrite <- contains_spec by assumption.
  destruct (contains sep s); split; congruence.
Qed.

(** A text without [sep] has no part with [sep]. *)
Lemma contains_part sep l s r :
  sep <> "" -> contains sep (l +:+ s +:+ r) = false -> contains sep s = false.
Proof.
  intros Hsep. rewrite !contains_false by assumption.
  intros H (a & b & ->). apply H. exists (l +:+ a), (b +:+ r).
  now rewrite !append_assoc.
Qed.

Lemma contains_prefix sep l r :
  sep <> "" -> contains sep (l +:+ r) = false -> contains sep l = false.
Proof.
  intros Hsep H. apply (contains_part sep "" l r Hsep H).
Qed.

Lemma contains_suffix sep l r :
  sep <> "" -> contains sep (l +:+ r) = false -> contains sep r = false.
Proof.
  intros Hsep H. apply (contains_part sep l r "" Hsep). now rewrite append_nil_r.
Qed.

Lemma cut_None_contains sep s : cut sep s = None <-> contains sep s = false.
Proof. unfold contains. destruct (cut sep s); split; congruence. Qed.

(** *** [split] *)

Lemma cut_shorter sep s l r :
  sep <> "" -> cut sep s = Some (l, r) -> (String.length r < String.length s)%nat.
Proof.
  intros Hsep H. apply cut_Some in H as [-> _]; [|assumption].
  rewrite !length_append. destruct sep; [congruence|]. simpl. lia.
Qed.

Lemma cut_nil sep : sep <> "" -> cut sep "" = None.
Proof. intros H. simpl. now rewrite startswith_nil_l. Qed.

(** Any number of rounds from [length s] on gives the same list. *)
Lemma split_rounds_enough sep n s :
  sep <> "" -> (String.length s <= n)%nat -> split_rounds n sep s = split sep s.
Proof.
  intros Hsep. unfold split.
  assert (G : forall n m s, (String.length s <= n)%nat -> (String.length s <= m)%nat ->
              split_rounds n sep s = split_rounds m sep s).
  { clear n s. induction n as [|n IH]; intros m s Hn Hm.
    - destruct s; [|simpl in Hn; lia]. destruct m; [reflexivity|].
      simpl. now rewrite startswith_nil_l.
    - destruct m as [|m].
      + destruct s; [|simpl in Hm; lia]. simpl. now rewrite startswith_nil_l.
      + cbn [split_rounds]. destruct (cut sep s) as [[l r]|] eqn:E; [|reflexivity].
        f_equal. pose proof (cut_shorter _ _ _ _ Hsep E). apply IH; lia. }
  intros H. now apply G.
Qed.

Lemma split_unfold sep s :
  sep <> "" ->
  split sep s = match cut sep s with
                | None => [s]
                | Some (l, r) => l :: split sep r
                end.
Proof.
  intros Hsep. unfold split at 1. destruct s as [|c s].
  - now rewrite cut_nil.
  - cbn [String.length split_rounds].
    destruct (cut sep (String c s)) as [[l r]|] eqn:E; [|reflexivity].
    f_equal. apply split_rounds_enough; [assumption|].
    pose proof (cut_shorter _ _ _ _ Hsep E) as H. simpl in H. lia.
Qed.

(** [s.split(sep)[0]] *)
Lemma split_item_0 sep s :
  sep <> "" ->
  item (split sep s) 0 = Ok (match cut sep s with Some (l, _) => l | None => s end).
Proof.
  intros Hsep. rewrite split_unfold by assumption. now destruct (cut sep s) as [[l r]|].
Qed.

(** [s.split(sep)[1]] *)
Lemma split_item_1 sep s :
  sep <> "" ->
  item (split sep s) 1 =
    match cut sep s with
    | Some (_, r) => Ok (match cut sep r with Some (l, _) => l | None => r end)
    | None => Raise IndexError
    end.
Proof.
  intros Hsep. rewrite split_unfold by assumption.
  destruct (cut sep s) as [[l r]|]; [|reflexivity].
  change (item (l :: split sep r) 1) with (item (split sep r) 0).
  now apply split_item_0.
Qed.

(** With an occurrence-free text in front and [sep] starting with a
    character it does not repeat, the first occurrence is the one written. *)
Lemma startswith_straddle c l r p :
  occurs c p = false -> startswith (l +:+ String c r) p = true -> startswith l p = true.
Proof.
  revert l. induction p as [|d p IH]; intros l Hc H; [reflexivity|].
  simpl in Hc. apply orb_false_iff in Hc as [Hcd Hp].
  destruct l as [|e l].
  - change ("" +:+ String c r) with (String c r) in H. simpl in H.
    rewrite Ascii.eqb_sym, Hcd in H. discriminate.
  - rewrite append_cons in H. simpl in *. destruct (Ascii.eqb d e); [|discriminate].
    now apply IH.
Qed.

Lemma cut_first c sep' l r :
  occurs c sep' = false -> contains (String c sep') l = false ->
  cut (String c sep') (l +:+ String c sep' +:+ r) = Some (l, r).
Proof.
  intros Hc. set (sep := String c sep'). assert (Hsep : sep <> "") by discriminate.
  induction l as [|e l IH]; intros Hl.
  - change ("" +:+ sep +:+ r) with (sep +:+ r).
    now rewrite cut_unfold, startswith_append, drop_append.
  - rewrite append_cons, cut_unfold.
    destruct (startswith (String e (l +:+ sep +:+ r)) sep) eqn:E.
    + exfalso. unfold sep in E. simpl in E.
      destruct (Ascii.eqb_spec c e) as [<-|]; [|discriminate].
      rewrite append_cons in E. apply startswith_straddle in E; [|assumption].
      apply cut_None_contains in Hl. rewrite cut_unfold in Hl.
      unfold sep in Hl. simpl in Hl. now rewrite Ascii.eqb_refl, E in Hl.
    + rewrite IH; [reflexivity|].
      apply (contains_suffix sep (String e "") l Hsep Hl).
Qed.

(** *** [strip] *)

Lemma lstrip_suffix s : exists l, s = l +:+ lstrip s.
Proof.
  induction s as [|c s [l IH]]; [now exists ""|].
  simpl. destruct (is_space c); [|now exists ""].
  exists (String c l). now rewrite append_cons, <- IH.
Qed.

Lemma rstrip_prefix s : exists r, s = rstrip s +:+ r.
Proof.
  induction s as [|c s [r IH]]; [now exists ""|].
  simpl. destruct (rstrip s) as [|d t] eqn:E.
  - destruct (is_space c).
    + now exists (String c s).
    + exists s. reflexivity.
  - exists r. now rewrite append_cons, <- IH.
Qed.

Lemma strip_part s : exists l r, s = l +:+ strip s +:+ r.
Proof.
  unfold strip. destruct (lstrip_suffix s) as [l Hl].
  destruct (rstrip_prefix (lstrip s)) as [r Hr].
  exists l, r. now rewrite <- Hr.
Qed.

Lemma contains_strip sep s :
  sep <> "" -> contains sep s = false -> contains sep (strip s) = false.
Proof.
  intros Hsep H. destruct (strip_part s) as (l & r & E). rewrite E in H.
  now apply contains_part in H.
Qed.

Lemma lstrip_append c l r :
  is_space c = false -> lstrip (l +:+ String c r) = lstrip l +:+ String c r.
Proof.
  intros Hc. induction l as [|d l IH].
  - change ("" +:+ String c r) with (String c r). simpl. now rewrite Hc.
  - rewrite append_cons. simpl. destruct (is_space d); [assumption|reflexivity].
Qed.

Lemma rstrip_cons c r : is_space c = false -> rstrip (String c r) = String c (rstrip r).
Proof. intros Hc. simpl. rewrite Hc. now destruct (rstrip r). Qed.

Lemma rstrip_append c l r :
  is_space c = false -> rstrip (l +:+ String c r) = l +:+ String c (rstrip r).
Proof.
  intros Hc. induction l as [|d l IH].
  - now apply rstrip_cons.
  - rewrite !append_cons. simpl. rewrite IH.
    now destruct l.
Qed.

Lemma lstrip_idem s : lstrip (lstrip s) = lstrip s.
Proof.
  induction s as [|c s IH]; [reflexivity|].
  simpl. destruct (is_space c) eqn:E; [assumption|]. simpl. now rewrite E.
Qed.

Lemma strip_lstrip s : strip (lstrip s) = strip s.
Proof. unfold strip. now rewrite lstrip_idem. Qed.

(** *** [lower] *)

Lemma lower_split s l r :
  lower s = l +:+ r -> exists l' r', s = l' +:+ r' /\ lower l' = l /\ lower r' = r.
Proof.
  revert s. induction l as [|c l IH]; intros s H.
  - exists "", s. auto.
  - destruct s as [|d s]; [discriminate|].
    rewrite append_cons in H. simpl in H. injection H as Hd Hs.
    destruct (IH _ Hs) as (l' & r' & -> & Hl & Hr).
    exists (String d l'), r'. simpl. now rewrite Hd, Hl.
Qed.

Lemma lower_append l r : lower (l +:+ r) = lower l +:+ lower r.
Proof.
  induction l as [|c l IH]; [reflexivity|].
  rewrite append_cons. simpl. now rewrite IH.
Qed.

Lemma lower_char_is c d :
  occurs d "yes" = true ->
  lower_char c = d <-> c = d \/ c = ascii_of_N (N_of_ascii d - 32).
Proof.
  intros Hd. simpl in Hd.
  assert (d = "y" \/ d = "e" \/ d = "s")%char as [->|[->| ->]].
  { destruct (Ascii.eqb_spec d "y"); [auto|]. destruct (Ascii.eqb_spec d "e"); [auto|].
    destruct (Ascii.eqb_spec d "s"); [auto|discriminate]. }
  all: destruct c as [[] [] [] [] [] [] [] []]; vm_compute;
    (split; [ intros H; first [ discriminate H | now left | now right ]
            | intros [H|H]; first [ discriminate H | reflexivity ] ]).
Qed.

End StringFacts.

(** ** The engagement classifier *)

Section Classifier.
Import Agent.

Lemma contains_yes_lower s : contains "yes" (lower s) = true <-> says_yes s.
Proof.
  rewrite contains_spec by discriminate. unfold has_substring, says_yes. split.
  - intros (l & r & H).
    apply lower_split in H as (l' & t & -> & _ & H).
    destruct t as [|a [|b [|c r']]]; try discriminate.
    change ("yes" +:+ r) with (String "y" (String "e" (String "s" r))) in H.
    simpl in H. injection H as Ha Hb Hc _.
    apply lower_char_is in Ha, Hb, Hc; try reflexivity.
    exists l', a, b, c, r'. auto.
  - intros (l & a & b & c & r & -> & Ha & Hb & Hc).
    exists (lower l), (lower r). rewrite lower_append. f_equal. simpl.
    assert (lower_char a = "y"%char) as -> by (apply lower_char_is; [reflexivity|exact Ha]).
    assert (lower_char b = "e"%char) as -> by (apply lower_char_is; [reflexivity|exact Hb]).
    assert (lower_char c = "s"%char) as -> by (apply lower_char_is; [reflexivity|exact Hc]).
    reflexivity.
Qed.

(** C7. The classifier answers true exactly when there is a client, the
    service returned a text, and that text, trimmed, holds the word yes in
    some mix of cases; it answers false whenever the service call raises. *)
Theorem should_respond_iff_yes (self : AICore) (r : completion) :
  (_should_respond_to_message self r = true <->
     client self = true /\ exists text, r = Response (Some text) /\ says_yes (strip text))
  /\ _should_respond_to_message self ServiceError = false.
Proof.
  unfold _should_respond_to_message. split.
  - destruct (client self); simpl.
    + destruct r as [|[text|]].
      * split; [discriminate|]. now intros (_ & t & ? & _).
      * rewrite contains_yes_lower. split.
        -- intros H. split; [reflexivity|]. now exists text.
        -- now intros (_ & t & [= <-] & H).
      * split; [discriminate|]. now intros (_ & t & ? & _).
    + split; [discriminate|]. now intros [? _].
  - now destruct (client self).
Qed.

End Classifier.

(** ** The response parser *)

Section Parser.
Import Agent.

Implicit Types (s l r text full reply : string).

Lemma memorize_block_directive full reply :
  memorize_block full reply = directive_block MEMORIZE RELATIONSHIP full reply.
Proof. reflexivity. Qed.

Lemma relationship_block_directive full reply :
  relationship_block full reply = directive_block RELATIONSHIP MEMORIZE full reply.
Proof. reflexivity. Qed.

(** The element of a split list before the first separator has no
    separator, and is the front of the text. *)
Lemma cut_front sep s :
  sep <> "" ->
  let front := match cut sep s with Some (l, _) => l | None => s end in
  contains sep front = false /\ exists r, s = front +:+ r.
Proof.
  intros Hsep. destruct (cut sep s) as [[l r]|] eqn:E; simpl.
  - apply cut_Some in E as [-> E]; [|assumption]. split.
    + now apply cut_None_contains.
    + eauto.
  - split; [now apply cut_None_contains|]. exists "". now rewrite append_nil_r.
Qed.

(** What a block that ran gives back, in terms of [cut]. *)
Lemma directive_block_ran marker other full reply :
  marker <> "" -> other <> "" -> contains marker full = true ->
  directive_block marker other full reply =
    match cut marker reply with
    | None => Raise IndexError
    | Some (p0, rest) =>
        let p1 := match cut marker rest with Some (l, _) => l | None => rest end in
        let q0 := match cut other p1 with Some (l, _) => l | None => p1 end in
        Ok (strip p0, Some (strip q0))
    end.
Proof.
  intros Hm Ho Hin. unfold directive_block. rewrite Hin.
  rewrite split_item_0, split_item_1 by assumption.
  destruct (cut marker reply) as [[p0 rest]|]; [|reflexivity].
  simpl. now rewrite split_item_0.
Qed.

Lemma directive_block_skipped marker other full reply :
  contains marker full = false ->
  directive_block marker other full reply = Ok (reply, None).
Proof. intros H. unfold directive_block. now rewrite H. Qed.

(** A block leaves a part of the reply it was given; after a block that
    ran the reply has no [marker]; a payload has neither marker. *)
Lemma directive_block_fields marker other full reply reply' pay :
  marker <> "" -> other <> "" ->
  directive_block marker other full reply = Ok (reply', pay) ->
  (forall sep, sep <> "" -> contains sep reply = false -> contains sep reply' = false)
  /\ (contains marker full = true -> contains marker reply' = false)
  /\ (contains marker full = false -> reply' = reply /\ pay = None)
  /\ (forall s, pay = Some s -> contains marker s = false /\ contains other s = false).
Proof.
  intros Hm Ho H. destruct (contains marker full) eqn:Hin.
  - rewrite directive_block_ran in H by assumption.
    destruct (cut marker reply) as [[p0 rest]|] eqn:E; [|discriminate].
    apply cut_Some in E as [-> Hp0]; [|assumption].
    apply cut_None_contains in Hp0.
    simpl in H. injection H as <- <-.
    destruct (cut_front marker rest Hm) as [Hp1 [r1 Hr1]].
    set (p1 := match cut marker rest with Some (l, _) => l | None => rest end) in *.
    destruct (cut_front other p1 Ho) as [Hq0 [r2 Hr2]].
    set (q0 := match cut other p1 with Some (l, _) => l | None => p1 end) in *.
    split; [|split; [|split]].
    + intros sep Hsep Hs. apply contains_strip; [assumption|].
      now apply contains_prefix in Hs.
    + intros _. now apply contains_strip.
    + discriminate.
    + intros s [= <-]. split.
      * apply contains_strip; [assumption|].
        rewrite Hr2 in Hp1. now apply contains_prefix in Hp1.
      * now apply contains_strip.
  - rewrite directive_block_skipped in H by assumption. injection H as <- <-.
    split; [auto|split; [discriminate|split; [auto|discriminate]]].
Qed.

Lemma MEMORIZE_nonempty : MEMORIZE <> "".
Proof. discriminate. Qed.

Lemma RELATIONSHIP_nonempty : RELATIONSHIP <> "".
Proof. discriminate. Qed.

(** No field the parser extracts holds a marker. *)
Lemma parse_response_marker_free text d :
  parse_response text = Ok d ->
  marker_free (reply_text d)
  /\ (forall s, memory_summary d = Some s -> marker_free s)
  /\ (forall s, new_relationship d = Some s -> marker_free s).
Proof.
  unfold parse_response. set (full := strip text).
  rewrite memorize_block_directive.
  destruct (directive_block MEMORIZE RELATIONSHIP full full) as [[reply1 mem]|] eqn:E1;
    [|discriminate].
  simpl. rewrite relationship_block_directive.
  destruct (directive_block RELATIONSHIP MEMORIZE full reply1) as [[reply2 rel]|] eqn:E2;
    [|discriminate].
  simpl. intros [= <-]. simpl.
  pose proof MEMORIZE_nonempty as HM. pose proof RELATIONSHIP_nonempty as HR.
  destruct (directive_block_fields _ _ _ _ _ _ HM HR E1) as (P1 & A1 & S1 & F1).
  destruct (directive_block_fields _ _ _ _ _ _ HR HM E2) as (P2 & A2 & S2 & F2).
  assert (M1 : contains MEMORIZE reply1 = false).
  { destruct (contains MEMORIZE full) eqn:Hin; [now apply A1|].
    now destruct (S1 eq_refl) as [-> _]. }
  split; [split|split; intros s Hs].
  - now apply P2.
  - destruct (contains RELATIONSHIP full) eqn:Hin; [now apply A2|].
    destruct (S2 eq_refl) as [-> _]. now apply P1.
  - split; now apply F1.
  - split; now apply F2.
Qed.

Lemma strip_marked c d l m r :
  is_space c = false -> is_space d = false ->
  strip (l +:+ String c (m +:+ String d r))
  = lstrip l +:+ String c (m +:+ String d (rstrip r)).
Proof.
  intros Hc Hd. unfold strip. rewrite lstrip_append by assumption.
  replace (lstrip l +:+ String c (m +:+ String d r))
    with ((lstrip l +:+ String c m) +:+ String d r)
    by (now rewrite append_assoc).
  rewrite rstrip_append by assumption. now rewrite append_assoc.
Qed.

(** Trimming a text with a marker written twice trims its two ends. *)
Lemma strip_between c mid d l a r :
  is_space c = false -> is_space d = false ->
  let marker := String c (mid +:+ String d "") in
  strip (l +:+ marker +:+ a +:+ marker +:+ r)
  = lstrip l +:+ marker +:+ a +:+ marker +:+ rstrip r.
Proof.
  intros Hc Hd marker.
  assert (E : forall x, marker +:+ a +:+ marker +:+ x
              = String c ((mid +:+ String d "" +:+ a +:+ String c mid) +:+ String d x)).
  { intros x. unfold marker.
    repeat (rewrite append_assoc || rewrite append_cons). reflexivity. }
  now rewrite !E, strip_marked.
Qed.

(** A block on a text where its marker is written twice: the reply is the
    text before the first, the payload the text between the two. *)
Lemma directive_block_repeated c sep' other l a r :
  let marker := String c sep' in
  let full := l +:+ marker +:+ a +:+ marker +:+ r in
  occurs c sep' = false -> other <> "" ->
  contains marker l = false -> contains marker a = false -> contains other a = false ->
  directive_block marker other full full = Ok (strip l, Some (strip a)).
Proof.
  intros marker full Hc Ho Hl Ha Hoa.
  assert (Hm : marker <> "") by discriminate.
  rewrite directive_block_ran; [|assumption..|].
  - unfold full, marker. rewrite cut_first by assumption.
    rewrite cut_first by assumption.
    apply cut_None_contains in Hoa. now rewrite Hoa.
  - apply contains_spec; [assumption|]. now exists l, (a +:+ marker +:+ r).
Qed.

Lemma contains_lstrip sep s : sep <> "" -> contains sep s = false -> contains sep (lstrip s) = false.
Proof.
  intros Hsep H. destruct (lstrip_suffix s) as [l E]. rewrite E in H.
  now apply contains_suffix in H.
Qed.

(** The parser on a text where [marker] is written twice and [other] not
    at all, with [block] the block of [marker]. *)
Lemma repeated_marker_trimmed c mid d other pre a rest :
  is_space c = false -> is_space d = false ->
  let marker := String c (mid +:+ String d "") in
  let text := pre +:+ marker +:+ a +:+ marker +:+ rest in
  occurs c (mid +:+ String d "") = false -> other <> "" ->
  contains marker pre = false -> contains marker a = false ->
  contains other text = false ->
  directive_block marker other (strip text) (strip text) = Ok (strip pre, Some (strip a))
  /\ contains other (strip text) = false
  /\ contains marker (strip pre) = false.
Proof.
  intros Hc Hd marker text Hocc Ho Hpre Ha Hother.
  assert (Hm : marker <> "") by discriminate.
  split; [|split].
  - pose proof (strip_between c mid d pre a rest Hc Hd) as E.
    cbv zeta in E. fold marker in E. unfold text. rewrite E.
    rewrite <- (strip_lstrip pre).
    apply (directive_block_repeated c (mid +:+ String d "") other); try assumption.
    + now apply contains_lstrip.
    + unfold text in Hother. apply contains_suffix in Hother; [|assumption].
      apply contains_suffix in Hother; [|assumption].
      now apply contains_prefix in Hother.
  - now apply contains_strip.
  - now apply contains_strip.
Qed.

(** C5, as stated, fails: with the memorize marker written twice the
    payload stops at the second occurrence instead of running over it. *)
Lemma duplicate_marker_counterexample :
  parse_response "hi [MEMORIZE] tea [MEMORIZE] and more"
  = Ok (Directives "hi" (Some "tea") None)
  /\ Some "tea" <> Some "tea [MEMORIZE] and more".
Proof. split; [reflexivity|discriminate]. Qed.

Lemma parse_response_no_marker text :
  marker_free text -> parse_response text = Ok (Directives (strip text) None None).
Proof.
  intros [HM HR]. unfold parse_response.
  rewrite memorize_block_directive, directive_block_skipped
    by (apply contains_strip; [discriminate|assumption]).
  simpl. rewrite relationship_block_directive, directive_block_skipped
    by (apply contains_strip; [discriminate|assumption]).
  reflexivity.
Qed.

End Parser.

(** ** The memory store *)

Section StoreFacts.
Import Store.

Implicit Types (rows : list memory_row) (uid gid : Z) (s n rel : string).

Lemma find_existsb (p : memory_row -> bool) rows :
  existsb p rows = match List.find p rows with Some _ => true | None => false end.
Proof. induction rows as [|r rows IH]; [reflexivity|]. simpl. now destruct (p r). Qed.

(** An [UPDATE] whose [WHERE] matches no row changes no row. *)
Lemma update_where_no_match p f rows :
  List.find p rows = None -> update_where p f rows = rows.
Proof.
  unfold update_where. induction rows as [|r rows IH]; [reflexivity|].
  simpl. destruct (p r); [discriminate|]. intros H. now rewrite IH.
Qed.

(** An [UPDATE] that keeps the key shows in the row the [SELECT] finds. *)
Lemma find_update_where p f rows :
  (forall r, p (f r) = p r) ->
  List.find p (update_where p f rows) = option_map f (List.find p rows).
Proof.
  intros Hf. unfold update_where. induction rows as [|r rows IH]; [reflexivity|].
  simpl. destruct (p r) eqn:E.
  - now rewrite Hf, E.
  - now rewrite E.
Qed.

Lemma select_profile_None uid gid rows :
  select_profile uid gid rows = None <-> List.find (has_key uid gid) rows = None.
Proof. unfold select_profile. destruct (List.find _ rows); split; congruence. Qed.

(** [get_user_profile] on a key that has a row returns that row's fields
    and leaves the table as it is. *)
Lemma get_user_profile_present rows uid name gid n rel :
  select_profile uid gid rows = Some (n, rel) ->
  get_user_profile rows uid name gid = (rows, (n, rel)).
Proof.
  intros H. unfold get_user_profile.
  assert (E : insert_or_ignore (MemoryRow uid gid (Some name) placeholder "neutral") rows
              = rows).
  { unfold insert_or_ignore. simpl. rewrite find_existsb.
    unfold select_profile in H.
    now destruct (List.find (has_key uid gid) rows). }
  now rewrite E, H.
Qed.

Lemma select_after_set_notes rows uid gid s n rel :
  select_profile uid gid rows = Some (n, rel) ->
  select_profile uid gid (set_user_notes rows uid s gid) = Some (s, rel).
Proof.
  unfold select_profile, set_user_notes. rewrite find_update_where by reflexivity.
  destruct (List.find (has_key uid gid) rows) as [r|]; [|discriminate].
  simpl. now intros [= _ ->].
Qed.

Lemma find_app_last (p : memory_row -> bool) rows r :
  List.find p (rows ++ [r])
  = match List.find p rows with
    | Some x => Some x
    | None => if p r then Some r else None
    end.
Proof. induction rows as [|x rows IH]; [reflexivity|]. simpl. now destruct (p x). Qed.

(** An [UPDATE] does not show in the rows of other keys. *)
Lemma find_update_where_other (p q : memory_row -> bool) f rows :
  (forall r, q (f r) = q r) -> (forall r, q r = true -> p r = false) ->
  List.find q (update_where p f rows) = List.find q rows.
Proof.
  intros Hf Hpq. unfold update_where. induction rows as [|r rows IH]; [reflexivity|].
  simpl. destruct (p r) eqn:Ep.
  - rewrite Hf. destruct (q r) eqn:Eq; [|exact IH]. rewrite (Hpq r Eq) in Ep. discriminate.
  - now rewrite IH.
Qed.

Lemma has_key_other uid gid uid' gid' r :
  (uid', gid') <> (uid, gid) -> has_key uid' gid' r = true -> has_key uid gid r = false.
Proof.
  unfold has_key. intros Hne H. apply andb_true_iff in H as [Hu Hg].
  apply Z.eqb_eq in Hu, Hg. apply andb_false_iff.
  destruct (Z.eqb_spec (user_id r) uid); [|now left].
  destruct (Z.eqb_spec (guild_id r) gid); [|now right]. congruence.
Qed.

(** [get_user_profile] on a key without a row adds the default row. *)
Lemma get_user_profile_absent rows uid name gid :
  select_profile uid gid rows = None ->
  get_user_profile rows uid name gid
  = (rows ++ [MemoryRow uid gid (Some name) placeholder "neutral"], (placeholder, "neutral"))
  /\ select_profile uid gid (rows ++ [MemoryRow uid gid (Some name) placeholder "neutral"])
     = Some (placeholder, "neutral").
Proof.
  intros H. apply select_profile_None in H.
  assert (E : select_profile uid gid
                (rows ++ [MemoryRow uid gid (Some name) placeholder "neutral"])
              = Some (placeholder, "neutral")).
  { unfold select_profile. rewrite find_app_last, H.
    unfold has_key. simpl. now rewrite !Z.eqb_refl. }
  split; [|exact E].
  unfold get_user_profile, insert_or_ignore. simpl. rewrite find_existsb, H.
  now rewrite E.
Qed.

(** On a key without a record, [append_user_memory] makes the record, with
    the bullet as its notes. *)
Lemma append_user_memory_fresh rows uid gid summary :
  select_profile uid gid rows = None ->
  select_profile uid gid (append_user_memory rows uid summary gid)
  = Some ("- " +:+ summary, "neutral").
Proof.
  intros H. unfold append_user_memory.
  destruct (get_user_profile_absent rows uid "Unknown" gid H) as [-> E].
  change (contains placeholder placeholder) with true. cbv iota.
  now apply select_after_set_notes with (n := placeholder).
Qed.

(** [append_user_memory] leaves the records of other keys as they are. *)
Lemma append_user_memory_other rows uid gid summary uid' gid' :
  (uid', gid') <> (uid, gid) ->
  select_profile uid' gid' (append_user_memory rows uid summary gid)
  = select_profile uid' gid' rows.
Proof.
  intros Hne. unfold append_user_memory, get_user_profile.
  destruct (select_profile uid gid (insert_or_ignore _ rows)) as [[n rel]|];
    unfold select_profile, set_user_notes;
    (rewrite find_update_where_other;
       [|reflexivity|intros r; now apply has_key_other]);
    unfold insert_or_ignore; simpl;
    (destruct (existsb _ rows); [reflexivity|]);
    rewrite find_app_last;
    (destruct (List.find (has_key uid' gid') rows); [reflexivity|]);
    (destruct (has_key uid' gid' _) eqn:E; [|reflexivity]);
    apply (has_key_other uid gid) in E; try assumption;
    unfold has_key in E; simpl in E; now rewrite !Z.eqb_refl in E.
Qed.

(** *** Lines *)

Lemma split_char_cons x c s :
  split (String x "") (String c s) =
    if Ascii.eqb x c then "" :: split (String x "") s
    else match split (String x "") s with
         | h :: t => String c h :: t
         | [] => []
         end.
Proof.
  rewrite (split_unfold _ (String c s)) by discriminate.
  simpl. destruct (Ascii.eqb x c); [reflexivity|].
  rewrite (split_unfold _ s) by discriminate.
  now destruct (cut (String x "") s) as [[a b]|].
Qed.

Lemma split_char_append x a b :
  split (String x "") (a +:+ String x "" +:+ b)
  = split (String x "") a ++ split (String x "") b.
Proof.
  induction a as [|c a IH].
  - change ("" +:+ String x "" +:+ b) with (String x b).
    now rewrite split_char_cons, Ascii.eqb_refl.
  - rewrite append_cons, !split_char_cons, IH.
    destruct (Ascii.eqb x c); [reflexivity|].
    rewrite (split_unfold _ a) by discriminate.
    now destruct (cut (String x "") a) as [[h t]|].
Qed.

Lemma split_absent sep s : sep <> "" -> contains sep s = false -> split sep s = [s].
Proof.
  intros Hsep H. rewrite split_unfold by assumption.
  apply cut_None_contains in H. now rewrite H.
Qed.

Lemma contains_after_char sep c d s :
  Ascii.eqb c d = false -> contains (String c sep) (String d s) = contains (String c sep) s.
Proof.
  intros H. unfold contains. simpl. rewrite H.
  now destruct (cut (String c sep) s) as [[a b]|].
Qed.

(** The lines of a text with one more bullet. *)
Lemma lines_with_bullet n s :
  contains nl s = false ->
  lines (n +:+ nl +:+ "- " +:+ s) = lines n ++ ["- " +:+ s].
Proof.
  intros H. unfold lines, nl. rewrite split_char_append. f_equal.
  apply split_absent; [discriminate|].
  change ("- " +:+ s) with (String "-" (String " " s)).
  now rewrite !contains_after_char.
Qed.

(** C2 (as amended). On a key that has a record, [append_user_memory]
    replaces the notes by the one bullet when they hold the placeholder
    anywhere (so also when they are the placeholder), and otherwise keeps
    them and adds a line feed and the bullet; with a summary of one line,
    the lines of the old notes stay, in order, and one line comes last. *)
Theorem append_user_memory_notes rows uid gid summary n rel :
  select_profile uid gid rows = Some (n, rel) ->
  select_profile uid gid (append_user_memory rows uid summary gid)
  = Some (if contains placeholder n then "- " +:+ summary
          else n +:+ nl +:+ "- " +:+ summary, rel)
  /\ (n = placeholder ->
      select_profile uid gid (append_user_memory rows uid summary gid)
      = Some ("- " +:+ summary, rel))
  /\ (contains nl summary = false ->
      lines ("- " +:+ summary) = ["- " +:+ summary]
      /\ lines (n +:+ nl +:+ "- " +:+ summary) = lines n ++ ["- " +:+ summary]).
Proof.
  intros H.
  assert (E : select_profile uid gid (append_user_memory rows uid summary gid)
              = Some (if contains placeholder n then "- " +:+ summary
                      else n +:+ nl +:+ "- " +:+ summary, rel)).
  { unfold append_user_memory.
    rewrite (get_user_profile_present rows uid "Unknown" gid n rel H).
    now apply select_after_set_notes with (n := n). }
  split; [exact E|split].
  - intros ->. exact E.
  - intros Hs. split; [|now apply lines_with_bullet].
    unfold lines. apply split_absent; [discriminate|].
    change ("- " +:+ summary) with (String "-" (String " " summary)).
    unfold nl. now rewrite !contains_after_char.
Qed.

Lemma append_user_memory_notes_witness :
  select_profile 7 0
    (append_user_memory [MemoryRow 7 0 (Some "ann") "- likes tea" "friendly"] 7 "has a cat" 0)
  = Some ("- likes tea" +:+ nl +:+ "- has a cat", "friendly").
Proof.
  exact (proj1 (append_user_memory_notes
                  [MemoryRow 7 0 (Some "ann") "- likes tea" "friendly"] 7 0 "has a cat"
                  "- likes tea" "friendly" eq_refl)).
Defined.

(** C2, as stated, fails: notes that are not the placeholder but quote it
    are replaced, and their line is lost. *)
Lemma append_user_memory_counterexample :
  let rows := [MemoryRow 7 0 (Some "ann") "- once wrote: No memories yet." "friendly"] in
  select_profile 7 0 rows = Some ("- once wrote: No memories yet.", "friendly")
  /\ "- once wrote: No memories yet." <> placeholder
  /\ select_profile 7 0 (append_user_memory rows 7 "has a cat" 0)
     = Some ("- has a cat", "friendly")
  /\ lines "- has a cat" = ["- has a cat"].
Proof. repeat split; try reflexivity. discriminate. Qed.

(** C9. On a key without a record, [set_user_notes] and
    [set_user_relationship] leave the table as it is, and so does the clear
    command invoked for that user in that scope. *)
Theorem updates_without_record rows uid gid :
  select_profile uid gid rows = None ->
  (forall new_notes, set_user_notes rows uid new_notes gid = rows)
  /\ (forall status, set_user_relationship rows uid status gid = rows)
  /\ memory_clear rows (Some gid) uid = rows
  /\ (gid = 0 -> memory_clear rows None uid = rows).
Proof.
  intros H. apply select_profile_None in H.
  split; [|split; [|split]].
  - intros new_notes. now apply update_where_no_match.
  - intros status. now apply update_where_no_match.
  - now apply update_where_no_match.
  - intros ->. now apply update_where_no_match.
Qed.

Lemma updates_without_record_witness :
  memory_clear [MemoryRow 7 0 (Some "ann") "- likes tea" "friendly"] None 8
  = [MemoryRow 7 0 (Some "ann") "- likes tea" "friendly"].
Proof.
  exact (proj2 (proj2 (proj2 (updates_without_record
           [MemoryRow 7 0 (Some "ann") "- likes tea" "friendly"] 8 0 eq_refl))) eq_refl).
Defined.

(** *** The reaction log *)

Lemma has_reacted_app log message_id now :
  has_reacted (log ++ [(message_id, now)]) message_id = true.
Proof.
  unfold has_reacted. rewrite existsb_app. simpl.
  rewrite Z.eqb_refl. now rewrite orb_true_r.
Qed.

(** The scan records only ids the log does not hold, so its insert is never
    rejected. *)
Lemma scan_history_errors log now history e :
  snd (Agent.scan_history log now history) = Some e ->
  e = ExternalError \/ e = AttributeError.
Proof.
  induction history as [|m rest IH]; [discriminate|].
  simpl. destruct (has_reacted log (Agent.message_id m)) eqn:Hhas; [exact IH|].
  destruct (Agent.emoji m) as [|[text|]]; simpl.
  - intros [= <-]. now left.
  - destruct (truthy (strip text)); [|exact IH].
    destruct (Agent.reaction_added m).
    + unfold record_reaction. rewrite Hhas. discriminate.
    + intros [= <-]. now left.
  - intros [= <-]. now right.
Qed.

(** C8. Recording an id as the reaction loop does, the insert behind its
    guard, never fails and leaves the id in the log: [has_reacted] then
    answers true. Recording the same id again leaves the log exactly as the
    first record made it, and does not fail either. The scan of the loop
    records in this way: on a message that gets a non-empty emoji and whose
    reaction goes through it leaves the log [record] gives, without an
    exception, and a second scan of that message changes nothing. *)
Theorem record_twice_as_once log message_id now later :
  exists log1,
    record log message_id now = Ok log1
    /\ has_reacted log1 message_id = true
    /\ record log1 message_id later = Ok log1
    /\ (forall text,
          let m := Agent.Scanned message_id (Response (Some text)) true in
          truthy (strip text) = true ->
          Agent.scan_history log now [m]
          = (log1, (if has_reacted log message_id then None
                    else Some (message_id, strip text)), None)
          /\ Agent.scan_history log1 later [m] = (log1, None, None)).
Proof.
  unfold record, record_reaction.
  destruct (has_reacted log message_id) eqn:H.
  - exists log. rewrite H.
    split; [reflexivity|split; [reflexivity|split; [reflexivity|]]].
    intros text. cbv zeta. intros Htext.
    cbn [Agent.scan_history Agent.message_id]. now rewrite H.
  - exists (log ++ [(message_id, now)]). rewrite has_reacted_app.
    split; [reflexivity|split; [reflexivity|split; [reflexivity|]]].
    intros text. cbv zeta. intros Htext. split.
    + cbn [Agent.scan_history Agent.message_id Agent.emoji Agent.reaction_added].
      rewrite H. cbv zeta. rewrite Htext. unfold record_reaction. now rewrite H.
    + cbn [Agent.scan_history Agent.message_id]. now rewrite has_reacted_app.
Qed.

End StoreFacts.

(** ** The reactive path and the boredom counter *)

Section AgentFacts.
Import Agent.

Variable re_search_word : string -> string -> bool.

Implicit Types (b : bot) (self : AICore) (m : message) (fl : list message).

(** *** The parsing example *)

(** C6. The text whose memorize line comes before its relationship line
    makes the parser raise [IndexError]; [get_contextual_response] has then
    written the memory, and sends no reply and sets no relationship. With
    the relationship line first the three fields come out, and a text
    without markers is its own trimmed reply. *)
Theorem memorize_then_relationship_fails :
  parse_response memorize_first = Raise IndexError
  /\ parse_response relationship_first
     = Ok (Directives "Hello there" (Some "likes cats") (Some "friendly"))
  /\ (forall text, marker_free text ->
        parse_response text = Ok (Directives (strip text) None None))
  /\ get_contextual_response (Core true [] [] 3 ∅ false)
       (Message 7 false "ann" None 40 [] None "hey")
       (Response (Some memorize_first)) true
     = (Core true [Store.MemoryRow 7 0 (Some "ann") "- likes cats" "neutral"] [] 3 ∅ false,
        None).
Proof.
  split; [reflexivity|split; [reflexivity|split; [exact parse_response_no_marker|]]].
  reflexivity.
Qed.

(** *** The boredom counter *)

Lemma get_contextual_response_replied self m r d self' reply :
  get_contextual_response self m r d = (self', Some reply) -> boredom_level self' = 0.
Proof.
  unfold get_contextual_response.
  destruct (negb (client self)); [discriminate|].
  destruct (Store.get_user_profile _ _ _ _) as [rows1 p].
  destruct r as [|[text|]]; try discriminate.
  destruct (memorize_block _ _) as [[reply1 mem]|]; [|discriminate].
  destruct (relationship_block _ _) as [[reply2 rel]|]; [|discriminate].
  destruct (truthy reply2); [|discriminate].
  destruct d; [|discriminate].
  now intros [= <- _].
Qed.

(** C3 (as amended). A tick with the stealth flag set or without a client
    changes nothing, the counter included, and sends nothing. Any other tick
    adds one to the counter, and leaves it at zero instead when it sent its
    message. A reactive reply that was sent leaves the counter at zero. *)
Theorem boredom_counter_tick b self io :
  let tick := autonomous_message_loop b self io in
  (stealth_mode self || negb (client self) = true -> tick = (self, None, None))
  /\ (stealth_mode self || negb (client self) = false ->
      boredom_level (fst (fst tick))
      = match snd (fst tick) with Some _ => 0 | None => boredom_level self + 1 end)
  /\ (forall m r d self' reply,
        get_contextual_response self m r d = (self', Some reply) ->
        boredom_level self' = 0).
Proof.
  unfold autonomous_message_loop. split; [|split].
  - now intros ->.
  - intros ->. simpl.
    destruct (_ <? _); [reflexivity|].
    destruct (eligible io); [reflexivity|].
    destruct (negb (recent_read io)); [reflexivity|].
    destruct (outreach io) as [|[text|]]; try reflexivity.
    destruct (truthy text); [|reflexivity].
    now destruct (message_sent io).
  - intros m r d self' reply. apply get_contextual_response_replied.
Qed.

Lemma boredom_counter_tick_witness :
  boredom_level
    (fst (fst (autonomous_message_loop (Bot 1 [] ∅ [] None) (Core true [] [] 5 ∅ false)
                 (OutreachIO [] 0 true ServiceError true))))
  = 6.
Proof.
  exact (proj1 (proj2 (boredom_counter_tick (Bot 1 [] ∅ [] None) (Core true [] [] 5 ∅ false)
                         (OutreachIO [] 0 true ServiceError true))) eq_refl).
Defined.

(** C3, as stated, fails: a tick under the stealth flag leaves the counter
    where it was. *)
Lemma boredom_counter_counterexample :
  boredom_level
    (fst (fst (autonomous_message_loop (Bot 1 [] ∅ [] None) (Core true [] [] 5 ∅ true)
                 (OutreachIO [40] 0 true (Response (Some "hi")) true))))
  = 5
  /\ 5 <> 5 + 1.
Proof. split; [reflexivity|lia]. Qed.

(** *** The guard of [on_message] *)

Lemma enter_Entered b self m self' :
  on_message_enter re_search_word b self m = Entered self' ->
  busy self (channel_id m) = false
  /\ self' = set_thinking (<[channel_id m := true]> (is_thinking_in_channel self)) self.
Proof.
  unfold on_message_enter, busy.
  destruct (_ || _); [discriminate|].
  destruct (bool_decide _); [discriminate|].
  destruct (match guild m with Some _ => _ | None => _ end); [discriminate|].
  destruct (default false _); [discriminate|].
  destruct (is_reply b m) as [replied|]; [|discriminate].
  destruct (negb _); [discriminate|].
  now intros [= <-].
Qed.

(** An event for a busy channel is dropped. *)
Lemma enter_busy b self m :
  busy self (channel_id m) = true -> on_message_enter re_search_word b self m = Returned.
Proof.
  unfold on_message_enter, busy. intros ->.
  destruct (_ || _); [reflexivity|].
  destruct (bool_decide _); [reflexivity|].
  now destruct (match guild m with Some _ => _ | None => _ end).
Qed.

Lemma respond_keeps_guard self m r d :
  is_thinking_in_channel (fst (get_contextual_response self m r d))
  = is_thinking_in_channel self.
Proof.
  unfold get_contextual_response.
  destruct (negb (client self)); [reflexivity|].
  destruct (Store.get_user_profile _ _ _ _) as [rows1 p].
  destruct r as [|[text|]]; try reflexivity.
  destruct (memorize_block _ _) as [[reply1 [mem|]]|]; try reflexivity;
    destruct (relationship_block _ _) as [[reply2 [rel|]]|];
    repeat match goal with |- context [if ?c then _ else _] => destruct c end;
    reflexivity.
Qed.

Lemma outreach_keeps_guard b self io :
  is_thinking_in_channel (fst (fst (autonomous_message_loop b self io)))
  = is_thinking_in_channel self.
Proof.
  unfold autonomous_message_loop.
  repeat match goal with
         | |- context [if ?c then _ else _] => destruct c
         | |- context [match ?x with _ => _ end] => destruct x
         end; reflexivity.
Qed.

Lemma reaction_keeps_guard self target_channels now history :
  is_thinking_in_channel (fst (autonomous_reaction_loop self target_channels now history))
  = is_thinking_in_channel self.
Proof.
  unfold autonomous_reaction_loop.
  destruct (_ || _); [reflexivity|].
  destruct target_channels; [reflexivity|].
  destruct history as [msgs|]; [|reflexivity].
  now destruct (scan_history _ _ _) as [[log reaction] e].
Qed.

(** The busy bits are those of the channels with a cycle in flight, and no
    channel has two. *)
Lemma reachable_guard b s :
  reachable re_search_word b s ->
  NoDup (channel_id <$> in_flight s)
  /\ forall channel,
       is_thinking_in_channel (core s) !! channel
       = if bool_decide (channel ∈ channel_id <$> in_flight s) then Some true else None.
Proof.
  induction 1 as [self Hinit|s s' _ [Hnd Hbits] Hstep].
  - simpl. split; [constructor|]. intros channel. now rewrite Hinit, lookup_empty.
  - destruct Hstep as [self fl m self' Henter|self fl m _|self fl m e _|self fl m r d _
                      |self fl1 m fl2|self fl io|self fl target_channels now history];
      simpl in *.
    + apply enter_Entered in Henter as [Hfree ->]. unfold busy in Hfree.
      rewrite Hbits in Hfree.
      assert (Hnew : channel_id m ∉ channel_id <$> fl).
      { intros Hin. now rewrite bool_decide_eq_true_2 in Hfree. }
      split; [now constructor|]. intros channel. simpl.
      destruct (decide (channel = channel_id m)) as [->|Hne].
      * rewrite lookup_insert_eq, bool_decide_eq_true_2; [reflexivity|]. apply elem_of_cons. now left.
      * rewrite lookup_insert_ne, Hbits by congruence.
        apply (f_equal (fun c : bool => if c then Some true else None)).
        apply bool_decide_ext. rewrite elem_of_cons. tauto.
    + now split.
    + now split.
    + split; [assumption|]. intros channel. now rewrite respond_keeps_guard.
    + rewrite fmap_app, fmap_cons in Hnd, Hbits.
      apply NoDup_app in Hnd as (Hnd1 & Hdisj & Hnd2).
      apply NoDup_cons in Hnd2 as [Hm2 Hnd2].
      assert (Hm1 : channel_id m ∉ channel_id <$> fl1).
      { intros Hin. apply (Hdisj _ Hin). apply elem_of_cons. now left. }
      rewrite fmap_app. split.
      * apply NoDup_app. split; [assumption|split; [|assumption]].
        intros x Hx1 Hx2. apply (Hdisj _ Hx1). apply elem_of_cons. now right.
      * intros channel. simpl.
        destruct (decide (channel = channel_id m)) as [->|Hne].
        -- rewrite lookup_delete_eq, bool_decide_eq_false_2; [reflexivity|].
           rewrite elem_of_app. tauto.
        -- rewrite lookup_delete_ne, Hbits by congruence.
           apply (f_equal (fun c : bool => if c then Some true else None)).
           apply bool_decide_ext. rewrite !elem_of_app, elem_of_cons. tauto.
    + split; [assumption|]. intros channel. now rewrite outreach_keeps_guard.
    + split; [assumption|]. intros channel. now rewrite reaction_keeps_guard.
Qed.

Lemma cycles_on_nil channel fl :
  channel ∉ channel_id <$> fl -> cycles_on channel fl = [].
Proof.
  unfold cycles_on. induction fl as [|m fl IH]; [reflexivity|].
  rewrite fmap_cons, not_elem_of_cons. intros [Hne Hfl]. simpl.
  destruct (Z.eqb_spec (channel_id m) channel); [congruence|]. now apply IH.
Qed.

Lemma cycles_on_elem channel fl :
  channel ∈ channel_id <$> fl -> cycles_on channel fl <> [].
Proof.
  unfold cycles_on. induction fl as [|m fl IH]; [intros H; now apply not_elem_of_nil in H|].
  rewrite fmap_cons, elem_of_cons. simpl.
  destruct (Z.eqb_spec (channel_id m) channel); [discriminate|].
  intros [->|H]; [congruence|now apply IH].
Qed.

Lemma cycles_on_NoDup channel fl :
  NoDup (channel_id <$> fl) -> (length (cycles_on channel fl) <= 1)%nat.
Proof.
  unfold cycles_on. induction fl as [|m fl IH]; [simpl; lia|].
  rewrite fmap_cons, NoDup_cons. intros [Hm Hnd]. simpl.
  destruct (Z.eqb_spec (channel_id m) channel) as [<-|]; [|now apply IH].
  fold (cycles_on (channel_id m) fl). rewrite cycles_on_nil by assumption. simpl. lia.
Qed.

(** When [on_message] starts a cycle. *)
Lemma enter_iff b self m self' :
  on_message_enter re_search_word b self m = Entered self'
  <-> author_id m <> bot_user b /\ author_bot m = false
      /\ (author_id m ∉ ignored_users b)
      /\ (forall g, guild m = Some g -> outside_active_channels b g m = false)
      /\ busy self (channel_id m) = false
      /\ reference m <> Some DeletedReferencedMessage
      /\ (is_mentioned b m = true \/ is_reply b m = Ok true
          \/ triggered re_search_word b m = true)
      /\ self' = set_thinking (<[channel_id m := true]> (is_thinking_in_channel self)) self.
Proof.
  unfold on_message_enter, busy.
  assert (G : (forall g, guild m = Some g -> outside_active_channels b g m = false)
              <-> match guild m with
                  | Some g => outside_active_channels b g m
                  | None => false
                  end = false).
  { destruct (guild m) as [g|]; split; auto; try discriminate.
    intros H g' [= <-]. exact H. }
  rewrite G. clear G.
  destruct (Z.eqb_spec (author_id m) (bot_user b)) as [Ha|Ha]; cbn [orb];
    [split; [discriminate|intros (H & _); contradiction]|].
  destruct (author_bot m);
    [split; [discriminate|intros (_ & H & _); discriminate]|].
  case_bool_decide as Hi;
    [split; [discriminate|intros (_ & _ & H & _); contradiction]|].
  destruct (match guild m with Some g => _ | None => _ end);
    [split; [discriminate|intros (_ & _ & _ & H & _); discriminate]|].
  destruct (default false (is_thinking_in_channel self !! channel_id m));
    [split; [discriminate|intros (_ & _ & _ & _ & H & _); discriminate]|].
  unfold is_reply.
  destruct (reference m) as [[| |author]|];
    try destruct (author =? bot_user b);
    try (split; [discriminate|intros (_ & _ & _ & _ & _ & H & _); congruence]);
    destruct (is_mentioned b m), (triggered re_search_word b m); cbn [orb negb];
    (split;
     [intros H; first [discriminate H|injection H as <-; intuition congruence]
     |intros (_ & _ & _ & _ & _ & _ & Hd & ->);
      first [reflexivity|exfalso; intuition congruence]]).
Qed.

(** A cycle in flight is the one cycle of its channel. *)
Lemma cycles_on_in m fl :
  NoDup (channel_id <$> fl) -> m ∈ fl -> cycles_on (channel_id m) fl = [m].
Proof.
  unfold cycles_on. induction fl as [|x fl IH]; [intros _ H; now apply elem_of_nil in H|].
  rewrite fmap_cons, NoDup_cons. intros [Hx Hnd] [->|Hin]%elem_of_cons; simpl.
  - rewrite Z.eqb_refl. f_equal. now apply cycles_on_nil.
  - destruct (Z.eqb_spec (channel_id x) (channel_id m)) as [E|_]; [|now apply IH].
    exfalso. apply Hx. rewrite E. now apply list_elem_of_fmap_2.
Qed.

(** C4. A cycle starts exactly for an event that passes the checks of
    [on_message] on a channel that is not busy. In every state the agent
    can reach, each channel has at most one reactive cycle in flight and
    its busy bit is set exactly when it has one. The event that starts a
    cycle puts it in flight as the only cycle of its channel; while it is
    in flight, whatever else runs, it stays the one cycle of the channel and
    every further event for the channel is dropped and leaves the state as
    it is. When the cycle leaves, the bit is clear and the channel has no
    cycle; and one run of [on_message] clears the bit on each of its exit
    paths: a failure of the history read, a classifier that declines, and a
    classifier that accepts, whatever the reply call does. *)
Theorem one_cycle_per_channel b :
  (forall self m self',
      on_message_enter re_search_word b self m = Entered self'
      <-> author_id m <> bot_user b /\ author_bot m = false
          /\ (author_id m ∉ ignored_users b)
          /\ (forall g, guild m = Some g -> outside_active_channels b g m = false)
          /\ busy self (channel_id m) = false
          /\ reference m <> Some DeletedReferencedMessage
          /\ (is_mentioned b m = true \/ is_reply b m = Ok true
              \/ triggered re_search_word b m = true)
          /\ self' = set_thinking (<[channel_id m := true]> (is_thinking_in_channel self))
                       self)
  /\ (forall s channel,
        reachable re_search_word b s ->
        (length (cycles_on channel (in_flight s)) <= 1)%nat
        /\ (busy (core s) channel = true <-> cycles_on channel (in_flight s) <> []))
  /\ (forall s m1 self1,
        reachable re_search_word b s ->
        on_message_enter re_search_word b (core s) m1 = Entered self1 ->
        step re_search_word b s (System self1 (m1 :: in_flight s))
        /\ reachable re_search_word b (System self1 (m1 :: in_flight s))
        /\ cycles_on (channel_id m1) (m1 :: in_flight s) = [m1])
  /\ (forall s m1,
        reachable re_search_word b s -> m1 ∈ in_flight s ->
        cycles_on (channel_id m1) (in_flight s) = [m1]
        /\ busy (core s) (channel_id m1) = true
        /\ forall m2 io,
             channel_id m2 = channel_id m1 ->
             on_message_enter re_search_word b (core s) m2 = Returned
             /\ on_message re_search_word b (core s) m2 io = (core s, None))
  /\ (forall s fl1 m1 fl2,
        reachable re_search_word b s -> in_flight s = fl1 ++ m1 :: fl2 ->
        let s' := System (on_message_exit (core s) (channel_id m1)) (fl1 ++ fl2) in
        step re_search_word b s s'
        /\ busy (core s') (channel_id m1) = false
        /\ cycles_on (channel_id m1) (in_flight s') = [])
  /\ (forall self m self1 io,
        on_message_enter re_search_word b self m = Entered self1 ->
        let out := on_message re_search_word b self m io in
        busy (fst out) (channel_id m) = false
        /\ (history_read io = false ->
            out = (on_message_exit self1 (channel_id m), Some ExternalError))
        /\ (history_read io = true ->
            _should_respond_to_message self1 (decision io) = false ->
            out = (on_message_exit self1 (channel_id m), None))
        /\ (history_read io = true ->
            _should_respond_to_message self1 (decision io) = true ->
            out = (on_message_exit
                     (fst (get_contextual_response self1 m (generation io)
                             (reply_delivered io)))
                     (channel_id m), None))).
Proof.
  split; [exact (enter_iff b)|].
  assert (Inv : forall s channel,
             reachable re_search_word b s ->
             (length (cycles_on channel (in_flight s)) <= 1)%nat
             /\ (busy (core s) channel = true <-> cycles_on channel (in_flight s) <> [])).
  { intros s channel Hs. destruct (reachable_guard b s Hs) as [Hnd Hbits].
    split; [now apply cycles_on_NoDup|].
    unfold busy. rewrite Hbits. case_bool_decide as Hin; simpl.
    - split; [intros _; now apply cycles_on_elem|reflexivity].
    - split; [discriminate|]. intros H. now rewrite cycles_on_nil in H. }
  split; [exact Inv|split; [|split; [|split]]].
  - intros [self fl] m1 self1 Hs Henter. cbn [core in_flight] in *.
    assert (St : step re_search_word b (System self fl) (System self1 (m1 :: fl)))
      by now apply step_start.
    assert (Hs1 : reachable re_search_word b (System self1 (m1 :: fl)))
      by (eapply reachable_step; eassumption).
    split; [exact St|split; [exact Hs1|]].
    destruct (reachable_guard b _ Hs1) as [Hnd _].
    apply (cycles_on_in m1 (m1 :: fl) Hnd). apply elem_of_cons. now left.
  - intros s m1 Hs Hin. destruct (reachable_guard b s Hs) as [Hnd _].
    pose proof (cycles_on_in m1 _ Hnd Hin) as Hone.
    assert (Hbusy : busy (core s) (channel_id m1) = true).
    { apply (Inv s (channel_id m1) Hs). now rewrite Hone. }
    split; [exact Hone|split; [exact Hbusy|]].
    intros m2 io Hsame. rewrite <- Hsame in Hbusy.
    pose proof (enter_busy b (core s) m2 Hbusy) as E.
    split; [exact E|]. unfold on_message. now rewrite E.
  - intros [self fl] fl1 m1 fl2 Hs Hfl s'. cbn [core in_flight] in Hfl, s'. subst fl.
    assert (St : step re_search_word b (System self (fl1 ++ m1 :: fl2)) s')
      by apply step_finish.
    assert (Hs' : reachable re_search_word b s')
      by (eapply reachable_step; eassumption).
    split; [exact St|].
    assert (Hfree : busy (core s') (channel_id m1) = false).
    { unfold busy, s'. cbn. now rewrite lookup_delete_eq. }
    split; [exact Hfree|].
    destruct (cycles_on (channel_id m1) (in_flight s')) eqn:E; [reflexivity|].
    exfalso. assert (busy (core s') (channel_id m1) = true); [|congruence].
    apply (Inv s' (channel_id m1) Hs'). now rewrite E.
  - intros self m self1 io Henter out. unfold out, on_message. rewrite Henter.
    unfold on_message_body. destruct (history_read io); cbn [negb].
    + destruct (_should_respond_to_message self1 (decision io)); cbn [fst snd];
        (split; [unfold busy; cbn; now rewrite lookup_delete_eq|]);
        (split; [discriminate|split; [try discriminate; reflexivity
                                     |try discriminate; reflexivity]]).
    + cbn [fst snd]. split; [unfold busy; cbn; now rewrite lookup_delete_eq|].
      split; [reflexivity|split; discriminate].
Qed.

(** C10. A message without a guild reaches the same end whatever the server
    settings are, so no activation policy stops it. When it is not the
    account's own, not a bot's and not an ignored user's, its channel is not
    busy and it mentions the account, replies to a message of the account
    or holds a trigger word, it enters its cycle, while the same message in
    a guild whose settings leave its channel out is ignored; except that a
    message whose reference resolves to a deleted message raises
    [AttributeError] before the cycle starts and is not processed, even when
    it mentions the account. *)
Theorem direct_message_entry b self m :
  guild m = None ->
  author_id m <> bot_user b -> author_bot m = false ->
  author_id m ∉ ignored_users b ->
  busy self (channel_id m) = false ->
  is_mentioned b m = true \/ reference m = Some (ResolvedMessage (bot_user b))
  \/ triggered re_search_word b m = true ->
  (forall b' io,
      bot_user b' = bot_user b -> ignored_users b' = ignored_users b ->
      trigger_words b' = trigger_words b ->
      on_message re_search_word b' self m io = on_message re_search_word b self m io)
  /\ match reference m with
     | Some DeletedReferencedMessage =>
         on_message_enter re_search_word b self m = Raised AttributeError
         /\ forall io, on_message re_search_word b self m io = (self, Some AttributeError)
     | _ =>
         on_message_enter re_search_word b self m
         = Entered (set_thinking (<[channel_id m := true]> (is_thinking_in_channel self))
                      self)
         /\ (forall g,
               outside_active_channels b g (in_guild g m) = true ->
               on_message_enter re_search_word b self (in_guild g m) = Returned)
     end.
Proof.
  intros Hguild Ha Hbot Hignored Hfree Haddressed.
  assert (Hab : (author_id m =? bot_user b) || author_bot m = false).
  { rewrite Hbot, orb_false_r. now apply Z.eqb_neq. }
  split.
  - intros b' io Hu Hi Ht. unfold on_message, on_message_enter.
    rewrite Hguild. unfold is_reply, is_mentioned, triggered. now rewrite Hu, Hi, Ht.
  - assert (Hhead :
               on_message_enter re_search_word b self m
               = match is_reply b m with
                 | Raise e => Raised e
                 | Ok replied =>
                     if negb (is_mentioned b m || replied || triggered re_search_word b m)
                     then Returned
                     else Entered (set_thinking
                                     (<[channel_id m := true]> (is_thinking_in_channel self))
                                     self)
                 end).
    { unfold on_message_enter. unfold busy in Hfree.
      rewrite Hab, Hguild, Hfree. now rewrite bool_decide_eq_false_2. }
    assert (Hout : forall g,
               outside_active_channels b g (in_guild g m) = true ->
               on_message_enter re_search_word b self (in_guild g m) = Returned).
    { intros g Hout. unfold on_message_enter. cbn [in_guild author_id author_bot guild].
      rewrite Hab, Hout. now rewrite bool_decide_eq_false_2. }
    unfold is_reply in Hhead.
    destruct (reference m) as [[| |author]|] eqn:Hr.
    + split; [|exact Hout]. rewrite Hhead.
      destruct Haddressed as [-> | [? | ->]]; [reflexivity|discriminate|].
      now rewrite orb_true_r.
    + split; [exact Hhead|]. intros io. unfold on_message. now rewrite Hhead.
    + split; [|exact Hout]. rewrite Hhead.
      destruct Haddressed as [-> | [[= ->] | ->]]; [reflexivity| |now rewrite orb_true_r].
      now rewrite Z.eqb_refl, orb_true_r.
    + split; [|exact Hout]. rewrite Hhead.
      destruct Haddressed as [-> | [? | ->]]; [reflexivity|discriminate|].
      now rewrite orb_true_r.
Qed.

End AgentFacts.

Section AgentWitnesses.
Import Agent.

Lemma one_cycle_per_channel_witness :
  let b := Bot 1 [] ∅ [] None in
  let self := Core true [] [] 5 ∅ false in
  let m1 := Message 7 false "ann" None 40 [1] None "hey" in
  let m2 := Message 8 false "bob" None 40 [1] None "you there" in
  let self1 := Core true [] [] 5 {[40 := true]} false in
  let io := CycleIO true (Response (Some "Yes")) (Response (Some "hi")) true in
  on_message_enter (fun _ _ => false) b self m1 = Entered self1
  /\ cycles_on 40 [m1] = [m1]
  /\ on_message_enter (fun _ _ => false) b self1 m2 = Returned
  /\ on_message (fun _ _ => false) b self m1 io
     = (Core true [Store.MemoryRow 7 0 (Some "ann") Store.placeholder "neutral"] [] 0 ∅ false,
        None).
Proof.
  intros b self m1 m2 self1 io.
  destruct (one_cycle_per_channel (fun _ _ => false) b)
    as (Hiff & _ & Hstart & Hflight & _ & Hrun).
  assert (E : on_message_enter (fun _ _ => false) b self m1 = Entered self1).
  { apply Hiff. repeat split; try discriminate.
    - apply not_elem_of_nil.
    - now left. }
  destruct (Hstart (System self []) m1 self1 (reachable_init _ b self eq_refl) E)
    as (_ & Hs1 & Hone).
  destruct (Hflight (System self1 [m1]) m1 Hs1) as (_ & _ & Hdrop).
  { apply elem_of_cons. now left. }
  split; [exact E|split; [exact Hone|split; [exact (proj1 (Hdrop m2 io eq_refl))|]]].
  destruct (Hrun self m1 self1 io E) as (_ & _ & _ & Hyes).
  exact (Hyes eq_refl eq_refl).
Defined.

Lemma direct_message_entry_witness :
  on_message_enter (fun _ _ => false) (Bot 1 [] ∅ [] None) (Core true [] [] 0 ∅ false)
    (Message 7 false "ann" None 40 [1] (Some DeletedReferencedMessage) "hey")
  = Raised AttributeError
  /\ forall io,
       on_message (fun _ _ => false) (Bot 1 [] ∅ [] None) (Core true [] [] 0 ∅ false)
         (Message 7 false "ann" None 40 [1] (Some DeletedReferencedMessage) "hey") io
       = (Core true [] [] 0 ∅ false, Some AttributeError).
Proof.
  refine (proj2 (direct_message_entry (fun _ _ => false) (Bot 1 [] ∅ [] None)
                   (Core true [] [] 0 ∅ false)
                   (Message 7 false "ann" None 40 [1] (Some DeletedReferencedMessage) "hey")
                   eq_refl _ eq_refl _ eq_refl _)).
  - discriminate.
  - apply not_elem_of_nil.
  - now left.
Defined.

End AgentWitnesses.

(** ** The schema migration *)

Section MigrationFacts.
Import Migration.

Lemma execute_ok implicit_begin statement c w :
  statement (working c) = Ok w ->
  execute implicit_begin statement c
  = if in_transaction c || implicit_begin
    then (Connection (committed c) w true, None)
    else (Connection w w false, None).
Proof. intros H. unfold execute. now rewrite H. Qed.

Lemma execute_raise implicit_begin statement c e :
  statement (working c) = Raise e ->
  execute implicit_begin statement c
  = (Connection (committed c) (working c) (in_transaction c || implicit_begin), Some e).
Proof. intros H. unfold execute. now rewrite H. Qed.

(** When the copy fails after the rename and the creation went through, the
    rollback finds them committed: the rows stay under [memories_old] and
    [memories] is the new, empty table. *)
Lemma copy_failure_after_commit fault (tables : gmap string table) legacy :
  tables !! "memories" = Some (LegacyMemories legacy) ->
  tables !! "memories_old" = None ->
  fault Rename = false -> fault Create = false ->
  fault Copy = true \/ (exists e, copy_rows [] legacy = Raise e) ->
  exists e,
    _migrate_database fault (connect tables)
    = (connect (<["memories" := Memories []]>
                  (<["memories_old" := LegacyMemories legacy]> (delete "memories" tables))),
       Some e).
Proof.
  intros Hm Ho HfR HfC Hcopy.
  set (renamed := <["memories_old" := LegacyMemories legacy]> (delete "memories" tables)).
  set (created := <["memories" := Memories []]> renamed).
  assert (Hcreated : renamed !! "memories" = None).
  { unfold renamed. now rewrite lookup_insert_ne, lookup_delete_eq. }
  assert (Hcopied : exists e, failing (fault Copy) (insert_select created) = Raise e).
  { unfold failing, insert_select, created.
    rewrite lookup_insert_eq, lookup_insert_ne by discriminate.
    unfold renamed. rewrite lookup_insert_eq.
    destruct (fault Copy); [eauto|].
    destruct Hcopy as [?|[e He]]; [discriminate|]. rewrite He. simpl. eauto. }
  destruct Hcopied as [e He]. exists e.
  unfold _migrate_database, select_guild_id, connect.
  cbn [working]. rewrite Hm.
  change (contains "no such column: guild_id" "no such column: guild_id") with true.
  cbv iota. unfold migration_steps, begin_transaction.
  cbn [in_transaction and_then committed working].
  rewrite (execute_ok _ _ _ renamed)
    by (cbn [working]; unfold failing, alter_rename; now rewrite HfR, Hm, Ho).
  cbn [in_transaction orb and_then committed]. unfold create_memory_table.
  rewrite (execute_ok _ _ _ created)
    by (cbn [working]; unfold failing, create_if_not_exists; now rewrite HfC, Hcreated).
  cbn [in_transaction orb and_then commit working].
  rewrite (execute_raise _ _ _ e) by exact He.
  reflexivity.
Qed.

(** C1. A legacy table of one row, with a failure of the copy statement:
    [_migrate_database] raises, and leaves the row under [memories_old]
    beside a new, empty [memories]; the same happens when the copy fails on
    a row without notes. The next start finds nothing to migrate in that
    store. *)
Theorem migration_copy_failure_keeps_rename :
  let legacy := [LegacyRow (Some 7) (Some "ann") (Some "- likes tea") (Some "friendly")] in
  let unnoted := [LegacyRow (Some 7) (Some "ann") None (Some "friendly")] in
  let half rows : gmap string table :=
    {[ "memories_old" := LegacyMemories rows; "memories" := Memories [] ]} in
  _migrate_database (fun s => match s with Copy => true | _ => false end)
    (connect {[ "memories" := LegacyMemories legacy ]})
  = (connect (half legacy), Some (OperationalError "disk I/O error"))
  /\ _migrate_database (fun _ => false) (connect {[ "memories" := LegacyMemories unnoted ]})
     = (connect (half unnoted),
        Some (IntegrityError "NOT NULL constraint failed: memories.notes"))
  /\ half legacy !! "memories" = Some (Memories [])
  /\ startup (fun _ => false) (connect (half legacy))
     = (connect (<["reacted_messages" := ReactedMessages []]> (half legacy)), None).
Proof. repeat split; vm_compute; reflexivity. Qed.

End MigrationFacts.

(** * Further properties *)

(** ** The memory store: profiles, keys and sequences of writes *)

Section StoreMore.
Import Store.

Implicit Types (rows : list memory_row) (uid gid : Z) (s n rel : string).

Lemma has_key_iff uid gid r :
  has_key uid gid r = true <-> (user_id r, guild_id r) = (uid, gid).
Proof.
  unfold has_key. rewrite andb_true_iff, !Z.eqb_eq. split.
  - now intros [-> ->].
  - now intros [= -> ->].
Qed.

Lemma find_None_keys uid gid rows :
  List.find (has_key uid gid) rows = None <-> (uid, gid) ∉ keys rows.
Proof.
  unfold keys. induction rows as [|r rows IH]; simpl.
  - split; [intros _; apply not_elem_of_nil|reflexivity].
  - rewrite not_elem_of_cons. destruct (has_key uid gid r) eqn:E.
    + apply has_key_iff in E. split; [discriminate|]. intros [H _]. congruence.
    + rewrite IH. split; [|tauto]. intros H. split; [|exact H].
      intros Heq. symmetry in Heq. apply has_key_iff in Heq. congruence.
Qed.

Lemma keys_update_where p f rows :
  (forall r, (user_id (f r), guild_id (f r)) = (user_id r, guild_id r)) ->
  keys (update_where p f rows) = keys rows.
Proof.
  intros Hf. unfold keys, update_where. rewrite List.map_map.
  apply List.map_ext. intros r. now destruct (p r).
Qed.

Lemma keys_get_user_profile rows uid name gid :
  keys (fst (get_user_profile rows uid name gid))
  = if existsb (has_key uid gid) rows then keys rows else keys rows ++ [(uid, gid)].
Proof.
  unfold get_user_profile, insert_or_ignore. simpl.
  destruct (existsb (has_key uid gid) rows); [reflexivity|].
  unfold keys. now rewrite List.map_app.
Qed.

(** X1. [get_user_profile] returns what the table then holds for the key,
    and a second call, under whatever display name, changes nothing and
    returns the same: the stored name is the one of the first call. *)
Theorem get_user_profile_again rows uid name name' gid :
  let first := get_user_profile rows uid name gid in
  select_profile uid gid (fst first) = Some (snd first)
  /\ get_user_profile (fst first) uid name' gid = first
  /\ (select_profile uid gid rows = None ->
      fst first = rows ++ [MemoryRow uid gid (Some name) placeholder "neutral"])
  /\ (forall p, select_profile uid gid rows = Some p -> first = (rows, p)).
Proof.
  destruct (select_profile uid gid rows) as [[n rel]|] eqn:E.
  - rewrite (get_user_profile_present rows uid name gid n rel E). simpl.
    split; [exact E|split; [|split]].
    + now apply get_user_profile_present.
    + discriminate.
    + now intros p [= <-].
  - destruct (get_user_profile_absent rows uid name gid E) as [-> E']. simpl.
    split; [exact E'|split; [|split]].
    + now apply get_user_profile_present.
    + reflexivity.
    + discriminate.
Qed.

(** X2. The writes of the store keep the primary key: the two updates and
    [append_user_memory] on a key with a row leave the keys of the table as
    they are, [get_user_profile] adds the key it is asked for only when the
    table lacks it, and so a table without a repeated key stays one. *)
Theorem store_keeps_primary_key rows uid gid :
  (forall s, keys (set_user_notes rows uid s gid) = keys rows)
  /\ (forall s, keys (set_user_relationship rows uid s gid) = keys rows)
  /\ (forall name,
        keys (fst (get_user_profile rows uid name gid))
        = if bool_decide ((uid, gid) ∈ keys rows) then keys rows
          else keys rows ++ [(uid, gid)])
  /\ (forall s,
        keys (append_user_memory rows uid s gid)
        = if bool_decide ((uid, gid) ∈ keys rows) then keys rows
          else keys rows ++ [(uid, gid)])
  /\ (NoDup (keys rows) ->
      forall s name,
        NoDup (keys (fst (get_user_profile rows uid name gid)))
        /\ NoDup (keys (append_user_memory rows uid s gid))).
Proof.
  assert (G : forall name,
             keys (fst (get_user_profile rows uid name gid))
             = if bool_decide ((uid, gid) ∈ keys rows) then keys rows
               else keys rows ++ [(uid, gid)]).
  { intros name. rewrite keys_get_user_profile, find_existsb.
    destruct (List.find (has_key uid gid) rows) eqn:E.
    - rewrite bool_decide_eq_true_2; [reflexivity|].
      destruct (decide ((uid, gid) ∈ keys rows)) as [|Hn]; [assumption|].
      apply find_None_keys in Hn. congruence.
    - apply find_None_keys in E. now rewrite bool_decide_eq_false_2. }
  assert (A : forall s,
             keys (append_user_memory rows uid s gid)
             = if bool_decide ((uid, gid) ∈ keys rows) then keys rows
               else keys rows ++ [(uid, gid)]).
  { intros s. rewrite <- (G "Unknown"). unfold append_user_memory.
    destruct (get_user_profile rows uid "Unknown" gid) as [rows1 [n rel]]. simpl.
    now apply keys_update_where. }
  assert (N : NoDup (keys rows) ->
              NoDup (if bool_decide ((uid, gid) ∈ keys rows) then keys rows
                     else keys rows ++ [(uid, gid)])).
  { intros Hnd. case_bool_decide as Hin; [assumption|].
    apply NoDup_app. split; [assumption|split].
    - intros x Hx Hx'. apply list_elem_of_singleton in Hx'. congruence.
    - apply NoDup_singleton. }
  split; [|split; [|split; [exact G|split; [exact A|]]]].
  - intros s. now apply keys_update_where.
  - intros s. now apply keys_update_where.
  - intros Hnd s name. rewrite G, A. split; now apply N.
Qed.

Lemma store_keeps_primary_key_witness :
  NoDup (keys (append_user_memory [MemoryRow 7 0 (Some "ann") "- likes tea" "friendly"]
                 8 "has a cat" 0)).
Proof.
  refine (proj2 (proj2 (proj2 (proj2 (proj2 (store_keeps_primary_key
            [MemoryRow 7 0 (Some "ann") "- likes tea" "friendly"] 8 0)))) _
            "has a cat" "x")).
  apply NoDup_singleton.
Defined.

Lemma update_where_twice p f g rows :
  (forall r, p (f r) = p r) -> (forall r, g (f r) = g r) ->
  update_where p g (update_where p f rows) = update_where p g rows.
Proof.
  intros Hp Hg. unfold update_where. rewrite List.map_map. apply List.map_ext.
  intros r. destruct (p r) eqn:E; [|now rewrite E]. now rewrite Hp, E, Hg.
Qed.

Lemma select_after_set_relationship rows uid gid s n rel :
  select_profile uid gid rows = Some (n, rel) ->
  select_profile uid gid (set_user_relationship rows uid s gid) = Some (n, s).
Proof.
  unfold select_profile, set_user_relationship. rewrite find_update_where by reflexivity.
  destruct (List.find (has_key uid gid) rows) as [r|]; [|discriminate].
  simpl. now intros [= -> _].
Qed.

(** X3. On a key with a record, what [set_user_notes] wrote is what
    [get_user_profile] returns, with the relationship as it was, and
    [set_user_relationship] likewise keeps the notes; a later
    [set_user_notes] overwrites an earlier one. *)
Theorem set_then_get rows uid gid n rel :
  select_profile uid gid rows = Some (n, rel) ->
  (forall s name,
      snd (get_user_profile (set_user_notes rows uid s gid) uid name gid) = (s, rel))
  /\ (forall s name,
        snd (get_user_profile (set_user_relationship rows uid s gid) uid name gid) = (n, s))
  /\ (forall s s',
        set_user_notes (set_user_notes rows uid s gid) uid s' gid
        = set_user_notes rows uid s' gid).
Proof.
  intros H. split; [|split].
  - intros s name.
    now rewrite (get_user_profile_present _ uid name gid s rel
                   (select_after_set_notes rows uid gid s n rel H)).
  - intros s name.
    now rewrite (get_user_profile_present _ uid name gid n s
                   (select_after_set_relationship rows uid gid s n rel H)).
  - intros s s'. now apply update_where_twice.
Qed.

Lemma set_then_get_witness :
  snd (get_user_profile
         (set_user_notes [MemoryRow 7 0 (Some "ann") "- likes tea" "friendly"] 7 "- new" 0)
         7 "ann" 0)
  = ("- new", "friendly").
Proof.
  exact (proj1 (set_then_get [MemoryRow 7 0 (Some "ann") "- likes tea" "friendly"] 7 0
                  "- likes tea" "friendly" eq_refl) "- new" "ann").
Defined.

(** A character that [sep] does not have keeps occurrences of [sep] on one
    side of it. *)
Lemma contains_cons_other sep c s :
  sep <> "" -> occurs c sep = false -> contains sep (String c s) = contains sep s.
Proof.
  intros Hsep Hc. destruct sep as [|d sep]; [congruence|].
  simpl in Hc. apply orb_false_iff in Hc as [Hcd _].
  apply contains_after_char. now rewrite Ascii.eqb_sym.
Qed.

Lemma contains_cons sep x s :
  contains sep (String x s) = startswith (String x s) sep || contains sep s.
Proof.
  unfold contains. simpl cut.
  destruct (startswith (String x s) sep); [reflexivity|].
  now destruct (cut sep s) as [[a b]|].
Qed.

Lemma contains_append_char sep c l r :
  sep <> "" -> occurs c sep = false ->
  contains sep (l +:+ String c r) = contains sep l || contains sep r.
Proof.
  intros Hsep Hc. induction l as [|x l IH].
  - change ("" +:+ String c r) with (String c r).
    rewrite contains_cons_other by assumption.
    unfold contains at 2. now rewrite cut_nil.
  - assert (E : startswith (String x (l +:+ String c r)) sep = startswith (String x l) sep).
    { destruct (startswith (String x l) sep) eqn:E'.
      - apply (startswith_longer _ _ (String c r)) in E'. now rewrite append_cons in E'.
      - destruct (startswith (String x (l +:+ String c r)) sep) eqn:E; [|reflexivity].
        rewrite <- append_cons in E. apply startswith_straddle in E; [|assumption].
        congruence. }
    now rewrite append_cons, !contains_cons, IH, E, orb_assoc.
Qed.

(** The notes after one more bullet hold the placeholder only if the notes
    before or the summary did. *)
Lemma bullet_keeps_placeholder_out n s :
  contains placeholder n = false -> contains placeholder s = false ->
  contains placeholder (n +:+ nl +:+ "- " +:+ s) = false.
Proof.
  intros Hn Hs. unfold nl.
  change (String LF "" +:+ "- " +:+ s) with (String LF (String "-" (String " " s))).
  rewrite contains_append_char by (first [reflexivity | unfold placeholder; discriminate]).
  rewrite Hn. simpl. unfold placeholder in *.
  now rewrite !contains_after_char by reflexivity.
Qed.

(** [append_user_memory] on a key with a record. *)
Lemma append_user_memory_present rows uid gid summary n rel :
  select_profile uid gid rows = Some (n, rel) ->
  select_profile uid gid (append_user_memory rows uid summary gid)
  = Some (if contains placeholder n then "- " +:+ summary
          else n +:+ nl +:+ "- " +:+ summary, rel).
Proof.
  intros H. unfold append_user_memory.
  rewrite (get_user_profile_present rows uid "Unknown" gid n rel H).
  now apply select_after_set_notes with (n := n).
Qed.

Lemma append_all_present rows uid gid summaries n rel :
  select_profile uid gid rows = Some (n, rel) ->
  contains placeholder n = false ->
  Forall (fun s => contains nl s = false /\ contains placeholder s = false) summaries ->
  exists notes,
    select_profile uid gid (append_all rows uid gid summaries) = Some (notes, rel)
    /\ contains placeholder notes = false
    /\ lines notes = lines n ++ List.map (fun s => "- " +:+ s) summaries.
Proof.
  intros Hsel Hn Hall. revert rows n Hsel Hn.
  induction Hall as [|s summaries [Hnl Hph] _ IH]; intros rows n Hsel Hn.
  - exists n. simpl. now rewrite app_nil_r.
  - pose proof (append_user_memory_present rows uid gid s n rel Hsel) as E.
    rewrite Hn in E. pose proof (lines_with_bullet n s Hnl) as L'.
    destruct (IH _ _ E (bullet_keeps_placeholder_out n s Hn Hph)) as (notes & S & P & Ls).
    exists notes. unfold append_all in *. simpl.
    split; [exact S|split; [exact P|]].
    rewrite Ls, L'. now rewrite <- app_assoc.
Qed.

(** X4. Summaries appended one after the other to a key without a record
    make a bullet list: when no summary has a line break or quotes the
    placeholder, the notes end up with one line per summary, in the order of
    the calls, each the bullet of its summary. *)
Theorem append_all_fresh rows uid gid summaries :
  select_profile uid gid rows = None ->
  summaries <> [] ->
  Forall (fun s => contains nl s = false /\ contains placeholder s = false) summaries ->
  exists notes,
    select_profile uid gid (append_all rows uid gid summaries) = Some (notes, "neutral")
    /\ lines notes = List.map (fun s => "- " +:+ s) summaries.
Proof.
  intros Hsel Hne Hall. destruct summaries as [|s summaries]; [congruence|].
  apply Forall_cons in Hall as [[Hnl Hph] Hall].
  pose proof (append_user_memory_fresh rows uid gid s Hsel) as E.
  assert (P : contains placeholder ("- " +:+ s) = false).
  { change ("- " +:+ s) with (String "-" (String " " s)). unfold placeholder in *.
    now rewrite !contains_after_char by reflexivity. }
  destruct (append_all_present _ uid gid summaries _ _ E P Hall) as (notes & S & _ & L).
  exists notes. split; [exact S|]. rewrite L.
  assert (B : lines ("- " +:+ s) = ["- " +:+ s]).
  { unfold lines. apply split_absent; [discriminate|].
    change ("- " +:+ s) with (String "-" (String " " s)). unfold nl.
    now rewrite !contains_after_char. }
  now rewrite B.
Qed.

Lemma append_all_fresh_witness :
  exists notes,
    select_profile 7 0 (append_all [] 7 0 ["likes tea"; "has a cat"]) = Some (notes, "neutral")
    /\ lines notes = ["- likes tea"; "- has a cat"].
Proof.
  refine (append_all_fresh [] 7 0 ["likes tea"; "has a cat"] eq_refl _ _).
  - discriminate.
  - repeat constructor.
Defined.

(** X5. Clearing and then adding: on a key with a record, whatever its
    notes, [memory_clear] followed by [memory_add] leaves exactly the one
    bullet of the added text, and the relationship as it was. *)
Theorem clear_then_add rows ctx_guild user text n rel :
  select_profile user (match ctx_guild with Some g => g | None => 0 end) rows
  = Some (n, rel) ->
  select_profile user (match ctx_guild with Some g => g | None => 0 end)
    (Cog.memory_add (memory_clear rows ctx_guild user) ctx_guild user text)
  = Some ("- " +:+ text, rel).
Proof.
  intros H. unfold Cog.memory_add, memory_clear.
  set (gid := match ctx_guild with Some g => g | None => 0 end) in *.
  pose proof (select_after_set_notes rows user gid placeholder n rel H) as E.
  now rewrite (append_user_memory_present _ user gid text placeholder rel E).
Qed.

Lemma clear_then_add_witness :
  select_profile 7 0
    (Cog.memory_add
       (memory_clear [MemoryRow 7 0 (Some "ann") "- likes tea" "friendly"] None 7)
       None 7 "has a cat")
  = Some ("- has a cat", "friendly").
Proof.
  exact (clear_then_add [MemoryRow 7 0 (Some "ann") "- likes tea" "friendly"] None 7
           "has a cat" "- likes tea" "friendly" eq_refl).
Defined.

End StoreMore.

(** ** The schema migration: the other outcomes *)

Section MigrationMore.
Import Migration.

Lemma copy_rows_carried dest legacy rows' :
  carried_all legacy = Some rows' ->
  NoDup (keys (dest ++ rows')) ->
  copy_rows dest legacy = Ok (dest ++ rows').
Proof.
  revert dest rows'. induction legacy as [|r legacy IH]; intros dest rows' Hc Hnd.
  - injection Hc as <-. simpl. now rewrite app_nil_r.
  - simpl in Hc. destruct (carried r) as [row|] eqn:Er; [|discriminate].
    destruct (carried_all legacy) as [rows|]; [|discriminate].
    injection Hc as <-. unfold carried in Er. simpl. unfold insert_copied.
    destruct (old_user_id r) as [uid|]; [|discriminate].
    destruct (old_notes r) as [n|]; [|discriminate].
    destruct (old_relationship_status r) as [rel|]; [|discriminate].
    injection Er as <-.
    assert (Hfresh : existsb (Store.has_key uid 0) dest = false).
    { rewrite find_existsb.
      destruct (List.find (Store.has_key uid 0) dest) eqn:Ef; [|reflexivity].
      exfalso. assert (Hin : (uid, 0) ∈ keys dest).
      { destruct (decide ((uid, 0) ∈ keys dest)) as [|Hn]; [assumption|].
        apply find_None_keys in Hn. congruence. }
      unfold keys in Hnd. rewrite List.map_app in Hnd. fold (keys dest) in Hnd.
      apply NoDup_app in Hnd as (_ & Hdisj & _). apply (Hdisj _ Hin).
      simpl. apply elem_of_cons. now left. }
    rewrite Hfresh. simpl.
    rewrite (IH (dest ++ [Store.MemoryRow uid 0 (old_user_name r) n rel]) rows eq_refl).
    + now rewrite <- app_assoc.
    + now rewrite <- app_assoc.
Qed.

(** X6. A migration that meets no failure: when every legacy row has a user
    id, notes and a relationship and no user id comes twice, the table
    [memories] afterwards holds each legacy row once, in order, under guild
    [0] with its name, notes and relationship as they were; [memories_old] is
    gone, every other table is as before, and all of it is committed. *)
Theorem migration_carries_rows_over (tables : gmap string table) legacy rows' :
  tables !! "memories" = Some (LegacyMemories legacy) ->
  tables !! "memories_old" = None ->
  carried_all legacy = Some rows' ->
  NoDup (keys rows') ->
  exists after,
    _migrate_database (fun _ => false) (connect tables) = (connect after, None)
    /\ after !! "memories" = Some (Memories rows')
    /\ after !! "memories_old" = None
    /\ forall name, name <> "memories" -> name <> "memories_old" ->
                    after !! name = tables !! name.
Proof.
  intros Hm Ho Hc Hnd.
  set (renamed := <["memories_old" := LegacyMemories legacy]> (delete "memories" tables)).
  set (created := <["memories" := Memories []]> renamed).
  set (copied := <["memories" := Memories rows']> created).
  exists (delete "memories_old" copied).
  assert (Hcreated : renamed !! "memories" = None).
  { unfold renamed. now rewrite lookup_insert_ne, lookup_delete_eq. }
  assert (Hcopy : insert_select created = Ok copied).
  { unfold insert_select, created.
    rewrite lookup_insert_eq, lookup_insert_ne by discriminate.
    unfold renamed. rewrite lookup_insert_eq.
    now rewrite (copy_rows_carried [] legacy rows' Hc Hnd). }
  assert (Hdrop : drop_table "memories_old" copied = Ok (delete "memories_old" copied)).
  { unfold drop_table, copied, created.
    rewrite !lookup_insert_ne by discriminate. unfold renamed.
    now rewrite lookup_insert_eq. }
  split; [|split; [|split]].
  - unfold _migrate_database, select_guild_id, connect.
    cbn [working]. rewrite Hm.
    change (contains "no such column: guild_id" "no such column: guild_id") with true.
    cbv iota. unfold migration_steps, begin_transaction.
    cbn [in_transaction and_then committed working].
    rewrite (execute_ok _ _ _ renamed)
      by (cbn [working]; unfold failing, alter_rename; now rewrite Hm, Ho).
    cbn [in_transaction orb and_then committed]. unfold create_memory_table.
    rewrite (execute_ok _ _ _ created)
      by (cbn [working]; unfold failing, create_if_not_exists; now rewrite Hcreated).
    cbn [in_transaction orb and_then commit working].
    rewrite (execute_ok _ _ _ copied) by exact Hcopy.
    cbn [in_transaction orb and_then committed commit working].
    rewrite (execute_ok _ _ _ (delete "memories_old" copied)) by exact Hdrop.
    reflexivity.
  - unfold copied. now rewrite lookup_delete_ne, lookup_insert_eq.
  - now rewrite lookup_delete_eq.
  - intros name H1 H2. unfold copied, created, renamed.
    now rewrite lookup_delete_ne, !lookup_insert_ne, lookup_delete_ne by congruence.
Qed.

Lemma migration_carries_rows_over_witness :
  exists after,
    _migrate_database (fun _ => false)
      (connect {[ "memories" := LegacyMemories
                    [LegacyRow (Some 7) (Some "ann") (Some "- likes tea") (Some "friendly");
                     LegacyRow (Some 8) None (Some "No memories yet.") (Some "neutral")] ]})
    = (connect after, None)
    /\ after !! "memories"
       = Some (Memories [Store.MemoryRow 7 0 (Some "ann") "- likes tea" "friendly";
                         Store.MemoryRow 8 0 None "No memories yet." "neutral"])
    /\ after !! "memories_old" = None
    /\ forall name, name <> "memories" -> name <> "memories_old" ->
         after !! name
         = ({[ "memories" := LegacyMemories
                 [LegacyRow (Some 7) (Some "ann") (Some "- likes tea") (Some "friendly");
                  LegacyRow (Some 8) None (Some "No memories yet.") (Some "neutral")] ]}
            : gmap string table) !! name.
Proof.
  refine (migration_carries_rows_over
            {[ "memories" := LegacyMemories
                 [LegacyRow (Some 7) (Some "ann") (Some "- likes tea") (Some "friendly");
                  LegacyRow (Some 8) None (Some "No memories yet.") (Some "neutral")] ]}
            [LegacyRow (Some 7) (Some "ann") (Some "- likes tea") (Some "friendly");
             LegacyRow (Some 8) None (Some "No memories yet.") (Some "neutral")]
            [Store.MemoryRow 7 0 (Some "ann") "- likes tea" "friendly";
             Store.MemoryRow 8 0 None "No memories yet." "neutral"]
            eq_refl eq_refl eq_refl _).
  repeat constructor; rewrite ?elem_of_cons, ?elem_of_nil; intros H;
    repeat destruct H as [H|H]; try discriminate H; exact H.
Defined.

Lemma migrate_up_to_date fault (tables : gmap string table) rows :
  tables !! "memories" = Some (Memories rows) ->
  _migrate_database fault (connect tables) = (connect tables, None).
Proof.
  intros H. unfold _migrate_database, select_guild_id, connect. cbn [working].
  now rewrite H.
Qed.

(** X7. On a store whose [memories] already has the guild column, the
    start-up runs no migration statement and changes no table it finds; it
    adds an empty [reacted_messages] when there is none, and a second
    start-up on the result changes nothing. *)
Theorem startup_on_current_schema (tables : gmap string table) rows :
  tables !! "memories" = Some (Memories rows) ->
  let after :=
    match tables !! "reacted_messages" with
    | Some _ => tables
    | None => <["reacted_messages" := ReactedMessages []]> tables
    end in
  (forall fault, _migrate_database fault (connect tables) = (connect tables, None))
  /\ startup (fun _ => false) (connect tables) = (connect after, None)
  /\ startup (fun _ => false) (connect after) = (connect after, None)
  /\ forall name t, tables !! name = Some t -> after !! name = Some t.
Proof.
  intros H after.
  assert (S : forall (tb : gmap string table) rs,
             tb !! "memories" = Some (Memories rs) ->
             startup (fun _ => false) (connect tb)
             = (connect match tb !! "reacted_messages" with
                        | Some _ => tb
                        | None => <["reacted_messages" := ReactedMessages []]> tb
                        end, None)).
  { intros tb rs Hm. unfold startup. rewrite (migrate_up_to_date _ tb rs Hm).
    cbn [and_then]. unfold create_memory_table.
    rewrite (execute_ok _ _ _ tb)
      by (unfold connect; cbn [working]; unfold failing, create_if_not_exists;
          now rewrite Hm).
    unfold connect. cbn [in_transaction orb and_then]. unfold commit. cbn [working].
    unfold create_reaction_log_table.
    rewrite (execute_ok _ _ _ match tb !! "reacted_messages" with
                              | Some _ => tb
                              | None => <["reacted_messages" := ReactedMessages []]> tb
                              end)
      by (cbn [working]; unfold create_if_not_exists;
          now destruct (tb !! "reacted_messages")).
    cbn [in_transaction orb and_then]. unfold commit. cbn [working]. reflexivity. }
  split; [|split; [|split]].
  - intros fault. now apply migrate_up_to_date with (rows := rows).
  - now apply S with (rs := rows).
  - rewrite (S after rows).
    + unfold after. destruct (tables !! "reacted_messages") eqn:E.
      * now rewrite E.
      * now rewrite lookup_insert_eq.
    + unfold after. destruct (tables !! "reacted_messages"); [assumption|].
      now rewrite lookup_insert_ne.
  - intros name t Ht. unfold after.
    destruct (tables !! "reacted_messages") eqn:E; [assumption|].
    rewrite lookup_insert_ne; [assumption|]. congruence.
Qed.

Lemma startup_on_current_schema_witness :
  startup (fun _ => false)
    (connect {[ "memories" := Memories [Store.MemoryRow 7 0 None "- likes tea" "friendly"] ]})
  = (connect {[ "reacted_messages" := ReactedMessages [];
                "memories" := Memories [Store.MemoryRow 7 0 None "- likes tea" "friendly"] ]},
     None).
Proof.
  exact (proj1 (proj2 (startup_on_current_schema
           {[ "memories" := Memories [Store.MemoryRow 7 0 None "- likes tea" "friendly"] ]}
           [Store.MemoryRow 7 0 None "- likes tea" "friendly"] eq_refl))).
Defined.

(** X8. On a database without a [memories] table (a new file), the schema
    check itself raises "no such table", which [_migrate_database] re-raises:
    the start-up halts there, before [create_memory_table] is reached, and
    the database stays without tables of the cog. *)
Theorem startup_on_new_database fault (tables : gmap string table) :
  tables !! "memories" = None ->
  _migrate_database fault (connect tables)
  = (connect tables, Some (OperationalError "no such table: memories"))
  /\ startup fault (connect tables)
     = (connect tables, Some (OperationalError "no such table: memories")).
Proof.
  intros H.
  assert (E : _migrate_database fault (connect tables)
              = (connect tables, Some (OperationalError "no such table: memories"))).
  { unfold _migrate_database, select_guild_id, connect. cbn [working]. now rewrite H. }
  split; [exact E|]. unfold startup. now rewrite E.
Qed.

Lemma startup_on_new_database_witness :
  startup (fun _ => false) (connect ∅)
  = (connect ∅, Some (OperationalError "no such table: memories")).
Proof. exact (proj2 (startup_on_new_database (fun _ => false) ∅ eq_refl)). Defined.

(** X9. When the rename or the creation of the new table fails (an outside
    failure, or a [memories_old] left from before), nothing was committed
    yet: [_migrate_database] raises and the store is as it was. *)
Theorem early_failure_rolls_back fault (tables : gmap string table) legacy :
  tables !! "memories" = Some (LegacyMemories legacy) ->
  fault Rename = true \/ is_Some (tables !! "memories_old") \/ fault Create = true ->
  exists e, _migrate_database fault (connect tables) = (connect tables, Some e).
Proof.
  intros Hm Hfail.
  unfold _migrate_database, select_guild_id, connect. cbn [working]. rewrite Hm.
  change (contains "no such column: guild_id" "no such column: guild_id") with true.
  cbv iota. unfold migration_steps, begin_transaction.
  cbn [in_transaction and_then committed working].
  destruct (failing (fault Rename) (alter_rename tables)) as [renamed|e] eqn:Er.
  - rewrite (execute_ok _ _ _ renamed) by exact Er.
    cbn [in_transaction orb and_then committed]. unfold create_memory_table.
    assert (Hcreate : fault Create = true).
    { unfold failing, alter_rename in Er. rewrite Hm in Er.
      destruct Hfail as [Hf|[[t Ht]|Hf]]; [now rewrite Hf in Er| |exact Hf].
      rewrite Ht in Er. now destruct (fault Rename). }
    rewrite (execute_raise _ _ _ (OperationalError "disk I/O error"))
      by (unfold failing; now rewrite Hcreate).
    cbn [and_then rollback committed]. eauto.
  - rewrite (execute_raise _ _ _ e) by exact Er.
    cbn [and_then rollback committed]. eauto.
Qed.

Lemma early_failure_rolls_back_witness :
  exists e,
    _migrate_database (fun _ => false)
      (connect {[ "memories" := LegacyMemories [];
                  "memories_old" := LegacyMemories [] ]})
    = (connect {[ "memories" := LegacyMemories [];
                  "memories_old" := LegacyMemories [] ]}, Some e).
Proof.
  refine (early_failure_rolls_back (fun _ => false)
            {[ "memories" := LegacyMemories []; "memories_old" := LegacyMemories [] ]}
            [] eq_refl _).
  right; left. now exists (LegacyMemories []).
Defined.

End MigrationMore.

(** ** The loops and the reactive path: what they touch *)

Section AgentMore.
Import Agent.

Implicit Types (b : bot) (self : AICore) (m : message).

(** What one scan of the history does to the log. *)
Lemma scan_history_log log now history :
  match snd (fst (scan_history log now history)) with
  | Some (id, reaction_emoji) =>
      Store.has_reacted log id = false
      /\ reaction_emoji <> ""
      /\ id ∈ message_id <$> history
      /\ fst (fst (scan_history log now history)) = log ++ [(id, now)]
  | None => fst (fst (scan_history log now history)) = log
  end.
Proof.
  induction history as [|msg rest IH]; [reflexivity|].
  simpl. destruct (Store.has_reacted log (message_id msg)) eqn:Hhas.
  - destruct (snd (fst (scan_history log now rest))) as [[id e]|]; [|exact IH].
    destruct IH as (H1 & H2 & H3 & H4). repeat split; try assumption.
    apply elem_of_cons. now right.
  - destruct (emoji msg) as [|[text|]]; try reflexivity.
    destruct (truthy (strip text)) eqn:Ht.
    + destruct (reaction_added msg); [|reflexivity].
      unfold Store.record_reaction. rewrite Hhas. simpl.
      repeat split; try assumption.
      * intros E. now rewrite E in Ht.
      * apply elem_of_cons. now left.
    + destruct (snd (fst (scan_history log now rest))) as [[id e]|]; [|exact IH].
      destruct IH as (H1 & H2 & H3 & H4). repeat split; try assumption.
      apply elem_of_cons. now right.
Qed.

(** X10. One tick of the reaction loop reacts to at most one message, one of
    the history that the log did not hold, with a non-empty emoji, and then
    adds exactly that id to the end of the log; without a reaction the log
    is as before. Nothing else of the state changes, and under the stealth
    flag or without a client the tick does nothing. *)
Theorem reaction_tick self target_channels now history :
  let tick := autonomous_reaction_loop self target_channels now history in
  set_reacted (reacted_messages self) (fst tick) = self
  /\ match snd tick with
     | Some (id, reaction_emoji) =>
         Store.has_reacted (reacted_messages self) id = false
         /\ reaction_emoji <> ""
         /\ (exists msgs, history = Some msgs /\ id ∈ message_id <$> msgs)
         /\ reacted_messages (fst tick) = reacted_messages self ++ [(id, now)]
     | None => reacted_messages (fst tick) = reacted_messages self
     end
  /\ (stealth_mode self || negb (client self) = true -> tick = (self, None)).
Proof.
  unfold autonomous_reaction_loop.
  destruct (stealth_mode self || negb (client self)).
  { simpl. split; [now destruct self|split; [reflexivity|reflexivity]]. }
  split; [|split; [|discriminate]].
  - destruct target_channels; [now destruct self|].
    destruct history as [msgs|]; [|now destruct self].
    destruct (scan_history _ _ _) as [[log reaction] e]. now destruct self.
  - destruct target_channels; [reflexivity|].
    destruct history as [msgs|]; [|reflexivity].
    pose proof (scan_history_log (reacted_messages self) now msgs) as H.
    destruct (scan_history _ _ _) as [[log reaction] e]. simpl in *.
    destruct reaction as [[id em]|]; [|exact H].
    destruct H as (H1 & H2 & H3 & H4). repeat split; try assumption.
    now exists msgs.
Qed.

Lemma random_choice_elem (target_channels : list Z) pick :
  target_channels <> [] -> random_choice target_channels pick ∈ target_channels.
Proof.
  intros Hne. unfold random_choice. apply list_elem_of_In. apply nth_In.
  apply Nat.mod_upper_bound. now destruct target_channels.
Qed.

(** X11. A tick of the boredom loop sends a message exactly when the stealth
    flag is clear, there is a client, the counter with this tick counted
    reaches the threshold (120 when none is configured), some channel is
    eligible, the history was read, the service returned a non-empty text
    and the sending went through; the message is that text, trimmed, and
    goes to one of the eligible channels. *)
Theorem outreach_sent_iff b self io channel text :
  snd (fst (autonomous_message_loop b self io)) = Some (channel, text)
  <-> stealth_mode self = false /\ client self = true
      /\ default 120 (boredom_threshold b) <= boredom_level self + 1
      /\ eligible io <> []
      /\ channel = random_choice (eligible io) (pick io)
      /\ channel ∈ eligible io
      /\ recent_read io = true
      /\ (exists t, outreach io = Response (Some t) /\ t <> "" /\ text = strip t)
      /\ message_sent io = true.
Proof.
  unfold autonomous_message_loop.
  destruct (stealth_mode self); simpl; [split; [discriminate|now intros [? _]]|].
  destruct (client self); simpl; [|split; [discriminate|now intros (_ & ? & _)]].
  destruct (Z.ltb_spec (boredom_level self + 1) (default 120 (boredom_threshold b)))
    as [Hlt|Hge]; simpl.
  { split; [discriminate|]. intros (_ & _ & H & _). lia. }
  destruct (eligible io) as [|c0 cs] eqn:Hel; simpl.
  { split; [discriminate|]. now intros (_ & _ & _ & H & _). }
  destruct (recent_read io); simpl;
    [|split; [discriminate|now intros (_ & _ & _ & _ & _ & _ & ? & _)]].
  destruct (outreach io) as [|[t|]]; simpl.
  - split; [discriminate|]. now intros (_ & _ & _ & _ & _ & _ & _ & (t & ? & _) & _).
  - destruct t as [|c t]; simpl.
    + split; [discriminate|].
      intros (_ & _ & _ & _ & _ & _ & _ & (t & [= <-] & Hne & _) & _). congruence.
    + destruct (message_sent io); simpl.
      * split.
        -- intros [= <- <-]. repeat split; try assumption; try discriminate.
           ++ apply random_choice_elem. discriminate.
           ++ exists (String c t). repeat split. discriminate.
        -- intros (_ & _ & _ & _ & -> & _ & _ & (t' & [= <-] & _ & ->) & _). reflexivity.
      * split; [discriminate|]. now intros (_ & _ & _ & _ & _ & _ & _ & _ & ?).
  - split; [discriminate|]. now intros (_ & _ & _ & _ & _ & _ & _ & (t & ? & _) & _).
Qed.

Lemma outreach_sent_iff_witness :
  snd (fst (autonomous_message_loop (Bot 1 [] ∅ [] (Some 2)) (Core true [] [] 1 ∅ false)
              (OutreachIO [40; 41] 3 true (Response (Some " hi ")) true)))
  = Some (41, "hi").
Proof.
  refine (proj2 (outreach_sent_iff (Bot 1 [] ∅ [] (Some 2)) (Core true [] [] 1 ∅ false)
                   (OutreachIO [40; 41] 3 true (Response (Some " hi ")) true) 41 "hi") _).
  repeat split; try reflexivity; try discriminate.
  - apply elem_of_cons. right. apply elem_of_cons. now left.
  - exists " hi ". repeat split. discriminate.
Defined.

Lemma get_user_profile_other rows uid name gid uid' gid' :
  (uid', gid') <> (uid, gid) ->
  Store.select_profile uid' gid' (fst (Store.get_user_profile rows uid name gid))
  = Store.select_profile uid' gid' rows.
Proof.
  intros Hne. unfold Store.get_user_profile, Store.insert_or_ignore. simpl.
  destruct (existsb _ rows); [reflexivity|].
  unfold Store.select_profile. rewrite find_app_last.
  destruct (List.find (Store.has_key uid' gid') rows); [reflexivity|].
  destruct (Store.has_key uid' gid' _) eqn:E; [|reflexivity].
  apply has_key_iff in E. simpl in E. congruence.
Qed.

Lemma set_user_relationship_other rows uid status gid uid' gid' :
  (uid', gid') <> (uid, gid) ->
  Store.select_profile uid' gid' (Store.set_user_relationship rows uid status gid)
  = Store.select_profile uid' gid' rows.
Proof.
  intros Hne. unfold Store.select_profile, Store.set_user_relationship.
  rewrite find_update_where_other; [reflexivity|reflexivity|].
  intros r. now apply has_key_other.
Qed.

(** X12. [get_contextual_response] writes only the profile of the author of
    the message, in the scope of the message's guild ([0] without one): the
    records of every other key, the reaction log, the busy bits and the
    flags are as before; the counter changes only when a reply was sent; and
    without a client nothing happens at all. *)
Theorem response_writes_author_only self m r delivered :
  let after := get_contextual_response self m r delivered in
  let scope := match guild m with Some g => g | None => 0 end in
  set_boredom (boredom_level self) (set_memories (memories self) (fst after)) = self
  /\ (forall uid gid,
        (uid, gid) <> (author_id m, scope) ->
        Store.select_profile uid gid (memories (fst after))
        = Store.select_profile uid gid (memories self))
  /\ (snd after = None -> boredom_level (fst after) = boredom_level self)
  /\ (client self = false -> after = (self, None)).
Proof.
  unfold get_contextual_response.
  destruct (client self); cbn [negb];
    [|cbn [fst snd]; split; [now destruct self|split; [reflexivity|split; reflexivity]]].
  set (scope := match guild m with Some g => g | None => 0 end).
  pose proof (get_user_profile_other (memories self) (author_id m)
                (author_display_name m) scope) as G.
  destruct (Store.get_user_profile _ _ _ _) as [rows1 p]. simpl in G.
  assert (T : forall rows (x : AICore * option string),
             (forall uid gid, (uid, gid) <> (author_id m, scope) ->
                Store.select_profile uid gid rows
                = Store.select_profile uid gid (memories self)) ->
             (x = (set_memories rows self, None)
              \/ exists reply, x = (set_boredom 0 (set_memories rows self), Some reply)) ->
             set_boredom (boredom_level self) (set_memories (memories self) (fst x)) = self
             /\ (forall uid gid, (uid, gid) <> (author_id m, scope) ->
                   Store.select_profile uid gid (memories (fst x))
                   = Store.select_profile uid gid (memories self))
             /\ (snd x = None -> boredom_level (fst x) = boredom_level self)
             /\ (true = false -> x = (self, None))).
  { intros rows x Hrows [->|[reply ->]]; simpl;
      (split; [now destruct self|split; [exact Hrows|split; [|discriminate]]]);
      [reflexivity|discriminate]. }
  destruct r as [|[text|]]; try (apply (T rows1); [exact G|now left]).
  destruct (memorize_block _ _) as [[reply1 mem]|]; [|apply (T rows1); [exact G|now left]].
  set (rows2 := match mem with
                | Some s => if truthy s
                            then Store.append_user_memory rows1 (author_id m) s scope
                            else rows1
                | None => rows1
                end).
  assert (G2 : forall uid gid, (uid, gid) <> (author_id m, scope) ->
                 Store.select_profile uid gid rows2
                 = Store.select_profile uid gid (memories self)).
  { intros uid gid Hne. unfold rows2. destruct mem as [s|]; [|now apply G].
    destruct (truthy s); [|now apply G].
    rewrite append_user_memory_other by assumption. now apply G. }
  assert (E2 : match mem with
               | Some s => if truthy s
                           then set_memories
                                  (Store.append_user_memory (memories (set_memories rows1 self))
                                     (author_id m) s scope) (set_memories rows1 self)
                           else set_memories rows1 self
               | None => set_memories rows1 self
               end = set_memories rows2 self).
  { unfold rows2. destruct mem as [s|]; [|reflexivity]. now destruct (truthy s). }
  rewrite E2.
  destruct (relationship_block _ _) as [[reply2 rel]|]; [|apply (T rows2); [exact G2|now left]].
  set (rows3 := match rel with
                | Some s => if truthy s
                            then Store.set_user_relationship rows2 (author_id m) s scope
                            else rows2
                | None => rows2
                end).
  assert (G3 : forall uid gid, (uid, gid) <> (author_id m, scope) ->
                 Store.select_profile uid gid rows3
                 = Store.select_profile uid gid (memories self)).
  { intros uid gid Hne. unfold rows3. destruct rel as [s|]; [|now apply G2].
    destruct (truthy s); [|now apply G2].
    rewrite set_user_relationship_other by assumption. now apply G2. }
  assert (E3 : match rel with
               | Some s => if truthy s
                           then set_memories
                                  (Store.set_user_relationship (memories (set_memories rows2 self))
                                     (author_id m) s scope) (set_memories rows2 self)
                           else set_memories rows2 self
               | None => set_memories rows2 self
               end = set_memories rows3 self).
  { unfold rows3. destruct rel as [s|]; [|reflexivity]. now destruct (truthy s). }
  rewrite E3.
  destruct (truthy reply2); [|apply (T rows3); [exact G3|now left]].
  destruct delivered; apply (T rows3); try exact G3; [right; eauto|now left].
Qed.

End AgentMore.

(** ** The response parser: when it raises, and what is sent *)

Section ParserMore.
Import Agent.

(** Trimming neither makes nor breaks an occurrence of a marker that has no
    blank at either end. *)
Lemma contains_strip_marker c mid d s :
  is_space c = false -> is_space d = false ->
  contains (String c (mid +:+ String d "")) (strip s)
  = contains (String c (mid +:+ String d "")) s.
Proof.
  intros Hc Hd. set (marker := String c (mid +:+ String d "")).
  assert (Hm : marker <> "") by discriminate.
  destruct (contains marker s) eqn:E.
  - apply contains_spec in E as (l & r & ->); [|assumption].
    apply contains_spec; [assumption|]. exists (lstrip l), (rstrip r).
    assert (F : forall x, marker +:+ x = String c (mid +:+ String d x)).
    { intros x. unfold marker. rewrite append_cons. f_equal.
      now rewrite append_assoc. }
    now rewrite !F, strip_marked.
  - now apply contains_strip.
Qed.

Lemma contains_strip_MEMORIZE s : contains MEMORIZE (strip s) = contains MEMORIZE s.
Proof. apply (contains_strip_marker "[" "MEMORIZE" "]"); reflexivity. Qed.

Lemma contains_strip_RELATIONSHIP s :
  contains RELATIONSHIP (strip s) = contains RELATIONSHIP s.
Proof. apply (contains_strip_marker "[" "RELATIONSHIP" "]"); reflexivity. Qed.

(** X13. The parser raises exactly when both markers occur in the trimmed
    text and no relationship marker stands before the first memorize marker,
    and what it raises is [IndexError]: in particular whenever the text
    follows the order the prompt gives, memorize line first. *)
Theorem parse_response_raises_iff text :
  (forall e, parse_response text = Raise e -> e = IndexError)
  /\ (parse_response text = Raise IndexError
      <-> exists before rest,
            strip text = before +:+ MEMORIZE +:+ rest
            /\ contains MEMORIZE before = false
            /\ contains RELATIONSHIP before = false
            /\ contains RELATIONSHIP (strip text) = true).
Proof.
  unfold parse_response. set (full := strip text).
  rewrite memorize_block_directive.
  pose proof MEMORIZE_nonempty as HM. pose proof RELATIONSHIP_nonempty as HR.
  destruct (contains MEMORIZE full) eqn:Em.
  - rewrite directive_block_ran by assumption.
    destruct (cut MEMORIZE full) as [[p0 rest]|] eqn:Ec.
    2:{ apply cut_None_contains in Ec. congruence. }
    cbn [bind fst snd]. rewrite relationship_block_directive.
    pose proof (cut_Some _ _ _ _ HM Ec) as [Hfull Hp0].
    apply cut_None_contains in Hp0.
    destruct (contains RELATIONSHIP full) eqn:Er.
    + rewrite directive_block_ran by assumption.
      destruct (cut RELATIONSHIP (strip p0)) as [[q0 rest']|] eqn:Ec'.
      * cbn [bind]. split; [discriminate|]. split; [discriminate|].
        intros (before & rest0 & Hb & Hbm & Hbr & _). exfalso.
        assert (Hcut : cut MEMORIZE (before +:+ MEMORIZE +:+ rest0) = Some (before, rest0))
          by (apply (cut_first "[" "MEMORIZE]"); [reflexivity|exact Hbm]).
        rewrite <- Hb, Ec in Hcut. injection Hcut as -> _.
        apply (contains_strip RELATIONSHIP) in Hbr; [|assumption].
        apply cut_None_contains in Hbr. congruence.
      * cbn [bind]. split; [now intros e [= <-]|]. split; [|reflexivity].
        intros _. exists p0, rest. repeat split; try assumption.
        apply cut_None_contains in Ec'. now rewrite contains_strip_RELATIONSHIP in Ec'.
    + rewrite directive_block_skipped by assumption. cbn [bind].
      split; [discriminate|]. split; [discriminate|].
      now intros (_ & _ & _ & _ & _ & ?).
  - rewrite directive_block_skipped by assumption. cbn [bind fst snd].
    rewrite relationship_block_directive.
    assert (N : ~ exists before rest,
                  full = before +:+ MEMORIZE +:+ rest
                  /\ contains MEMORIZE before = false
                  /\ contains RELATIONSHIP before = false
                  /\ contains RELATIONSHIP full = true).
    { intros (before & rest & Hb & _). apply contains_false in Em; [|assumption].
      apply Em. now exists before, rest. }
    destruct (contains RELATIONSHIP full) eqn:Er.
    + rewrite directive_block_ran by assumption.
      destruct (cut RELATIONSHIP full) as [[q0 rest']|] eqn:Ec'.
      * cbn [bind]. split; [discriminate|]. split; [discriminate|]. intros H. now apply N in H.
      * apply cut_None_contains in Ec'. congruence.
    + rewrite directive_block_skipped by assumption. cbn [bind].
      split; [discriminate|]. split; [discriminate|]. intros H. now apply N in H.
Qed.

Lemma parse_response_raises_iff_witness :
  parse_response "ok [MEMORIZE] likes tea [RELATIONSHIP] friendly" = Raise IndexError.
Proof.
  refine (proj2 (proj2 (parse_response_raises_iff
            "ok [MEMORIZE] likes tea [RELATIONSHIP] friendly")) _).
  exists "ok ", " likes tea [RELATIONSHIP] friendly". repeat split.
Defined.

(** The reply of [get_contextual_response] in terms of the parser. *)
Lemma response_reply self m text delivered :
  client self = true ->
  snd (get_contextual_response self m (Response (Some text)) delivered)
  = match parse_response text with
    | Ok d => if truthy (reply_text d) && delivered then Some (reply_text d) else None
    | Raise _ => None
    end.
Proof.
  intros Hc. unfold get_contextual_response, parse_response. rewrite Hc. cbn [negb].
  destruct (Store.get_user_profile _ _ _ _) as [rows1 p].
  destruct (memorize_block _ _) as [[reply1 mem]|]; [|reflexivity].
  cbn [bind fst snd].
  destruct (relationship_block _ _) as [[reply2 rel]|]; [|reflexivity].
  cbn [bind fst snd reply_text].
  destruct (truthy reply2); [|reflexivity]. now destruct delivered.
Qed.

(** X14. A reply is sent exactly when there is a client, the service
    returned a text that the parser accepts with a non-empty reply, and the
    sending went through; what is sent is the parser's reply, and so it
    holds neither marker. *)
Theorem reply_sent_iff self m r delivered reply :
  (snd (get_contextual_response self m r delivered) = Some reply
   <-> client self = true /\ delivered = true /\ reply <> ""
       /\ exists text d,
            r = Response (Some text) /\ parse_response text = Ok d
            /\ reply_text d = reply)
  /\ (snd (get_contextual_response self m r delivered) = Some reply -> marker_free reply).
Proof.
  assert (A : snd (get_contextual_response self m r delivered) = Some reply
              <-> client self = true /\ delivered = true /\ reply <> ""
                  /\ exists text d,
                       r = Response (Some text) /\ parse_response text = Ok d
                       /\ reply_text d = reply).
  { destruct (client self) eqn:Hc.
    - destruct r as [|[text|]].
      + unfold get_contextual_response. rewrite Hc. cbn [negb].
        destruct (Store.get_user_profile _ _ _ _) as [rows1 p].
        split; [discriminate|]. now intros (_ & _ & _ & t & d & ? & _).
      + rewrite response_reply by assumption.
        destruct (parse_response text) as [d|e] eqn:Hp.
        * destruct (reply_text d) as [|c s] eqn:Hr; cbn [truthy andb].
          -- split; [discriminate|].
             intros (_ & _ & Hne & t & d' & [= <-] & Hp' & Hd).
             rewrite Hp in Hp'. injection Hp' as <-. congruence.
          -- destruct delivered.
             ++ split.
                ** intros [= <-]. repeat split; try discriminate.
                   exists text, d. now repeat split.
                ** intros (_ & _ & _ & t & d' & [= <-] & Hp' & Hd).
                   rewrite Hp in Hp'. injection Hp' as <-. congruence.
             ++ split; [discriminate|]. now intros (_ & ? & _).
        * split; [discriminate|].
          intros (_ & _ & _ & t & d & [= <-] & Hp' & _). congruence.
      + unfold get_contextual_response. rewrite Hc. cbn [negb].
        destruct (Store.get_user_profile _ _ _ _) as [rows1 p].
        split; [discriminate|]. now intros (_ & _ & _ & t & d & ? & _).
    - unfold get_contextual_response. rewrite Hc. cbn [negb snd].
      split; [discriminate|]. now intros [? _]. }
  split; [exact A|].
  intros H. apply A in H as (_ & _ & _ & text & d & _ & Hp & <-).
  now apply parse_response_marker_free in Hp as [? _].
Qed.

Lemma reply_sent_iff_witness :
  snd (get_contextual_response (Core true [] [] 3 ∅ false)
         (Message 7 false "ann" None 40 [] None "hey")
         (Response (Some " hello [RELATIONSHIP] friendly")) true)
  = Some "hello".
Proof.
  refine (proj2 (proj1 (reply_sent_iff (Core true [] [] 3 ∅ false)
                          (Message 7 false "ann" None 40 [] None "hey")
                          (Response (Some " hello [RELATIONSHIP] friendly")) true "hello")) _).
  repeat split; try discriminate.
  exists " hello [RELATIONSHIP] friendly", (Directives "hello" None (Some "friendly")).
  repeat split.
Defined.

End ParserMore.

(** ** The response parser: repeated markers *)

Section ParserDuplicates.
Import Agent.

Implicit Types (s l r t text full : string).

Lemma lstrip_blank s : exists l, s = l +:+ lstrip s /\ blank l = true.
Proof.
  induction s as [|c s (l & IH & Hl)]; [now exists ""|].
  simpl. destruct (is_space c) eqn:E; [|now exists ""].
  exists (String c l). rewrite append_cons, <- IH. simpl. now rewrite E.
Qed.

Lemma rstrip_blank s : exists t, s = rstrip s +:+ t /\ blank t = true.
Proof.
  induction s as [|c s (t & IH & Ht)]; [now exists ""|].
  simpl. destruct (rstrip s) as [|d u] eqn:E.
  - destruct (is_space c) eqn:Ec.
    + exists (String c s). split; [reflexivity|]. simpl. rewrite Ec.
      change ("" +:+ t) with t in IH. now rewrite IH.
    + exists s. split; [reflexivity|]. change ("" +:+ t) with t in IH. now rewrite IH.
  - exists t. now rewrite append_cons, <- IH.
Qed.

Lemma strip_blank s : exists l t, s = l +:+ strip s +:+ t /\ blank l = true /\ blank t = true.
Proof.
  unfold strip. destruct (lstrip_blank s) as (l & Hl & Bl).
  destruct (rstrip_blank (lstrip s)) as (t & Ht & Bt).
  exists l, t. now rewrite <- Ht.
Qed.

Lemma rstrip_of_blank t : blank t = true -> rstrip t = "".
Proof.
  induction t as [|c t IH]; [reflexivity|]. simpl.
  intros [Hc Ht]%andb_true_iff. now rewrite IH, Hc.
Qed.

Lemma rstrip_app_blank s t : blank t = true -> rstrip (s +:+ t) = rstrip s.
Proof.
  intros Ht. induction s as [|c s IH].
  - change ("" +:+ t) with t. now rewrite rstrip_of_blank.
  - rewrite append_cons. simpl. now rewrite IH.
Qed.

Lemma lstrip_of_blank t : blank t = true -> lstrip t = "".
Proof.
  induction t as [|c t IH]; [reflexivity|]. simpl.
  intros [Hc Ht]%andb_true_iff. rewrite Hc. now apply IH.
Qed.

Lemma strip_app_blank s t : blank t = true -> strip (s +:+ t) = strip s.
Proof.
  intros Ht. unfold strip. induction s as [|c s IH].
  - change ("" +:+ t) with t. now rewrite lstrip_of_blank.
  - rewrite append_cons. simpl. destruct (is_space c); [exact IH|].
    rewrite <- append_cons. now apply rstrip_app_blank.
Qed.

Lemma strip_blank_app l s : blank l = true -> strip (l +:+ s) = strip s.
Proof.
  unfold strip. induction l as [|c l IH]; [reflexivity|].
  cbn [blank]. intros [Hc Hl]%andb_true_iff. rewrite append_cons.
  cbn [lstrip]. rewrite Hc. now apply IH.
Qed.

Lemma strip_idem s : strip (strip s) = strip s.
Proof.
  destruct (strip_blank s) as (l & t & E & Hl & Ht).
  rewrite E at 2. now rewrite strip_blank_app, strip_app_blank.
Qed.

(** No blank character is a character of a marker. *)
Lemma MEMORIZE_spaceless c : is_space c = true -> occurs c MEMORIZE = false.
Proof.
  destruct c as [[] [] [] [] [] [] [] []]; intros H; vm_compute in H |- *; congruence.
Qed.

Lemma RELATIONSHIP_spaceless c : is_space c = true -> occurs c RELATIONSHIP = false.
Proof.
  destruct c as [[] [] [] [] [] [] [] []]; intros H; vm_compute in H |- *; congruence.
Qed.

Lemma contains_nil sep : sep <> "" -> contains sep "" = false.
Proof. intros H. unfold contains. now rewrite cut_nil. Qed.

Lemma contains_app_blank sep s t :
  sep <> "" -> (forall c, is_space c = true -> occurs c sep = false) ->
  blank t = true -> contains sep (s +:+ t) = contains sep s.
Proof.
  intros Hsep Hocc. revert s. induction t as [|c t IH]; intros s Ht.
  - now rewrite append_nil_r.
  - simpl in Ht. apply andb_true_iff in Ht as [Hc Ht].
    rewrite contains_append_char by auto.
    specialize (IH "" Ht). change ("" +:+ t) with t in IH.
    rewrite IH, contains_nil by assumption. now rewrite orb_false_r.
Qed.

Lemma contains_blank_app sep l s :
  sep <> "" -> (forall c, is_space c = true -> occurs c sep = false) ->
  blank l = true -> contains sep (l +:+ s) = contains sep s.
Proof.
  intros Hsep Hocc. induction l as [|c l IH]; [reflexivity|].
  cbn [blank]. intros [Hc Hl]%andb_true_iff. rewrite append_cons.
  rewrite contains_cons_other by auto. now apply IH.
Qed.

Lemma marker_free_app_blank s t : blank t = true -> marker_free s -> marker_free (s +:+ t).
Proof.
  intros Ht [HM HR]. split.
  - rewrite contains_app_blank; auto using MEMORIZE_nonempty, MEMORIZE_spaceless.
  - rewrite contains_app_blank; auto using RELATIONSHIP_nonempty, RELATIONSHIP_spaceless.
Qed.

(** The front of a text at [sep]: the text itself, or what stands before
    the first [sep]. *)
Lemma cut_front_rest sep s :
  sep <> "" ->
  let front := match cut sep s with Some (l, _) => l | None => s end in
  contains sep front = false /\ (s = front \/ exists x, s = front +:+ sep +:+ x).
Proof.
  intros Hsep. destruct (cut sep s) as [[l r]|] eqn:E; simpl.
  - apply cut_Some in E as [-> E]; [|assumption]. split.
    + now apply cut_None_contains.
    + right. eauto.
  - split; [now apply cut_None_contains|now left].
Qed.

(** A block that runs on the whole text: its reply is the trimmed text
    before the first [marker], its payload the trimmed text from there to
    the next [marker] or [other]. *)
Lemma directive_block_first marker other full :
  marker <> "" -> other <> "" -> contains marker full = true ->
  exists before seg rest,
    full = before +:+ marker +:+ seg +:+ rest
    /\ contains marker before = false
    /\ contains marker seg = false /\ contains other seg = false
    /\ (rest = "" \/ startswith rest marker = true \/ startswith rest other = true)
    /\ directive_block marker other full full = Ok (strip before, Some (strip seg)).
Proof.
  intros Hm Ho Hin. rewrite directive_block_ran by assumption.
  destruct (cut marker full) as [[p0 rest0]|] eqn:E;
    [|apply cut_None_contains in E; congruence].
  apply cut_Some in E as [-> Hp0]; [|assumption]. apply cut_None_contains in Hp0.
  cbv zeta.
  destruct (cut_front_rest marker rest0 Hm) as [Hp1 R1].
  set (p1 := match cut marker rest0 with Some (l, _) => l | None => rest0 end) in *.
  destruct (cut_front_rest other p1 Ho) as [Hq0 R2].
  set (q0 := match cut other p1 with Some (l, _) => l | None => p1 end) in *.
  clearbody q0. clearbody p1. clear Hin.
  assert (Hq0m : contains marker q0 = false).
  { destruct R2 as [E|[y E]]; [now rewrite <- E|].
    rewrite E in Hp1. now apply contains_prefix in Hp1. }
  destruct R2 as [E2|[y E2]], R1 as [E1|[x E1]].
  - exists p0, q0, "". rewrite append_nil_r, E1, E2. repeat split; auto.
  - exists p0, q0, (marker +:+ x). rewrite E1, E2. repeat split; auto.
    right; left. apply startswith_append.
  - exists p0, q0, (other +:+ y). rewrite E1, E2 at 1. repeat split; auto.
    right; right. apply startswith_append.
  - exists p0, q0, (other +:+ y +:+ marker +:+ x). rewrite E1, E2 at 1.
    rewrite !append_assoc. repeat split; auto.
    right; right. apply startswith_append.
Qed.

(** The relationship block after a memorize block that ran: it works on the
    trimmed text before the first [MEMORIZE]. *)
Lemma relationship_after_memorize full p0 rest0 reply2 rel :
  full = p0 +:+ MEMORIZE +:+ rest0 -> contains MEMORIZE p0 = false ->
  directive_block RELATIONSHIP MEMORIZE full (strip p0) = Ok (reply2, Some rel) ->
  first_payload RELATIONSHIP full rel
  /\ exists pre rest,
       full = pre +:+ rest /\ marker_free pre /\ ends_payload rest /\ reply2 = strip pre.
Proof.
  intros Hfull Hp0 H.
  pose proof MEMORIZE_nonempty as HM. pose proof RELATIONSHIP_nonempty as HR.
  destruct (contains RELATIONSHIP full) eqn:Hin;
    [|now rewrite directive_block_skipped in H].
  rewrite directive_block_ran in H by assumption.
  destruct (cut RELATIONSHIP (strip p0)) as [[a x]|] eqn:E; [|discriminate].
  apply cut_Some in E as [E Ha]; [|assumption]. apply cut_None_contains in Ha.
  destruct (strip_blank p0) as (l & t & Ep0 & Hl & Ht).
  assert (Hs : contains MEMORIZE (strip p0) = false) by now apply contains_strip.
  assert (Hx : contains MEMORIZE x = false).
  { rewrite E in Hs. apply contains_suffix in Hs; [|assumption].
    now apply contains_suffix in Hs. }
  assert (Ham : contains MEMORIZE a = false).
  { rewrite E in Hs. now apply contains_prefix in Hs. }
  destruct (cut_front_rest RELATIONSHIP x HR) as [Hp1 R1].
  set (p1 := match cut RELATIONSHIP x with Some (l, _) => l | None => x end) in *.
  assert (Hp1m : contains MEMORIZE p1 = false).
  { destruct R1 as [E1|[y E1]]; [now rewrite <- E1|].
    rewrite E1 in Hx. now apply contains_prefix in Hx. }
  cbv zeta in H. fold p1 in H. apply cut_None_contains in Hp1m. rewrite Hp1m in H.
  injection H as <- <-.
  assert (Hla : marker_free (l +:+ a)).
  { split; rewrite contains_blank_app;
      auto using MEMORIZE_spaceless, RELATIONSHIP_spaceless. }
  assert (F : full = l +:+ a +:+ RELATIONSHIP +:+ x +:+ t +:+ MEMORIZE +:+ rest0).
  { rewrite Hfull, Ep0, E. now rewrite !append_assoc. }
  split.
  - destruct R1 as [E1|[y E1]].
    + exists (l +:+ a), (p1 +:+ t), (MEMORIZE +:+ rest0).
      split; [rewrite F, E1; now rewrite !append_assoc|].
      split; [apply Hla|].
      split; [apply marker_free_app_blank; [assumption|]; split;
              [now apply cut_None_contains|assumption]|].
      split; [right; left; apply startswith_append|].
      now rewrite strip_app_blank.
    + exists (l +:+ a), p1, (RELATIONSHIP +:+ y +:+ t +:+ MEMORIZE +:+ rest0).
      split; [rewrite F, E1; now rewrite !append_assoc|].
      split; [apply Hla|].
      split; [split; [now apply cut_None_contains|assumption]|].
      split; [right; right; apply startswith_append|reflexivity].
  - exists (l +:+ a), (RELATIONSHIP +:+ x +:+ t +:+ MEMORIZE +:+ rest0).
    split; [rewrite F; now rewrite !append_assoc|].
    split; [exact Hla|].
    split; [right; right; apply startswith_append|].
    now rewrite strip_blank_app.
Qed.

(** C5 (as amended). Only the first occurrence of a marker starts a
    directive, and a later occurrence of a marker is never part of a
    payload: each payload is the trimmed text between the first occurrence
    of its marker and the next occurrence of a marker of either kind (or the
    end of the text), so a repeated marker cuts the preceding payload short
    and starts no directive of its own. This holds for the memory payload
    whenever its marker occurs, and for every field of a text the parser
    accepts; the reply is the trimmed text before the first marker. Where a
    marker is written twice and the other not at all, the payload is the
    trimmed text between the two occurrences. *)
Theorem duplicate_marker_cuts_payload :
  (forall text,
      contains MEMORIZE (strip text) = true ->
      exists reply1 mem,
        memorize_block (strip text) (strip text) = Ok (reply1, Some mem)
        /\ first_payload MEMORIZE (strip text) mem)
  /\ (forall text d,
        parse_response text = Ok d ->
        (forall mem, memory_summary d = Some mem ->
                     first_payload MEMORIZE (strip text) mem /\ marker_free mem)
        /\ (forall rel, new_relationship d = Some rel ->
                        first_payload RELATIONSHIP (strip text) rel /\ marker_free rel)
        /\ (memory_summary d = None <-> contains MEMORIZE (strip text) = false)
        /\ (new_relationship d = None <-> contains RELATIONSHIP (strip text) = false)
        /\ (exists pre rest,
              strip text = pre +:+ rest /\ marker_free pre /\ ends_payload rest
              /\ reply_text d = strip pre))
  /\ (forall pre a rest,
        let text := pre +:+ MEMORIZE +:+ a +:+ MEMORIZE +:+ rest in
        contains MEMORIZE pre = false -> contains MEMORIZE a = false ->
        contains RELATIONSHIP text = false ->
        parse_response text = Ok (Directives (strip pre) (Some (strip a)) None))
  /\ (forall pre a rest,
        let text := pre +:+ RELATIONSHIP +:+ a +:+ RELATIONSHIP +:+ rest in
        contains RELATIONSHIP pre = false -> contains RELATIONSHIP a = false ->
        contains MEMORIZE text = false ->
        parse_response text = Ok (Directives (strip pre) None (Some (strip a)))).
Proof.
  pose proof MEMORIZE_nonempty as HM. pose proof RELATIONSHIP_nonempty as HR.
  split; [|split; [|split]].
  - intros text Hin.
    destruct (directive_block_first MEMORIZE RELATIONSHIP (strip text) HM HR Hin)
      as (before & seg & rest & E & Hb & Hs1 & Hs2 & Hr & B).
    exists (strip before), (strip seg). split; [exact B|].
    exists before, seg, rest. repeat split; assumption.
  - intros text d Hparse.
    destruct (parse_response_marker_free text d Hparse) as (_ & Fm & Fr).
    revert Hparse Fm Fr. unfold parse_response. set (full := strip text).
    rewrite memorize_block_directive.
    destruct (directive_block MEMORIZE RELATIONSHIP full full) as [[reply1 mem]|] eqn:E1;
      [|discriminate].
    cbn [bind fst snd]. rewrite relationship_block_directive.
    destruct (directive_block RELATIONSHIP MEMORIZE full reply1) as [[reply2 rel]|] eqn:E2;
      [|discriminate].
    cbn [bind fst snd]. intros [= <-] Fm Fr.
    cbn [memory_summary new_relationship reply_text] in *.
    destruct (contains MEMORIZE full) eqn:HinM.
    + destruct (directive_block_first MEMORIZE RELATIONSHIP full HM HR HinM)
        as (before & seg & rest & E & Hb & Hs1 & Hs2 & Hr & B).
      rewrite B in E1. injection E1 as <- <-.
      assert (PM : first_payload MEMORIZE full (strip seg)).
      { exists before, seg, rest. repeat split; assumption. }
      destruct (contains RELATIONSHIP full) eqn:HinR.
      * destruct rel as [rel|].
        -- destruct (relationship_after_memorize full before (seg +:+ rest) reply2 rel
                       E Hb E2) as [PR Rp].
           split; [intros ? [= <-]; split; [exact PM|now apply Fm]|].
           split; [intros ? [= <-]; split; [exact PR|now apply Fr]|].
           split; [split; discriminate|]. split; [split; discriminate|exact Rp].
        -- rewrite directive_block_ran in E2 by assumption.
           destruct (cut RELATIONSHIP (strip before)) as [[a x]|]; discriminate.
      * rewrite directive_block_skipped in E2 by assumption. injection E2 as <- <-.
        split; [intros ? [= <-]; split; [exact PM|now apply Fm]|].
        split; [discriminate|]. split; [split; discriminate|]. split; [tauto|].
        exists before, (MEMORIZE +:+ seg +:+ rest). split; [exact E|].
        split; [|split; [right; left; apply startswith_append|reflexivity]].
        split; [exact Hb|]. rewrite E in HinR. now apply contains_prefix in HinR.
    + rewrite directive_block_skipped in E1 by assumption. injection E1 as <- <-.
      destruct (contains RELATIONSHIP full) eqn:HinR.
      * destruct (directive_block_first RELATIONSHIP MEMORIZE full HR HM HinR)
          as (before & seg & rest & E & Hb & Hs1 & Hs2 & Hr & B).
        rewrite B in E2. injection E2 as <- <-.
        split; [discriminate|].
        split; [intros ? [= <-]; split; [|now apply Fr]|].
        { exists before, seg, rest. repeat split; try assumption.
          unfold ends_payload. tauto. }
        split; [tauto|]. split; [split; discriminate|].
        exists before, (RELATIONSHIP +:+ seg +:+ rest). split; [exact E|].
        split; [|split; [right; right; apply startswith_append|reflexivity]].
        split; [|exact Hb]. rewrite E in HinM. now apply contains_prefix in HinM.
      * rewrite directive_block_skipped in E2 by assumption. injection E2 as <- <-.
        split; [discriminate|]. split; [discriminate|]. split; [tauto|]. split; [tauto|].
        exists full, "". rewrite append_nil_r. split; [reflexivity|].
        split; [now split|]. split; [now left|]. unfold full. now rewrite strip_idem.
  - intros pre a rest text Hpre Ha Hother. unfold parse_response.
    destruct (repeated_marker_trimmed "[" "MEMORIZE" "]" RELATIONSHIP pre a rest)
      as (B & O & _); try assumption; try reflexivity; try discriminate.
    change (String "[" ("MEMORIZE" +:+ "]")) with MEMORIZE in B, O. fold text in B, O.
    rewrite memorize_block_directive, B. simpl.
    rewrite relationship_block_directive, directive_block_skipped by assumption.
    reflexivity.
  - intros pre a rest text Hpre Ha Hother. unfold parse_response.
    destruct (repeated_marker_trimmed "[" "RELATIONSHIP" "]" MEMORIZE pre a rest)
      as (B & O & _); try assumption; try reflexivity; try discriminate.
    change (String "[" ("RELATIONSHIP" +:+ "]")) with RELATIONSHIP in B, O.
    fold text in B, O.
    rewrite memorize_block_directive, directive_block_skipped by assumption.
    simpl. rewrite relationship_block_directive, B. reflexivity.
Qed.

Lemma duplicate_marker_cuts_payload_witness :
  first_payload RELATIONSHIP
    (strip "a [RELATIONSHIP] r1 [MEMORIZE] m [RELATIONSHIP] r2") "r1"
  /\ marker_free "r1".
Proof.
  exact (proj1 (proj2 (proj1 (proj2 duplicate_marker_cuts_payload)
                         "a [RELATIONSHIP] r1 [MEMORIZE] m [RELATIONSHIP] r2"
                         (Directives "a" (Some "m") (Some "r1")) eq_refl))
           "r1" eq_refl).
Defined.

End ParserDuplicates.

(** ** The filters of [on_message], the stealth flag and the summaries *)

Section ReactiveMore.
Import Agent.

Variable re_search_word : string -> string -> bool.

Implicit Types (b : bot) (self : AICore) (m : message).

(** X15. [on_message] starts a cycle only for a message that is not the
    account's own, not a bot's and not an ignored user's, that passes the
    activation check of its guild when it has one, whose channel is not
    busy, and that mentions the account, replies to it or holds a trigger
    word; the only change it then makes is the channel's busy bit. In every
    other case [on_message] leaves the state as it is. *)
Theorem entered_only_if b self m :
  (forall self',
      on_message_enter re_search_word b self m = Entered self' ->
      author_id m <> bot_user b /\ author_bot m = false
      /\ (author_id m ∉ ignored_users b)
      /\ (forall g, guild m = Some g -> outside_active_channels b g m = false)
      /\ busy self (channel_id m) = false
      /\ (is_mentioned b m = true \/ is_reply b m = Ok true
          \/ triggered re_search_word b m = true)
      /\ self' = set_thinking (<[channel_id m := true]> (is_thinking_in_channel self)) self)
  /\ ((forall self', on_message_enter re_search_word b self m <> Entered self') ->
      forall io, fst (on_message re_search_word b self m io) = self).
Proof.
  split.
  - intros self'. unfold on_message_enter, busy.
    destruct (Z.eqb_spec (author_id m) (bot_user b)); [discriminate|].
    destruct (author_bot m); [discriminate|]. cbn [orb].
    case_bool_decide as Hign; [discriminate|].
    destruct (match guild m with Some _ => _ | None => _ end) eqn:Hg; [discriminate|].
    destruct (default false _); [discriminate|].
    destruct (is_reply b m) as [replied|]; [|discriminate].
    destruct (is_mentioned b m) eqn:Hm; cbn [orb negb].
    + intros [= <-]. repeat split; try assumption; [|now left].
      intros g Hgm. now rewrite Hgm in Hg.
    + destruct replied; cbn [orb negb].
      * intros [= <-]. repeat split; try assumption; [|right; now left].
        intros g Hgm. now rewrite Hgm in Hg.
      * destruct (triggered re_search_word b m); [|discriminate]. cbn [negb].
        intros [= <-]. repeat split; try assumption; [|right; now right].
        intros g Hgm. now rewrite Hgm in Hg.
  - intros H io. unfold on_message.
    destruct (on_message_enter re_search_word b self m) as [| |self1]; try reflexivity.
    now destruct (H self1).
Qed.

Lemma enter_with_stealth b self m on :
  on_message_enter re_search_word b (Cog.set_stealth on self) m
  = entry_with_stealth on (on_message_enter re_search_word b self m).
Proof.
  unfold on_message_enter. cbn [Cog.set_stealth is_thinking_in_channel].
  repeat match goal with
         | |- context [if ?c then _ else _] => destruct c
         | |- context [match is_reply ?x ?y with _ => _ end] => destruct (is_reply x y)
         end; reflexivity.
Qed.

Lemma respond_with_stealth self m r d on :
  get_contextual_response (Cog.set_stealth on self) m r d
  = (Cog.set_stealth on (fst (get_contextual_response self m r d)),
     snd (get_contextual_response self m r d)).
Proof.
  unfold get_contextual_response. cbn [Cog.set_stealth client memories].
  destruct (negb (client self)); [reflexivity|].
  destruct (Store.get_user_profile _ _ _ _) as [rows1 p].
  destruct r as [|[text|]]; try reflexivity.
  destruct (memorize_block _ _) as [[reply1 [mem|]]|]; try reflexivity;
    destruct (relationship_block _ _) as [[reply2 [rel|]]|];
    repeat match goal with |- context [if ?c then _ else _] => destruct c end;
    reflexivity.
Qed.

(** X16. The stealth command turns the flag on for [on], off for [off], in
    any mix of cases, and changes nothing for another word. With the flag
    on, a tick of the boredom loop and a tick of the reaction loop do
    nothing. The flag does not touch the reactive path: [on_message] takes
    the same course and makes the same writes with it as without it, and the
    summarization loop runs the same too. *)
Theorem stealth_suppresses_autonomous_only self mode :
  (lower mode = "on" -> fst (Cog.stealth_command self mode) = Cog.set_stealth true self)
  /\ (lower mode = "off" -> fst (Cog.stealth_command self mode) = Cog.set_stealth false self)
  /\ (lower mode <> "on" -> lower mode <> "off" ->
      fst (Cog.stealth_command self mode) = self)
  /\ (forall b io,
        autonomous_message_loop b (Cog.set_stealth true self) io
        = (Cog.set_stealth true self, None, None))
  /\ (forall target_channels now history,
        autonomous_reaction_loop (Cog.set_stealth true self) target_channels now history
        = (Cog.set_stealth true self, None))
  /\ (forall b m io on,
        on_message re_search_word b (Cog.set_stealth on self) m io
        = (Cog.set_stealth on (fst (on_message re_search_word b self m io)),
           snd (on_message re_search_word b self m io)))
  /\ (forall configured service on,
        Cog.summarize_memories_loop configured service (Cog.set_stealth on self)
        = Cog.set_stealth on (Cog.summarize_memories_loop configured service self)).
Proof.
  split; [|split; [|split; [|split; [|split; [|split]]]]].
  - intros H. unfold Cog.stealth_command. now rewrite H.
  - intros H. unfold Cog.stealth_command. now rewrite H.
  - intros H1 H2. unfold Cog.stealth_command.
    destruct (String.eqb_spec (lower mode) "on"); [congruence|].
    now destruct (String.eqb_spec (lower mode) "off").
  - reflexivity.
  - reflexivity.
  - intros b m io on. unfold on_message. rewrite enter_with_stealth.
    destruct (on_message_enter re_search_word b self m) as [| |self1]; try reflexivity.
    cbn [entry_with_stealth]. unfold on_message_body, _should_respond_to_message.
    cbn [Cog.set_stealth client].
    destruct (negb (history_read io)); [reflexivity|].
    destruct (if negb (client self1) then false else _); [|reflexivity].
    fold (Cog.set_stealth on self1). rewrite respond_with_stealth. reflexivity.
  - intros configured service on. unfold Cog.summarize_memories_loop.
    cbn [Cog.set_stealth client memories]. now destruct (negb (client self)).
Qed.

End ReactiveMore.

Section ReactiveMoreWitnesses.
Import Agent.

Lemma entered_only_if_witness :
  fst (on_message (fun _ _ => false) (Bot 1 [9] ∅ [] None) (Core true [] [] 0 ∅ false)
         (Message 9 false "bob" None 40 [1] None "hey")
         (CycleIO true (Response (Some "yes")) (Response (Some "hi")) true))
  = Core true [] [] 0 ∅ false.
Proof.
  refine (proj2 (entered_only_if (fun _ _ => false) (Bot 1 [9] ∅ [] None)
                   (Core true [] [] 0 ∅ false)
                   (Message 9 false "bob" None 40 [1] None "hey")) _ _).
  intros self'. discriminate.
Defined.

Lemma stealth_suppresses_autonomous_only_witness :
  fst (Cog.stealth_command (Core true [] [] 0 ∅ false) "ON")
  = Core true [] [] 0 ∅ true.
Proof.
  exact (proj1 (stealth_suppresses_autonomous_only (fun _ _ => false)
                  (Core true [] [] 0 ∅ false) "ON") eq_refl).
Defined.

End ReactiveMoreWitnesses.

(** ** The summarization loop *)

Section SummariesMore.
Import Store.

Lemma update_where_app p f (l1 l2 : list memory_row) :
  update_where p f (l1 ++ l2) = update_where p f l1 ++ update_where p f l2.
Proof. unfold update_where. apply List.map_app. Qed.

Lemma keys_summarized threshold service rows :
  keys (List.map (summarized threshold service) rows) = keys rows.
Proof.
  unfold keys. rewrite List.map_map. apply List.map_ext. intros r.
  unfold summarized. destruct (_ >? _); [|reflexivity].
  destruct (service r) as [|[text|]]; try reflexivity. now destruct (truthy text).
Qed.

Lemma set_user_notes_unique (done rest : list memory_row) r s :
  NoDup (keys (done ++ r :: rest)) ->
  set_user_notes (done ++ r :: rest) (user_id r) s (guild_id r)
  = done ++ with_notes s r :: rest.
Proof.
  intros Hnd. unfold keys in Hnd. rewrite List.map_app in Hnd. simpl in Hnd.
  fold (keys done) (keys rest) in Hnd.
  apply NoDup_app in Hnd as (_ & Hdisj & Hnd).
  apply NoDup_cons in Hnd as [Hrest _].
  assert (Hdone : (user_id r, guild_id r) ∉ keys done).
  { intros Hin. apply (Hdisj _ Hin). apply elem_of_cons. now left. }
  unfold set_user_notes. rewrite update_where_app.
  rewrite (update_where_no_match _ _ done) by now apply find_None_keys.
  f_equal. unfold update_where at 1. simpl. fold (update_where (has_key (user_id r) (guild_id r)) (with_notes s) rest).
  rewrite (update_where_no_match _ _ rest) by now apply find_None_keys.
  unfold has_key. now rewrite !Z.eqb_refl.
Qed.

Lemma summarize_rows_map threshold service (done fetched : list memory_row) :
  NoDup (keys (done ++ fetched)) ->
  Cog.summarize_rows threshold service fetched
    (List.map (summarized threshold service) done ++ fetched)
  = List.map (summarized threshold service) (done ++ fetched).
Proof.
  revert done. induction fetched as [|r rest IH]; intros done Hnd.
  - simpl. now rewrite !app_nil_r.
  - assert (Hnd' : NoDup (keys ((done ++ [r]) ++ rest))) by now rewrite <- app_assoc.
    specialize (IH (done ++ [r]) Hnd').
    rewrite List.map_app in IH. simpl in IH. rewrite <- !app_assoc in IH. simpl in IH.
    rewrite <- IH. cbn [Cog.summarize_rows]. f_equal.
    assert (U : forall s,
               set_user_notes (List.map (summarized threshold service) done ++ r :: rest)
                 (user_id r) s (guild_id r)
               = List.map (summarized threshold service) done ++ with_notes s r :: rest).
    { intros s. apply set_user_notes_unique.
      unfold keys. rewrite List.map_app. fold (keys (List.map (summarized threshold service) done)).
      rewrite keys_summarized. unfold keys in Hnd. now rewrite List.map_app in Hnd. }
    change (summarized threshold service r)
      with (if Z.of_nat (String.length (notes r)) >? threshold
            then match service r with
                 | Response (Some text) =>
                     if truthy text then with_notes (strip text) r else r
                 | Response None => r
                 | ServiceError => r
                 end
            else r).
    destruct (_ >? _); [|reflexivity].
    destruct (service r) as [|[text|]]; try reflexivity.
    destruct (truthy text); [apply U|reflexivity].
Qed.

(** X17. One tick of the summarization loop, on a table without a repeated
    key: every row whose notes are longer than the threshold (1500 when none
    is configured) and for which the service returned a non-empty text gets
    that text, trimmed, as its notes; every other row, and so every row not
    longer than the threshold and every row whose request failed, is left as
    it is. No row is added or removed, and the relationships and names stay.
    Without a client the tick does nothing. *)
Theorem summarize_tick configured service (self : Agent.AICore) :
  (Agent.client self = false -> Cog.summarize_memories_loop configured service self = self)
  /\ (Agent.client self = true -> NoDup (keys (Agent.memories self)) ->
      Cog.summarize_memories_loop configured service self
      = Agent.set_memories
          (List.map (summarized (default 1500 configured) service) (Agent.memories self))
          self
      /\ keys (Agent.memories (Cog.summarize_memories_loop configured service self))
         = keys (Agent.memories self)).
Proof.
  unfold Cog.summarize_memories_loop. split.
  - now intros ->.
  - intros -> Hnd. cbn [negb].
    pose proof (summarize_rows_map (default 1500 configured) service [] (Agent.memories self)
                  Hnd) as E.
    simpl in E. rewrite E. split; [reflexivity|].
    cbn [Agent.set_memories Agent.memories]. apply keys_summarized.
Qed.

Lemma summarize_tick_witness :
  Cog.summarize_memories_loop (Some 5)
    (fun _ => Response (Some " - tea, cats "))
    (Agent.Core true [MemoryRow 7 0 None "- likes tea and cats" "friendly";
                      MemoryRow 8 0 None "- x" "neutral"] [] 0 ∅ false)
  = Agent.Core true [MemoryRow 7 0 None "- tea, cats" "friendly";
                     MemoryRow 8 0 None "- x" "neutral"] [] 0 ∅ false.
Proof.
  refine (proj1 (proj2 (summarize_tick (Some 5) (fun _ => Response (Some " - tea, cats "))
            (Agent.Core true [MemoryRow 7 0 None "- likes tea and cats" "friendly";
                              MemoryRow 8 0 None "- x" "neutral"] [] 0 ∅ false))
            eq_refl _)).
  repeat constructor; rewrite ?elem_of_cons, ?elem_of_nil; intros H;
    repeat destruct H as [H|H]; try discriminate H; exact H.
Defined.

End SummariesMore.

(** ** Eligible channels and the resolution of identifiers *)

Section ChannelsMore.
Import Discord Cog.

Lemma guild_get_channel_Some g channel_id c :
  guild_get_channel g channel_id = Some c ->
  c ∈ channels g /\ channel_ident c = channel_id.
Proof.
  unfold guild_get_channel. intros H. apply List.find_some in H as [Hin Heq].
  split; [now apply list_elem_of_In|]. now apply Z.eqb_eq.
Qed.

Lemma get_channel_Some guilds channel_id owner c :
  get_channel guilds channel_id = Some (owner, c) ->
  owner ∈ guilds /\ c ∈ channels owner /\ channel_ident c = channel_id.
Proof.
  induction guilds as [|g rest IH]; [discriminate|]. simpl.
  destruct (guild_get_channel g channel_id) as [c'|] eqn:E.
  - intros [= <- <-]. apply guild_get_channel_Some in E as [? ?].
    split; [apply elem_of_cons; now left|now split].
  - intros H. destruct (IH H) as (? & ? & ?).
    split; [apply elem_of_cons; now right|now split].
Qed.

(** X18. Every channel [_get_eligible_channels] returns is a channel of one
    of the account's guilds on which the account has the permission asked
    for, and it is a channel in which the activation check of [on_message]
    lets a message of that guild through: the loops act only where the
    reactive path answers. *)
Theorem eligible_channels_are_active (b : Agent.bot) guilds permission_check channel :
  channel ∈ _get_eligible_channels b guilds permission_check ->
  can channel permission_check = true
  /\ exists owner,
       owner ∈ guilds /\ channel ∈ channels owner
       /\ forall m,
            Agent.channel_id m = channel_ident channel ->
            Agent.outside_active_channels b (guild_ident owner) m = false.
Proof.
  unfold _get_eligible_channels. intros H.
  apply list_elem_of_In, in_flat_map in H as (guild & Hguild & H).
  apply list_elem_of_In in Hguild.
  unfold Agent.outside_active_channels.
  destruct (default false (Agent.is_active_in_all_channels
                             (Agent._get_server_settings b (guild_ident guild)))) eqn:Eall.
  - apply filter_In in H as [Hin Hcan]. split; [exact Hcan|].
    exists guild. split; [exact Hguild|split].
    + unfold text_channels in Hin. apply filter_In in Hin as [Hin _].
      now apply list_elem_of_In.
    + intros m _. now rewrite Eall.
  - apply in_flat_map in H as (channel_id & Hid & H).
    destruct (get_channel guilds channel_id) as [[owner c]|] eqn:Eg; [|destruct H].
    destruct (Z.eqb_spec (guild_ident owner) (guild_ident guild)) as [Heq|]; [|destruct H].
    destruct (can c permission_check) eqn:Ecan; [|destruct H].
    destruct H as [<-|[]]. apply get_channel_Some in Eg as (Ho & Hc & Hident).
    split; [exact Ecan|]. exists owner. split; [exact Ho|split; [exact Hc|]].
    intros m Hm. rewrite Heq, Eall. cbn [negb andb].
    rewrite bool_decide_eq_true_2; [reflexivity|].
    rewrite Hm, Hident. now apply list_elem_of_In.
Qed.

Lemma eligible_channels_are_active_witness :
  can (mkChannel 40 "general" true (fun p => String.eqb p "send_messages")) "send_messages"
  = true.
Proof.
  refine (proj1 (eligible_channels_are_active
            (Agent.Bot 1 [] {[ "5" := Agent.GuildSettings (Some true) None ]} [] None)
            [mkGuild 5 "home"
               [mkChannel 40 "general" true (fun p => String.eqb p "send_messages")]]
            "send_messages"
            (mkChannel 40 "general" true (fun p => String.eqb p "send_messages")) _)).
  vm_compute. apply elem_of_cons. now left.
Defined.

Section Identifiers.

Variable python_int : string -> option Z.

Lemma resolve_identifier_Some guild identifier channel_id :
  resolve_identifier python_int guild identifier = Some channel_id ->
  exists c, c ∈ channels guild /\ channel_ident c = channel_id.
Proof.
  unfold resolve_identifier.
  assert (G : forall id,
             option_map channel_ident (guild_get_channel guild id) = Some channel_id ->
             exists c, c ∈ channels guild /\ channel_ident c = channel_id).
  { intros id H. destruct (guild_get_channel guild id) as [c|] eqn:E; [|discriminate].
    injection H as <-. apply guild_get_channel_Some in E as [? _]. eauto. }
  destruct (_ && _).
  - destruct (python_int _); [apply G|discriminate].
  - destruct (get_text_channel_named guild identifier) as [c|] eqn:E.
    + intros [= <-]. exists c. split; [|reflexivity].
      unfold get_text_channel_named in E. apply List.find_some in E as [Hin _].
      unfold text_channels in Hin. apply filter_In in Hin as [Hin _].
      now apply list_elem_of_In.
    + destruct (python_int identifier); [apply G|discriminate].
Qed.

(** Every id [_resolve_channel_ids] returns is the id of a channel of the
    guild. *)
Lemma resolved_ids_are_channels guild identifiers channel_id :
  channel_id ∈ fst (_resolve_channel_ids python_int guild identifiers) ->
  exists c, c ∈ channels guild /\ channel_ident c = channel_id.
Proof.
  induction identifiers as [|i rest IH]; simpl.
  - intros H. now apply elem_of_nil in H.
  - destruct (_resolve_channel_ids python_int guild rest) as [ids failed].
    simpl in IH.
    destruct (resolve_identifier python_int guild i) as [id|] eqn:E; simpl; [|exact IH].
    intros [->|H]%elem_of_cons; [|now apply IH].
    now apply resolve_identifier_Some in E.
Qed.

(** X19. [_resolve_channel_ids] puts every identifier on exactly one of its
    two lists, in the order given: the ids are those of the identifiers that
    resolve, the failures the identifiers that do not. Every id it returns
    is the id of a channel of the guild it was asked about. *)
Theorem resolve_channel_ids_partition guild identifiers :
  let resolved := _resolve_channel_ids python_int guild identifiers in
  fst resolved = omap (resolve_identifier python_int guild) identifiers
  /\ snd resolved
     = List.filter (fun i => negb (bool_decide (is_Some (resolve_identifier python_int guild i))))
         identifiers
  /\ (length (fst resolved) + length (snd resolved) = length identifiers)%nat
  /\ forall channel_id,
       channel_id ∈ fst resolved ->
       exists c, c ∈ channels guild /\ channel_ident c = channel_id.
Proof.
  cbv zeta. split; [|split; [|split; [|apply resolved_ids_are_channels]]];
    induction identifiers as [|i rest IH]; simpl; try reflexivity;
    destruct (_resolve_channel_ids python_int guild rest) as [ids failed];
    simpl in IH;
    destruct (resolve_identifier python_int guild i) as [id|] eqn:E; simpl;
    first [now rewrite IH | exact IH | lia].
Qed.

End Identifiers.

End ChannelsMore.

(** ** The channel commands *)

Section ChannelCommands.
Import Discord Cog.

(** The decimal form of a number is not the word under which the default
    settings are kept. *)
Lemma pretty_N_go_head x s :
  (forall s', s <> String "d" s') -> forall s', pretty_N_go x s <> String "d" s'.
Proof.
  revert s. induction (N.lt_wf_0 x) as [x _ IH]; intros s Hs s'.
  destruct (decide (x = 0)%N) as [->|Hx].
  - rewrite pretty_N_go_0. apply Hs.
  - rewrite pretty_N_go_step by lia. apply IH.
    + apply N.div_lt; lia.
    + intros s''. unfold pretty_N_char. repeat case_match; discriminate.
Qed.

Lemma pretty_not_default (z : Z) : pretty z <> "default".
Proof.
  unfold pretty, pretty_Z. destruct z as [|p|p]; [discriminate| |discriminate].
  unfold pretty, pretty_positive, pretty, pretty_N.
  case_decide; [discriminate|]. now apply pretty_N_go_head.
Qed.

Lemma settings_written (b : Agent.bot) guild_id settings :
  Agent._get_server_settings (with_guild_settings b guild_id settings) guild_id = settings.
Proof.
  unfold Agent._get_server_settings, with_guild_settings. cbn [Agent.server_settings].
  now rewrite lookup_insert_eq.
Qed.

Lemma settings_elsewhere (b : Agent.bot) guild_id settings other :
  other <> guild_id ->
  Agent._get_server_settings (with_guild_settings b guild_id settings) other
  = Agent._get_server_settings b other.
Proof.
  intros Hne. unfold Agent._get_server_settings, with_guild_settings.
  cbn [Agent.server_settings].
  rewrite !lookup_insert_ne; [reflexivity| |].
  - intros H. apply (inj pretty) in H. congruence.
  - intros H. now apply pretty_not_default in H.
Qed.

Lemma outside_after_write (b : Agent.bot) guild_id all ids m :
  Agent.outside_active_channels
    (with_guild_settings b guild_id (Agent.GuildSettings (Some all) (Some ids))) guild_id m
  = negb all && negb (bool_decide (Agent.channel_id m ∈ ids)).
Proof. unfold Agent.outside_active_channels. now rewrite settings_written. Qed.

Lemma size_list_to_set_length (l : list Z) :
  (size (list_to_set l : gset Z) <= length l)%nat.
Proof.
  induction l as [|x l IH]; [reflexivity|].
  rewrite list_to_set_cons, size_union_alt, size_singleton. simpl.
  apply le_n_S. etransitivity; [|exact IH].
  apply subseteq_size, subseteq_difference_l. reflexivity.
Qed.

Section Commands.

Variable python_int : string -> option Z.

(** X20. [activechannels_set]: with the guild and the identifiers that
    [_parse_guild_and_channels] gives and the ids that
    [_resolve_channel_ids] resolves for them, the command stops on an error
    and leaves the configuration as it is when there is no guild or no id
    resolves, and otherwise writes the settings of that guild so that the
    activation check of [on_message] lets a message of the guild through
    exactly in the resolved channels, all of them channels of that guild; it
    reports their number and the identifiers that failed, and the settings
    read for every other guild are as before. *)
Theorem activechannels_set_admits (b : Agent.bot) guilds ctx_guild args :
  let parsed := _parse_guild_and_channels python_int guilds ctx_guild args in
  let result := activechannels_set python_int b guilds ctx_guild args in
  match fst parsed with
  | None => result = (b, None)
  | Some guild =>
      let resolved := _resolve_channel_ids python_int guild (snd parsed) in
      match fst resolved with
      | [] => result = (b, None)
      | _ :: _ =>
          snd result
          = Some (Report (length (fst resolved)) (length (fst resolved)) (snd resolved))
          /\ (forall m,
                Agent.outside_active_channels (fst result) (guild_ident guild) m
                = negb (bool_decide (Agent.channel_id m ∈ fst resolved)))
          /\ (forall channel_id, channel_id ∈ fst resolved ->
                exists c, c ∈ channels guild /\ channel_ident c = channel_id)
          /\ (forall other, other <> guild_ident guild ->
                Agent._get_server_settings (fst result) other
                = Agent._get_server_settings b other)
      end
  end.
Proof.
  unfold activechannels_set.
  destruct (_parse_guild_and_channels _ _ _ _) as [[guild|] identifiers];
    cbn [fst snd]; [|reflexivity].
  pose proof (resolved_ids_are_channels python_int guild identifiers) as R.
  destruct identifiers as [|i rest]; [reflexivity|].
  destruct (_resolve_channel_ids python_int guild (i :: rest)) as [[|id ids] failed];
    cbn [fst snd] in *; [reflexivity|].
  split; [reflexivity|split; [|split; [exact R|]]].
  - intros m. now rewrite outside_after_write.
  - intros other Hne. now apply settings_elsewhere.
Qed.

(** X21. [activechannels_add]: with the guild and the identifiers that
    [_parse_guild_and_channels] gives and the ids that
    [_resolve_channel_ids] resolves for them, the command leaves the
    configuration as it is when there is no guild or no id resolves, and
    otherwise leaves the guild active in exactly the channels its settings
    listed before (its own entry, or the default entry when it has none)
    together with all the resolved ones; an "all channels" setting is
    thereby dropped. The reply counts the distinct resolved channels that
    were not listed, its total is that count plus the number of distinct
    channels listed before, and it names the identifiers that failed. *)
Theorem activechannels_add_admits (b : Agent.bot) guilds ctx_guild args :
  let parsed := _parse_guild_and_channels python_int guilds ctx_guild args in
  let result := activechannels_add python_int b guilds ctx_guild args in
  match fst parsed with
  | None => result = (b, None)
  | Some guild =>
      let resolved := _resolve_channel_ids python_int guild (snd parsed) in
      let listed :=
        default [] (Agent.active_channels
                      (Agent._get_server_settings b (guild_ident guild))) in
      match fst resolved with
      | [] => result = (b, None)
      | _ :: _ =>
          exists rep,
            snd result = Some rep
            /\ could_not_resolve rep = snd resolved
            /\ (forall m,
                  Agent.outside_active_channels (fst result) (guild_ident guild) m = false
                  <-> Agent.channel_id m ∈ listed \/ Agent.channel_id m ∈ fst resolved)
            /\ counted rep
               = size (list_to_set (fst resolved) ∖ list_to_set listed : gset Z)
            /\ total rep = (size (list_to_set listed : gset Z) + counted rep)%nat
            /\ (counted rep <= length (fst resolved))%nat
            /\ (forall other, other <> guild_ident guild ->
                  Agent._get_server_settings (fst result) other
                  = Agent._get_server_settings b other)
      end
  end.
Proof.
  unfold activechannels_add.
  destruct (_parse_guild_and_channels _ _ _ _) as [[guild|] identifiers];
    cbn [fst snd]; [|reflexivity].
  destruct identifiers as [|i rest]; [reflexivity|].
  destruct (_resolve_channel_ids python_int guild (i :: rest)) as [[|id ids] failed];
    cbn [fst snd]; [reflexivity|].
  set (listed := default [] (Agent.active_channels
                               (Agent._get_server_settings b (guild_ident guild)))).
  eexists. split; [reflexivity|]. cbn [counted total could_not_resolve].
  split; [reflexivity|split; [|split; [reflexivity|split; [|split]]]].
  - intros m. rewrite outside_after_write. cbn [negb andb].
    rewrite negb_false_iff, bool_decide_eq_true, elem_of_elements, elem_of_union.
    now rewrite !elem_of_list_to_set.
  - apply size_union_alt.
  - etransitivity; [|apply (size_list_to_set_length (id :: ids))].
    apply subseteq_size, subseteq_difference_l. reflexivity.
  - intros other Hne. now apply settings_elsewhere.
Qed.

(** X22. [activechannels_remove]: with the guild and the identifiers that
    [_parse_guild_and_channels] gives and the ids that
    [_resolve_channel_ids] resolves for them, the command leaves the
    configuration as it is when there is no guild or no id resolves, and
    otherwise leaves the guild active in exactly the channels its settings
    listed before that are not among the resolved ones, again dropping an
    "all channels" setting. The reply counts the distinct listed channels
    that were resolved, its total is the number of distinct channels that
    stay, the two add up to the number listed before, and it names the
    identifiers that failed. *)
Theorem activechannels_remove_admits (b : Agent.bot) guilds ctx_guild args :
  let parsed := _parse_guild_and_channels python_int guilds ctx_guild args in
  let result := activechannels_remove python_int b guilds ctx_guild args in
  match fst parsed with
  | None => result = (b, None)
  | Some guild =>
      let resolved := _resolve_channel_ids python_int guild (snd parsed) in
      let listed :=
        default [] (Agent.active_channels
                      (Agent._get_server_settings b (guild_ident guild))) in
      match fst resolved with
      | [] => result = (b, None)
      | _ :: _ =>
          exists rep,
            snd result = Some rep
            /\ could_not_resolve rep = snd resolved
            /\ (forall m,
                  Agent.outside_active_channels (fst result) (guild_ident guild) m = false
                  <-> Agent.channel_id m ∈ listed /\ Agent.channel_id m ∉ fst resolved)
            /\ counted rep
               = size (list_to_set listed ∩ list_to_set (fst resolved) : gset Z)
            /\ total rep
               = size (list_to_set listed ∖ list_to_set (fst resolved) : gset Z)
            /\ (counted rep + total rep = size (list_to_set listed : gset Z))%nat
            /\ (forall other, other <> guild_ident guild ->
                  Agent._get_server_settings (fst result) other
                  = Agent._get_server_settings b other)
      end
  end.
Proof.
  unfold activechannels_remove.
  destruct (_parse_guild_and_channels _ _ _ _) as [[guild|] identifiers];
    cbn [fst snd]; [|reflexivity].
  destruct identifiers as [|i rest]; [reflexivity|].
  destruct (_resolve_channel_ids python_int guild (i :: rest)) as [[|id ids] failed];
    cbn [fst snd]; [reflexivity|].
  set (listed := default [] (Agent.active_channels
                               (Agent._get_server_settings b (guild_ident guild)))).
  eexists. split; [reflexivity|]. cbn [counted total could_not_resolve].
  split; [reflexivity|split; [|split; [reflexivity|split; [reflexivity|split]]]].
  - intros m. rewrite outside_after_write. cbn [negb andb].
    rewrite negb_false_iff, bool_decide_eq_true, elem_of_elements, elem_of_difference.
    now rewrite !elem_of_list_to_set.
  - set (X := list_to_set listed : gset Z). set (Y := list_to_set (id :: ids) : gset Z).
    assert (E : X = (X ∩ Y) ∪ (X ∖ Y)).
    { apply set_eq. intros x. rewrite elem_of_union, elem_of_intersection, elem_of_difference.
      destruct (decide (x ∈ Y)); tauto. }
    transitivity (size ((X ∩ Y) ∪ (X ∖ Y))); [|now rewrite <- E].
    symmetry. apply size_union.
    intros x. rewrite elem_of_intersection, elem_of_difference. tauto.
  - intros other Hne. now apply settings_elsewhere.
Qed.

(** X23. [activechannels_all] makes the activation check let every message
    of the target guild through, [activechannels_clear] makes it stop every
    one; without a target guild neither changes anything, and neither
    touches what is read for another guild. *)
Theorem activechannels_all_and_clear (b : Agent.bot) guilds ctx_guild guild_identifier :
  match target_of python_int guilds ctx_guild guild_identifier with
  | None =>
      activechannels_all python_int b guilds ctx_guild guild_identifier = b
      /\ activechannels_clear python_int b guilds ctx_guild guild_identifier = b
  | Some guild =>
      (forall m,
          Agent.outside_active_channels
            (activechannels_all python_int b guilds ctx_guild guild_identifier)
            (guild_ident guild) m = false)
      /\ (forall m,
            Agent.outside_active_channels
              (activechannels_clear python_int b guilds ctx_guild guild_identifier)
              (guild_ident guild) m = true)
      /\ (forall other, other <> guild_ident guild ->
            Agent._get_server_settings
              (activechannels_all python_int b guilds ctx_guild guild_identifier) other
            = Agent._get_server_settings b other
            /\ Agent._get_server_settings
                 (activechannels_clear python_int b guilds ctx_guild guild_identifier) other
               = Agent._get_server_settings b other)
  end.
Proof.
  unfold activechannels_all, activechannels_clear.
  destruct (target_of python_int guilds ctx_guild guild_identifier) as [guild|];
    [|now split].
  split; [|split].
  - intros m. now rewrite outside_after_write.
  - intros m. now rewrite outside_after_write.
  - intros other Hne. split; now apply settings_elsewhere.
Qed.

End Commands.

Section CommandWitnesses.

Lemma activechannels_set_admits_witness :
  snd (activechannels_set (fun _ => None)
         (Agent.Bot 1 [] ∅ [] None)
         [mkGuild 5 "home" [mkChannel 40 "general" true (fun _ => true);
                            mkChannel 41 "games" true (fun _ => true)]]
         (Some (mkGuild 5 "home" [mkChannel 40 "general" true (fun _ => true);
                                  mkChannel 41 "games" true (fun _ => true)]))
         ["games"; "nowhere"])
  = Some (Report 1 1 ["nowhere"]).
Proof.
  exact (proj1 (activechannels_set_admits (fun _ => None)
           (Agent.Bot 1 [] ∅ [] None)
           [mkGuild 5 "home" [mkChannel 40 "general" true (fun _ => true);
                              mkChannel 41 "games" true (fun _ => true)]]
           (Some (mkGuild 5 "home" [mkChannel 40 "general" true (fun _ => true);
                                    mkChannel 41 "games" true (fun _ => true)]))
           ["games"; "nowhere"])).
Defined.

Lemma activechannels_add_admits_witness :
  Agent.outside_active_channels
    (fst (activechannels_add (fun _ => None)
            (Agent.Bot 1 [] {[ "5" := Agent.GuildSettings (Some false) (Some [40]) ]} [] None)
            [mkGuild 5 "home" [mkChannel 40 "general" true (fun _ => true);
                               mkChannel 41 "games" true (fun _ => true)]]
            (Some (mkGuild 5 "home" [mkChannel 40 "general" true (fun _ => true);
                                     mkChannel 41 "games" true (fun _ => true)]))
            ["games"]))
    5 (Agent.Message 7 false "ann" (Some 5) 41 [] None "hey")
  = false.
Proof.
  pose proof (activechannels_add_admits (fun _ => None)
           (Agent.Bot 1 [] {[ "5" := Agent.GuildSettings (Some false) (Some [40]) ]} [] None)
           [mkGuild 5 "home" [mkChannel 40 "general" true (fun _ => true);
                              mkChannel 41 "games" true (fun _ => true)]]
           (Some (mkGuild 5 "home" [mkChannel 40 "general" true (fun _ => true);
                                    mkChannel 41 "games" true (fun _ => true)]))
           ["games"]) as H.
  cbv zeta in H. destruct H as (rep & _ & _ & H & _).
  apply H. right. apply elem_of_cons. now left.
Defined.

Lemma activechannels_remove_admits_witness :
  Agent.outside_active_channels
    (fst (activechannels_remove (fun _ => None)
            (Agent.Bot 1 [] {[ "5" := Agent.GuildSettings (Some false) (Some [40; 41]) ]} [] None)
            [mkGuild 5 "home" [mkChannel 40 "general" true (fun _ => true);
                               mkChannel 41 "games" true (fun _ => true)]]
            (Some (mkGuild 5 "home" [mkChannel 40 "general" true (fun _ => true);
                                     mkChannel 41 "games" true (fun _ => true)]))
            ["games"]))
    5 (Agent.Message 7 false "ann" (Some 5) 40 [] None "hey")
  = false.
Proof.
  pose proof (activechannels_remove_admits (fun _ => None)
           (Agent.Bot 1 [] {[ "5" := Agent.GuildSettings (Some false) (Some [40; 41]) ]} [] None)
           [mkGuild 5 "home" [mkChannel 40 "general" true (fun _ => true);
                              mkChannel 41 "games" true (fun _ => true)]]
           (Some (mkGuild 5 "home" [mkChannel 40 "general" true (fun _ => true);
                                    mkChannel 41 "games" true (fun _ => true)]))
           ["games"]) as H.
  cbv zeta in H. destruct H as (rep & _ & _ & H & _).
  apply H. split.
  - vm_compute. apply elem_of_cons. now left.
  - vm_compute. intros [E|E]%elem_of_cons; [discriminate|now apply elem_of_nil in E].
Defined.

End CommandWitnesses.

End ChannelCommands.

(** ** The profile commands *)

Section ProfileMore.

Import ProfileManager.

(** X24. [setstatus_command] and [set_status] agree on the status types:
    the command answers with the error exactly for the types for which
    [set_status] would set nothing, and whenever it answers that the status
    was updated, [set_status] did set an activity of the given text. *)
Theorem setstatus_reply_matches status_type name :
  match setstatus_command status_type name with
  | InvalidType => set_status status_type name = None
  | StatusUpdated presence =>
      presence = set_status status_type name
      /\ (presence = Some (Game name) \/ presence = Some (Watching name)
          \/ presence = Some (Listening name) \/ presence = Some (CustomActivity name))
  end.
Proof.
  unfold setstatus_command, set_status. cbn [existsb].
  destruct (String.eqb (lower status_type) "playing");
    destruct (String.eqb (lower status_type) "watching");
    destruct (String.eqb (lower status_type) "listening");
    destruct (String.eqb (lower status_type) "custom");
    cbn [orb negb]; try reflexivity; (split; [reflexivity|tauto]).
Qed.

(** X25. [join_command] uses what follows the last slash of its argument:
    an invite code without a slash is used as it is, and so is one that
    comes after any prefix ending in a slash, such as an invite URL; an
    argument that ends in a slash gives the empty code. *)
Theorem invite_code_after_last_slash prefix code :
  contains "/" code = false ->
  invite_code_of code = code
  /\ invite_code_of (prefix +:+ "/" +:+ code) = code
  /\ invite_code_of (prefix +:+ "/") = "".
Proof.
  intros H. unfold invite_code_of.
  assert (E : forall a b, contains "/" b = false ->
                List.last (split "/" (a +:+ "/" +:+ b)) "" = b).
  { intros a b Hb. rewrite split_char_append, (split_absent "/" b) by (discriminate || exact Hb).
    apply List.last_last. }
  split; [|split].
  - now rewrite split_absent by (discriminate || exact H).
  - now apply E.
  - change (prefix +:+ "/") with (prefix +:+ "/" +:+ ""). now apply E.
Qed.

Lemma invite_code_after_last_slash_witness :
  invite_code_of "abc123" = "abc123"
  /\ invite_code_of ("https://discord.gg" +:+ "/" +:+ "abc123") = "abc123"
  /\ invite_code_of ("https://discord.gg" +:+ "/") = "".
Proof.
  exact (invite_code_after_last_slash "https://discord.gg" "abc123" eq_refl).
Defined.

End ProfileMore.
